(** * Monthly-playlist synchronisation: a shallow embedding of [main.go]

    The program reads the user's saved tracks from a remote music service,
    groups them by the month in which they were saved, finds or creates one
    playlist per month and appends the tracks that the playlist does not
    show yet.  This file embeds the Go source as Rocq functions over an
    explicit state (the HTTP client and the trace of requests it was asked
    to send) and states the properties of the design document about it. *)

From Stdlib Require Import ZArith String Ascii List Lia DecimalString.
From stdpp Require Import gmap strings.

Local Open Scope string_scope.
Local Open Scope list_scope.
Local Open Scope Z_scope.

(** ** Dynamic JSON values

    The program decodes every response into [map[string]interface{}] and
    inspects it with type assertions.  [value] is the JSON document; a Go
    map is a [gmap string value] obtained from the members of an object. *)

#[local] Unset Elimination Schemes.
Inductive value : Type :=
| Null
| Bool (b : bool)
| Number (n : Z)
| Str (s : string)
| Arr (l : list value)
| Obj (kvs : list (string * value)).
#[local] Set Elimination Schemes.

(** Storing the members of a JSON object into a Go map, in document order:
    a repeated key keeps its last value, and entries that the map already
    holds under other keys stay.  This is how [encoding/json] fills a map:
    "If the map is nil, Unmarshal allocates a new map.  Otherwise Unmarshal
    reuses the existing map, keeping existing entries." *)
Definition store_members (m : gmap string value) (kvs : list (string * value))
  : gmap string value :=
  foldl (fun acc kv => <[kv.1 := kv.2]> acc) m kvs.

(** [v.(map[string]interface{})] with the comma-ok form; [v] is the result
    of indexing a map, so [None] stands for a missing key (a nil interface). *)
Definition as_map (v : option value) : option (gmap string value) :=
  match v with
  | Some (Obj kvs) => Some (store_members ∅ kvs)
  | _ => None
  end.

(** [v.([]interface{})] *)
Definition as_slice (v : option value) : option (list value) :=
  match v with
  | Some (Arr l) => Some l
  | _ => None
  end.

(** [v.(string)] *)
Definition as_string (v : option value) : option string :=
  match v with
  | Some (Str s) => Some s
  | _ => None
  end.

(** ** HTTP requests and responses *)

Inductive method : Type := GET | POST | DELETE.

Record request : Type := mkRequest {
  Method : method;
  URL : string;
  ReqBody : option value
}.

(** [Body] is the parsed response body, [None] when it is not a JSON
    document at all. *)
Record response : Type := mkResponse {
  StatusCode : Z;
  Body : option value
}.

Definition StatusOK : Z := 200.

(** ** Results of running a piece of the program *)

Inductive error : Type :=
| TransportError                 (* client.Get / client.Do returned an error *)
| DecodeError                    (* json Decode returned an error *)
| UnexpectedType (field : string) (* fmt.Errorf / log.Fatalf "unexpected type for ..." *)
| StatusError (code : Z)         (* "failed to delete playlist, status code" *)
| ParseError                     (* time.Parse returned an error *)
| IOError                        (* os / file error *)
| AuthError.                     (* token exchange or refresh failed *)

Inductive outcome (A : Type) : Type :=
| Ret (a : A)        (* the function returned, with a nil error *)
| Err (e : error)    (* the function returned a non-nil error *)
| Fatal (e : error)  (* log.Fatal*: the process exits with status 1 *)
| Panic              (* run-time panic: a type assertion without comma-ok failed *)
| Hang.              (* the fuel of a loop ran out before the loop ended *)

Arguments Ret {A} a.
Arguments Err {A} e.
Arguments Fatal {A} e.
Arguments Panic {A}.
Arguments Hang {A}.

Definition api : string := "https://api.spotify.com/v1".

(** [json.NewDecoder(body).Decode(&m)] for [m] of type
    [map[string]interface{}].  An object is stored into the map [m] that the
    variable holds; [null] resets the variable to the nil map; anything else
    is an error. *)
Definition Decode (body : option value) (m : gmap string value)
  : option (gmap string value) :=
  match body with
  | Some (Obj kvs) => Some (store_members m kvs)
  | Some Null => Some ∅
  | _ => None
  end.

(** The state behind [*http.Client]: the transport with whatever it holds
    and the remote service.  [Do] sends one request; [None] is the error
    return of [client.Do] or [client.Get] (a request that [http.NewRequest]
    refuses to build counts as one that could not be sent). *)
Class Transport (C : Type) : Type :=
  Do : request -> C -> C * option response.

(** The machine: the client and the requests issued so far, oldest first. *)
Record sys (C : Type) : Type := mkSys {
  client : C;
  trace : list request
}.
Arguments mkSys {C} _ _.
Arguments client {C} _.
Arguments trace {C} _.

Definition M (S A : Type) : Type := S -> S * outcome A.

Section Monad.
Context {S : Type}.

Definition ret {A} (a : A) : M S A := fun s => (s, Ret a).

Definition bind {A B} (m : M S A) (k : A -> M S B) : M S B :=
  fun s =>
    match m s with
    | (s', Ret a) => k a s'
    | (s', Err e) => (s', Err e)
    | (s', Fatal e) => (s', Fatal e)
    | (s', Panic) => (s', Panic)
    | (s', Hang) => (s', Hang)
    end.

Definition stop {A} (o : outcome A) : M S A := fun s => (s, o).

(** [if err != nil { log.Fatalln(err) }] around a call *)
Definition orFatal {A} (m : M S A) : M S A :=
  fun s =>
    match m s with
    | (s', Err e) => (s', Fatal e)
    | r => r
    end.

(** A comma-ok test followed by an error return or by log.Fatalf; a type
    assertion without comma-ok panics instead. *)
Definition orErr {A} (field : string) (o : option A) : M S A :=
  match o with Some a => ret a | None => stop (Err (UnexpectedType field)) end.

Definition orFatalf {A} (field : string) (o : option A) : M S A :=
  match o with Some a => ret a | None => stop (Fatal (UnexpectedType field)) end.

Definition orPanic {A} (o : option A) : M S A :=
  match o with Some a => ret a | None => stop Panic end.

Definition decode (resp : response) (m : gmap string value)
  : M S (gmap string value) :=
  match Decode (Body resp) m with
  | Some m' => ret m'
  | None => stop (Err DecodeError)
  end.

End Monad.

(** The requests that the program builds. *)
Definition appendRequest (playlistId : string) (uris : list string) : request :=
  mkRequest POST (api +:+ "/playlists/" +:+ playlistId +:+ "/tracks")
            (Some (Obj [("uris", Arr (map Str uris))])).

Definition createRequest (userId name : string) (public collaborative : bool)
    (description : string) : request :=
  mkRequest POST (api +:+ "/users/" +:+ userId +:+ "/playlists")
            (Some (Obj [("name", Str name); ("public", Bool public);
                        ("collaborative", Bool collaborative);
                        ("description", Str description)])).

Definition deleteRequest (playlistId : string) : request :=
  mkRequest DELETE (api +:+ "/playlists/" +:+ playlistId +:+ "/followers") None.

Definition getRequest (url : string) : request := mkRequest GET url None.

Section Send.
Context {C : Type} `{!Transport C}.

(** [client.Do(req)] *)
Definition send (req : request) : M (sys C) response :=
  fun s =>
    let '(c', r) := Do req (client s) in
    let s' := {| client := c'; trace := trace s ++ [req] |} in
    match r with
    | Some resp => (s', Ret resp)
    | None => (s', Err TransportError)
    end.

(** [client.Get(url)] *)
Definition Get (url : string) : M (sys C) response :=
  send (getRequest url).

End Send.

Notation "'let!' x ':=' m 'in' k" := (bind m (fun x => k))
  (at level 10, x name, m at level 100, k at level 200).
Notation "'let!' ' p ':=' m 'in' k" := (bind m (fun x => match x with p => k end))
  (at level 10, p pattern, m at level 100, k at level 200).
Notation "'do!' m 'in' k" := (bind m (fun _ => k))
  (at level 10, m at level 100, k at level 200).

(** ** The remote library client (lines 35-324 of main.go) *)

Section Client.
Context {C : Type} `{!Transport C}.

(** GetPlaylist *)
Definition GetPlaylist (playlistId : string) : M (sys C) (gmap string value) :=
  let! resp := Get (api +:+ "/playlists/" +:+ playlistId) in
  decode resp ∅.

(** GetCurrentUsersProfile *)
Definition GetCurrentUsersProfile : M (sys C) (gmap string value) :=
  let! resp := Get (api +:+ "/me") in
  decode resp ∅.

(** The loop [for next != nil { ... }] shared, word for word, by the two
    Enumerate functions.  [page] is the map variable that every response
    is decoded into; [fuel] bounds the number of iterations. *)
Fixpoint follow_next (fuel : nat) (page : gmap string value)
    (items : list value) (next : value) : M (sys C) (list value) :=
  match next with
  | Null => ret items
  | _ =>
    match fuel with
    | O => stop Hang
    | S fuel' =>
      let! url := orPanic (as_string (Some next)) in
      let! resp := Get url in
      let! page' := decode resp page in
      let! nextItems := orErr "items" (as_slice (page' !! "items")) in
      let! next' := orErr "next" (page' !! "next") in
      follow_next fuel' page' (items ++ nextItems) next'
    end
  end.

Definition enumerate (url : string) (fuel : nat) : M (sys C) (list value) :=
  let! resp := Get url in
  let! page := decode resp ∅ in
  let! items := orErr "items" (as_slice (page !! "items")) in
  let! next := orErr "next" (page !! "next") in
  follow_next fuel page items next.

(** EnumerateCurrentUsersPlaylists *)
Definition EnumerateCurrentUsersPlaylists (fuel : nat) : M (sys C) (list value) :=
  enumerate (api +:+ "/me/playlists") fuel.

(** EnumerateUsersSavedTracks *)
Definition EnumerateUsersSavedTracks (fuel : nat) : M (sys C) (list value) :=
  enumerate (api +:+ "/me/tracks") fuel.

(** AddItemsToPlaylist: the response is closed unread and nil returned. *)
Definition AddItemsToPlaylist (playlistId : string) (uris : list string)
  : M (sys C) unit :=
  let! _ := send (appendRequest playlistId uris) in
  ret tt.

(** CreatePlaylist *)
Definition CreatePlaylist (userId name : string) (public collaborative : bool)
    (description : string) : M (sys C) (gmap string value) :=
  let! resp := send (createRequest userId name public collaborative description) in
  decode resp ∅.

(** DeletePlaylist *)
Definition DeletePlaylist (playlistId : string) : M (sys C) unit :=
  let! resp := send (deleteRequest playlistId) in
  if negb (StatusCode resp =? StatusOK)
  then stop (Err (StatusError (StatusCode resp)))
  else ret tt.

End Client.

(** ** Timestamps

    [main] calls [time.Parse(time.RFC3339, addedAt)] and
    [t.Format("January '06")].  The module follows Go's [time] package: a
    [Time] is an instant (seconds since the Unix epoch) together with the
    offset of its location; [Parse] computes the instant from the civil
    fields with [Date] and moves it by the zone offset; [Format] recovers the
    civil date of the instant in the [Time]'s own location with [absDate].
    Nanoseconds play no part in the layout used and are left out.  Go's
    unsigned 64-bit arithmetic does not wrap for four-digit years, so the
    integers are unbounded here. *)

Module time.

Definition secondsPerMinute : Z := 60.
Definition secondsPerHour : Z := 60 * secondsPerMinute.
Definition secondsPerDay : Z := 24 * secondsPerHour.
Definition daysPer400Years : Z := 365 * 400 + 97.
Definition daysPer100Years : Z := 365 * 100 + 24.
Definition daysPer4Years : Z := 365 * 4 + 1.

Definition absoluteZeroYear : Z := -292277022399.
Definition internalYear : Z := 1.
(** [(absoluteZeroYear - internalYear) * 365.2425 * secondsPerDay] *)
Definition absoluteToInternal : Z := (absoluteZeroYear - internalYear) * 31556952.
Definition internalToAbsolute : Z := - absoluteToInternal.
Definition unixToInternal : Z :=
  (1969 * 365 + 1969 / 4 - 1969 / 100 + 1969 / 400) * secondsPerDay.
Definition internalToUnix : Z := - unixToInternal.

Record Time : Type := mkTime {
  unixSec : Z;      (* the instant *)
  zoneOffset : Z    (* seconds east of UTC of the Time's location *)
}.

Definition isLeap (year : Z) : bool :=
  (Z.rem year 4 =? 0) && (negb (Z.rem year 100 =? 0) || (Z.rem year 400 =? 0)).

(** [daysBefore[m]]: days in a non-leap year before month [m+1] *)
Definition daysBefore (m : Z) : Z :=
  nth (Z.to_nat m) [0; 31; 59; 90; 120; 151; 181; 212; 243; 273; 304; 334; 365] 0.

Definition daysIn (m year : Z) : Z :=
  if (m =? 2) && isLeap year then 29 else daysBefore m - daysBefore (m - 1).

Definition daysSinceEpoch (year : Z) : Z :=
  let y := year - absoluteZeroYear in
  (* 400-year cycles *)
  let n := y / 400 in
  let y := y - 400 * n in
  let d := daysPer400Years * n in
  (* 100-year cycles *)
  let n := y / 100 in
  let y := y - 100 * n in
  let d := d + daysPer100Years * n in
  (* 4-year cycles *)
  let n := y / 4 in
  let y := y - 4 * n in
  let d := d + daysPer4Years * n in
  (* non-leap years *)
  d + 365 * y.

(** [Date(year, month, day, hour, min, sec, 0, UTC)] for fields already in
    range (the only way [Parse] calls it): the Unix time. *)
Definition Date (year month day hour min sec : Z) : Z :=
  let d := daysSinceEpoch year in
  let d := d + daysBefore (month - 1) in
  let d := if isLeap year && (3 <=? month) then d + 1 else d in
  let d := d + (day - 1) in
  let abs := d * secondsPerDay in
  let abs := abs + (hour * secondsPerHour + min * secondsPerMinute + sec) in
  abs + (absoluteToInternal + internalToUnix).

(** [absDate(abs, false)]: the year and the day within the year *)
Definition absYear (abs : Z) : Z * Z :=
  let d := abs / secondsPerDay in
  let n := d / daysPer400Years in
  let y := 400 * n in
  let d := d - daysPer400Years * n in
  let n := d / daysPer100Years in
  let n := n - Z.shiftr n 2 in
  let y := y + 100 * n in
  let d := d - daysPer100Years * n in
  let n := d / daysPer4Years in
  let y := y + 4 * n in
  let d := d - daysPer4Years * n in
  let n := d / 365 in
  let n := n - Z.shiftr n 2 in
  let y := y + n in
  let d := d - 365 * n in
  (y + absoluteZeroYear, d).

(** The rest of [absDate(abs, true)]: month and day of the month from the
    day of the year. *)
Definition monthDay (leap : bool) (yday : Z) : Z * Z :=
  if leap && (yday =? 31 + 29 - 1) then (2, 29)
  else
    let day := if leap && (31 + 29 - 1 <? yday) then yday - 1 else yday in
    let month := day / 31 in
    let e := daysBefore (month + 1) in
    if e <=? day then (month + 2, day - e + 1)
    else (month + 1, day - daysBefore month + 1).

(** [absDate(abs, true)]: year, month, day *)
Definition absDate (abs : Z) : Z * Z * Z :=
  let '(year, yday) := absYear abs in
  let '(month, day) := monthDay (isLeap year) yday in
  (year, month, day).

(** [t.abs()] *)
Definition abs (t : Time) : Z :=
  unixSec t + zoneOffset t + (unixToInternal + internalToAbsolute).

(** [Month.String] *)
Definition longMonthName (m : Z) : string :=
  nth (Z.to_nat (m - 1))
    ["January"; "February"; "March"; "April"; "May"; "June"; "July";
     "August"; "September"; "October"; "November"; "December"]%string
    "%!Month".

Definition digitChar (d : Z) : ascii := ascii_of_N (Z.to_N (48 + d)).

(** [appendInt(b, x, 2)] for [0 <= x < 100] *)
Definition twoDigits (x : Z) : string :=
  String (digitChar (x / 10)) (String (digitChar (x mod 10)) EmptyString).

(** [t.Format("January '06")]: the long month name, a space, an
    apostrophe and the last two digits of the year. *)
Definition Format_January_06 (t : Time) : string :=
  let '(year, month, _) := absDate (abs t) in
  longMonthName month +:+ " '" +:+ twoDigits (Z.abs year mod 100).

(** *** Reading the layout [RFC3339], ["2006-01-02T15:04:05Z07:00"]

    [Parse] tries [parseRFC3339] first, which reads the strict form at
    fixed positions, and hands the text to the layout parser [parse] when
    that refuses it.  The layout parser is more lenient: it reads the hour
    with one or two digits, takes a comma as well as a period before the
    fraction of a second, and lets the offset be up to 24 hours and 60
    minutes. *)

(** [isDigit] with the value of the digit *)
Definition digit (c : ascii) : option Z :=
  let n := Z.of_N (N_of_ascii c) in
  if (48 <=? n) && (n <=? 57) then Some (n - 48) else None.

(** exactly [k] decimal digits: [parseUint] on a slice of [k] bytes, and
    [atoi] on a slice that starts with a digit *)
Fixpoint number (k : nat) (acc : Z) (s : string) : option (Z * string) :=
  match k with
  | O => Some (acc, s)
  | S k' =>
    match s with
    | String c r => d ← digit c; number k' (10 * acc + d) r
    | EmptyString => None
    end
  end.

(** [skip(value, prefix)] for a prefix of one character that is not a
    space *)
Definition lit (c : ascii) (s : string) : option string :=
  match s with
  | String a r => if Ascii.eqb a c then Some r else None
  | EmptyString => None
  end.

(** [getnum(s, fixed)]: two digits, or one when the second character is
    no digit and [fixed] is false *)
Definition getnum (s : string) (fixed : bool) : option (Z * string) :=
  match s with
  | String c0 r =>
    d0 ← digit c0;
    match r with
    | String c1 r' =>
      match digit c1 with
      | Some d1 => Some (10 * d0 + d1, r')
      | None => if fixed then None else Some (d0, r)
      end
    | EmptyString => if fixed then None else Some (d0, r)
    end
  | EmptyString => None
  end.

Fixpoint skipDigits (s : string) : string :=
  match s with
  | String c r =>
    match digit c with Some _ => skipDigits r | None => s end
  | EmptyString => EmptyString
  end.

(** [commaOrPeriod] *)
Definition commaOrPeriod (c : ascii) : bool :=
  Ascii.eqb c "." || Ascii.eqb c ",".

(** Fractional seconds may follow the seconds although the layout has
    none: a separator and at least one digit.  [parseNanoseconds] cannot
    fail on them, and the nanoseconds are not kept here. *)
Definition fraction (separator : ascii -> bool) (s : string) : string :=
  match s with
  | String p (String c r) =>
    if separator p then
      match digit c with Some _ => skipDigits r | None => s end
    else s
  | _ => s
  end.

Record fields : Type := mkFields {
  year : Z; month : Z; day : Z;
  hour : Z; minute : Z; second : Z;
  offset : Z
}.

(** The zone of [parseRFC3339]: [Z] alone, or exactly six characters, a
    sign and [hh:mm] with [hh <= 23] and [mm <= 59]. *)
Definition zone (s : string) : option Z :=
  match s with
  | String "Z"%char EmptyString => Some 0
  | String sg r =>
    sign ← (if Ascii.eqb sg "+" then Some 1
            else if Ascii.eqb sg "-" then Some (-1) else None);
    '(hh, r) ← number 2 0 r;
    r ← lit ":" r;
    '(mm, r) ← number 2 0 r;
    match r with
    | EmptyString =>
      if (hh <=? 23) && (mm <=? 59)
      then Some (sign * (hh * secondsPerHour + mm * secondsPerMinute))
      else None
    | _ => None
    end
  | EmptyString => None
  end.

(** [parseRFC3339]: the fields as they are written in the text,
    range-checked; [None] where Go returns [ok = false]. *)
Definition parseRFC3339 (s : string) : option fields :=
  '(y, s) ← number 4 0 s;
  s ← lit "-" s;
  '(mo, s) ← number 2 0 s;
  s ← lit "-" s;
  '(d, s) ← number 2 0 s;
  s ← lit "T" s;
  '(h, s) ← number 2 0 s;
  s ← lit ":" s;
  '(mi, s) ← number 2 0 s;
  s ← lit ":" s;
  '(sec, s) ← number 2 0 s;
  off ← zone (fraction (fun c => Ascii.eqb c ".") s);
  if (1 <=? mo) && (mo <=? 12) && (1 <=? d) && (d <=? daysIn mo y)
     && (h <? 24) && (mi <? 60) && (sec <? 60)
  then Some (mkFields y mo d h mi sec off)
  else None.

(** The chunk [Z07:00] of the layout parser: [Z] for UTC; otherwise six
    characters, of which the fourth is a colon, the second and third and
    the fifth and sixth are two digits each, not above 24 and 60, and the
    first is the sign.  The offset in seconds and what follows. *)
Definition colonTZ (s : string) : option (Z * string) :=
  match s with
  | String "Z"%char r => Some (0, r)
  | String sg (String h1 (String h2 (String c (String m1 (String m2 r))))) =>
    if Ascii.eqb c ":" then
      '(hr, _) ← getnum (String h1 (String h2 EmptyString)) true;
      '(mm, _) ← getnum (String m1 (String m2 EmptyString)) true;
      if (24 <? hr) || (60 <? mm) then None
      else
        let zoneOffset := (hr * 60 + mm) * 60 in
        if Ascii.eqb sg "+" then Some (zoneOffset, r)
        else if Ascii.eqb sg "-" then Some (- zoneOffset, r)
        else None
    else None
  | _ => None
  end.

(** [parse(RFC3339, s, UTC, Local)]: the layout, chunk by chunk.  The day
    is checked against the month once everything is read, and text left
    over is an error. *)
Definition parse (s : string) : option fields :=
  '(y, s) ← number 4 0 s;
  s ← lit "-" s;
  '(mo, s) ← getnum s true;
  if (mo <=? 0) || (12 <? mo) then None else
  s ← lit "-" s;
  '(d, s) ← getnum s true;
  s ← lit "T" s;
  '(h, s) ← getnum s false;
  if 24 <=? h then None else
  s ← lit ":" s;
  '(mi, s) ← getnum s true;
  if 60 <=? mi then None else
  s ← lit ":" s;
  '(sec, s) ← getnum s true;
  if 60 <=? sec then None else
  '(off, s) ← colonTZ (fraction commaOrPeriod s);
  match s with
  | EmptyString =>
    if (d <? 1) || (daysIn mo y <? d) then None
    else Some (mkFields y mo d h mi sec off)
  | _ => None
  end.

(** The fields that [Parse] reads: those of the strict form, or else those
    of the layout parser. *)
Definition civil (s : string) : option fields :=
  match parseRFC3339 s with
  | Some f => Some f
  | None => parse s
  end.

(** [time.Parse(time.RFC3339, s)]: the instant is that of the civil
    fields read as UTC, moved back by the offset; the location is the
    zone of that offset (the local zone if it has that offset at that
    instant, a fixed zone otherwise). *)
Definition Parse (s : string) : option Time :=
  f ← civil s;
  Some (mkTime (Date (year f) (month f) (day f) (hour f) (minute f) (second f)
                - offset f)
               (offset f)).

(** [t.UTC()] *)
Definition UTC (t : Time) : Time := mkTime (unixSec t) 0.

End time.

(** ** The synchronisation (lines 448-598 of main.go) *)

(** Lines 468-471: the copy loop
    [for i, j := 0, len(tracks)-1; i < j; i, j = i+1, j-1], which writes
    [reverseTracks[i], reverseTracks[j] = tracks[j], tracks[i]]. *)
Fixpoint reverse_loop (fuel : nat) (i j : Z) (tracks reverseTracks : list value)
  : outcome (list value) :=
  if i <? j then
    match fuel with
    | O => Hang
    | S fuel' =>
      match tracks !! Z.to_nat j, tracks !! Z.to_nat i with
      | Some tj, Some ti =>
        reverse_loop fuel' (i + 1) (j - 1) tracks
          (<[Z.to_nat j := ti]> (<[Z.to_nat i := tj]> reverseTracks))
      | _, _ => Panic
      end
    end
  else Ret reverseTracks.

(** [make([]interface{}, len(tracks))] holds nil interfaces. *)
Definition make_reverseTracks (tracks : list value) : outcome (list value) :=
  reverse_loop (length tracks) 0 (Z.of_nat (length tracks) - 1) tracks
    (replicate (length tracks) Null).

(** Lines 506-525: the search of the fetched playlists for one whose name
    is the label.  A name that is not a string is only logged and compares
    as the empty string. *)
Fixpoint lookup_by_name (playlists : list value) (targetPlaylistName : string)
  : outcome (option string) :=
  match playlists with
  | [] => Ret None
  | playlist :: rest =>
    match as_map (Some playlist) with
    | None => Fatal (UnexpectedType "playlist")
    | Some plMap =>
      let playlistName := default "" (as_string (plMap !! "name")) in
      if String.eqb playlistName targetPlaylistName then
        match as_string (plMap !! "id") with
        | Some id => Ret (Some id)
        | None => Panic
        end
      else lookup_by_name rest targetPlaylistName
    end
  end.

(** Lines 566-582: [existingTracks[uri] = true] for every item; the map is
    only ever asked whether it holds a key, so it is a set here. *)
Fixpoint collect_existing (items : list value) (existingTracks : gset string)
  : outcome (gset string) :=
  match items with
  | [] => Ret existingTracks
  | item :: rest =>
    match as_map (Some item) with
    | None => Fatal (UnexpectedType "item")
    | Some itemMap =>
      match as_map (itemMap !! "track") with
      | None => Fatal (UnexpectedType "track")
      | Some trackMap =>
        match as_string (trackMap !! "uri") with
        | None => Panic
        | Some uri => collect_existing rest ({[uri]} ∪ existingTracks)
        end
      end
    end
  end.

(** Lines 584-589 *)
Definition newUris (existingTracks : gset string) (uris : list string)
  : list string :=
  foldl (fun acc uri =>
           if bool_decide (uri ∈ existingTracks) then acc else acc ++ [uri])
        [] uris.

(** The label of a saved track (lines 493-498) *)
Definition targetPlaylistName (addedAt : string) : option string :=
  time.Format_January_06 <$> time.Parse addedAt.

Section Sync.
Context {C : Type} `{!Transport C}.

(** Lines 478-543: the body of the loop over [reverseTracks]. *)
Definition bucket_step (id : string) (playlists : list value)
    (st : gmap string string * gmap string (list string)) (track : value)
  : M (sys C) (gmap string string * gmap string (list string)) :=
  let '(playlistMap, tracksByMonth) := st in
  let! trackMap := orFatalf "track" (as_map (Some track)) in
  let! addedAt := orFatalf "added_at" (as_string (trackMap !! "added_at")) in
  let! trackMap := orPanic (as_map (trackMap !! "track")) in
  let! name :=
    match targetPlaylistName addedAt with
    | Some name => ret name
    | None => stop (Fatal ParseError)
    end in
  let! uri := orPanic (as_string (trackMap !! "uri")) in
  let tracksByMonth :=
    <[name := default [] (tracksByMonth !! name) ++ [uri]]> tracksByMonth in
  match playlistMap !! name with
  | Some _ => ret (playlistMap, tracksByMonth)
  | None =>
    let! found := stop (lookup_by_name playlists name) in
    match found with
    | Some pid => ret (<[name := pid]> playlistMap, tracksByMonth)
    | None =>
      let! playlist := orFatal (CreatePlaylist id name true false "") in
      let! pid := orPanic (as_string (playlist !! "id")) in
      ret (<[name := pid]> playlistMap, tracksByMonth)
    end
  end.

Fixpoint bucket_loop (id : string) (playlists reverseTracks : list value)
    (st : gmap string string * gmap string (list string))
  : M (sys C) (gmap string string * gmap string (list string)) :=
  match reverseTracks with
  | [] => ret st
  | track :: rest =>
    let! st' := bucket_step id playlists st track in
    bucket_loop id playlists rest st'
  end.

(** Lines 547-597: the body of the loop over [tracksByMonth]. *)
Definition merge_month (playlistMap : gmap string string)
    (month : string) (uris : list string) : M (sys C) unit :=
  if (0 <? Z.of_nat (length uris)) then
    let targetPlaylistId := default "" (playlistMap !! month) in
    let! playlist := orFatal (GetPlaylist targetPlaylistId) in
    let! tracks := orFatalf "tracks" (as_map (playlist !! "tracks")) in
    let! items := orFatalf "items" (as_slice (tracks !! "items")) in
    let! existingTracks := stop (collect_existing items ∅) in
    let new := newUris existingTracks uris in
    if (0 <? Z.of_nat (length new)) then
      orFatal (AddItemsToPlaylist targetPlaylistId new)
    else ret tt
  else ret tt.

Fixpoint merge_loop (playlistMap : gmap string string)
    (months : list (string * list string)) : M (sys C) unit :=
  match months with
  | [] => ret tt
  | (month, uris) :: rest =>
    do! merge_month playlistMap month uris in
    merge_loop playlistMap rest
  end.

(** Lines 448-598.  [rangeOrder] is the order in which the run time
    happens to range over [tracksByMonth]; [fuel] bounds each pager. *)
Definition sync (rangeOrder : gmap string (list string) -> list (string * list string))
    (fuel : nat) : M (sys C) unit :=
  let! profile := orFatal GetCurrentUsersProfile in
  let! id := orFatalf "id" (as_string (profile !! "id")) in
  let! playlists := orFatal (EnumerateCurrentUsersPlaylists fuel) in
  let! tracks := orFatal (EnumerateUsersSavedTracks fuel) in
  let! reverseTracks := stop (make_reverseTracks tracks) in
  let! '(playlistMap, tracksByMonth) :=
    bucket_loop id playlists reverseTracks (∅, ∅) in
  merge_loop playlistMap (rangeOrder tracksByMonth).

End Sync.

(** ** Credentials (lines 19-33, 277-294 and 408-442 of main.go)

    [golang.org/x/oauth2] is a library; what the program relies on is
    modelled here: a token is valid while its access token is non-empty and
    its expiry, less ten seconds, is not in the past; a token source hands
    out its token while it is valid and asks the token endpoint for a new
    one otherwise; the client built by [config.Client] asks its own token
    source before every request. *)

Record Token : Type := mkToken {
  AccessToken : string;
  RefreshToken : string;
  Expiry : option Z      (* Unix seconds; [None] is the zero time: never expires *)
}.

Definition expiryDelta : Z := 10.

(** [Token.Valid] at the time [now] *)
Definition Valid (t : Token) (now : Z) : bool :=
  negb (String.eqb (AccessToken t) "")
  && match Expiry t with
     | None => true
     | Some e => negb (e - expiryDelta <? now)
     end.

Inductive fault : Type := MkdirFails | CreateFails | EncodeFails.

(** Everything outside the process. *)
Class Host (W : Type) : Type := {
  now : W -> Z;                                     (* time.Now *)
  roundTrip : request -> W -> W * option response;  (* the base transport *)
  retrieveToken : string -> W -> W * option Token;  (* the token endpoint, given a refresh token *)
  Exchange : string -> W -> W * option Token;       (* config.Exchange(ctx, code) *)
  Scan : W -> W * option string;                    (* fmt.Scan(&code) *)
  writeFault : W -> option fault                    (* what goes wrong when the token file is written *)
}.

(** The client of [config.Client(ctx, t)]: a token source holding [t], and
    the world the requests go to. *)
Record oauthClient (W : Type) : Type := mkClient {
  source : Token;
  world : W
}.
Arguments mkClient {W} _ _.
Arguments source {W} _.
Arguments world {W} _.

(** The process outside the client: the token file ([None]: missing or not
    decodable) and the world. *)
Record process (W : Type) : Type := mkProcess {
  tokenFile : option Token;
  host : W
}.
Arguments mkProcess {W} _ _.
Arguments tokenFile {W} _.
Arguments host {W} _.

Record final (W : Type) : Type := mkFinal {
  disk : option Token;        (* the token file when the process ends *)
  memory : option Token;      (* the token held by the client's source, if a client was built *)
  requests : list request;    (* what the client was asked to send *)
  result : outcome unit;
  after : W
}.
Arguments mkFinal {W} _ _ _ _ _.
Arguments disk {W} _.
Arguments memory {W} _.
Arguments requests {W} _.
Arguments result {W} _.
Arguments after {W} _.

Section Credentials.
Context {W : Type} `{!Host W}.

Definition orAuthError {A} (r : W * option A) : W * outcome A :=
  match r with
  | (w, Some a) => (w, Ret a)
  | (w, None) => (w, Err AuthError)
  end.

(** [reuseTokenSource.Token] for a source holding [t] *)
Definition sourceToken (t : Token) : M W Token :=
  fun w =>
    if Valid t (now w) then (w, Ret t)
    else if String.eqb (RefreshToken t) "" then (w, Err AuthError)
    else orAuthError (retrieveToken (RefreshToken t) w).

(** [oauth2.Transport.RoundTrip]: the source is asked first, and keeps the
    token it handed out. *)
#[export] Instance oauthTransport : Transport (oauthClient W) :=
  fun req c =>
    match sourceToken (source c) (world c) with
    | (w, Ret t) =>
      let '(w', r) := roundTrip req w in (mkClient t w', r)
    | (w, _) => (mkClient (source c) w, None)
    end.

Definition onHost {A} (m : M W A) : M (process W) A :=
  fun p => let '(w, o) := m (host p) in (mkProcess (tokenFile p) w, o).

(** ReadTokenFromPath *)
Definition ReadTokenFromPath : M (process W) Token :=
  fun p =>
    match tokenFile p with
    | Some t => (p, Ret t)
    | None => (p, Err IOError)
    end.

(** WriteTokenToPath: [os.Create] truncates the file, so a failure of the
    encoder leaves nothing decodable behind. *)
Definition WriteTokenToPath (token : Token) : M (process W) unit :=
  fun p =>
    match writeFault (host p) with
    | None => (mkProcess (Some token) (host p), Ret tt)
    | Some EncodeFails => (mkProcess None (host p), Err IOError)
    | Some _ => (p, Err IOError)
    end.

(** Lines 408-440: the token handed to [config.Client]. *)
Definition startup : M (process W) Token :=
  let! token :=
    (fun p =>
       match ReadTokenFromPath p with
       | (p', Err _) =>
         (let! code := orFatal (onHost (fun w => orAuthError (Scan w))) in
          let! token := orFatal (onHost (fun w => orAuthError (Exchange code w))) in
          do! orFatal (WriteTokenToPath token) in
          ret token) p'
       | r => r
       end) in
  let! newToken := orFatal (onHost (sourceToken token)) in
  do! (if negb (String.eqb (AccessToken newToken) (AccessToken token))
       then orFatal (WriteTokenToPath newToken)
       else ret tt) in
  ret newToken.

(** [main] from line 408 on. *)
Definition main (rangeOrder : gmap string (list string) -> list (string * list string))
    (fuel : nat) (p : process W) : final W :=
  match startup p with
  | (p', Ret newToken) =>
    let '(s, o) := sync rangeOrder fuel (mkSys (mkClient newToken (host p')) []) in
    mkFinal (tokenFile p') (Some (source (client s))) (trace s) o (world (client s))
  | (p', Err e) => mkFinal (tokenFile p') None [] (Err e) (host p')
  | (p', Fatal e) => mkFinal (tokenFile p') None [] (Fatal e) (host p')
  | (p', Panic) => mkFinal (tokenFile p') None [] Panic (host p')
  | (p', Hang) => mkFinal (tokenFile p') None [] Hang (host p')
  end.

End Credentials.

(** ** A reference remote service

    The remote service is not part of the program.  To run the program end
    to end, this module gives a small service that behaves as the program
    expects of the real one: list endpoints are paged with a [next] link
    that is [null] on the last page; fetching a playlist returns its first
    page of items and a link to the rest; created playlists and appended
    tracks are kept. *)

Module Service.

Record playlist : Type := mkPlaylist {
  pid : string;
  pname : string;
  ptracks : list string
}.

Record saved : Type := mkSaved {
  added_at : string;
  uri : string
}.

Record state : Type := mkState {
  user : string;
  playlists : list playlist;
  library : list saved;     (* most recently saved first *)
  pageSize : nat
}.

Definition decimal (n : nat) : string :=
  DecimalString.NilZero.string_of_uint (Nat.to_uint n).

Definition readDecimal (s : string) : option nat :=
  Nat.of_uint <$> DecimalString.NilZero.uint_of_string s.

Fixpoint stripPrefix (p s : string) : option string :=
  match p, s with
  | EmptyString, _ => Some s
  | String a p', String b s' => if Ascii.eqb a b then stripPrefix p' s' else None
  | _, _ => None
  end.

(** [splitOn c s]: the pieces of [s] between occurrences of [c] *)
Fixpoint splitOn (c : ascii) (s : string) : list string :=
  match s with
  | EmptyString => [EmptyString]
  | String a r =>
    match splitOn c r with
    | piece :: pieces =>
      if Ascii.eqb a c then EmptyString :: piece :: pieces
      else String a piece :: pieces
    | [] => [String a EmptyString]
    end
  end.

Definition trackItem (u : string) : value :=
  Obj [("track", Obj [("uri", Str u)])].

Definition savedItem (t : saved) : value :=
  Obj [("added_at", Str (added_at t)); ("track", Obj [("uri", Str (uri t))])].

Definition playlistItem (p : playlist) : value :=
  Obj [("id", Str (pid p)); ("name", Str (pname p))].

(** One page of a list, from [offset] on. *)
Definition page {A} (size : nat) (url : string) (render : A -> value)
    (l : list A) (offset : nat) : value :=
  Obj [("items", Arr (map render (take size (drop offset l))));
       ("next", if (offset + size <? length l)%nat
                then Str (url +:+ "?offset=" +:+ decimal (offset + size))
                else Null)].

Definition fullPlaylist (size : nat) (p : playlist) : value :=
  Obj [("id", Str (pid p)); ("name", Str (pname p));
       ("tracks", page size (api +:+ "/playlists/" +:+ pid p +:+ "/tracks")
                       trackItem (ptracks p) 0)].

Definition notFound : response :=
  mkResponse 404 (Some (Obj [("error", Obj [("status", Number 404)])])).

Definition ok (v : value) : response := mkResponse 200 (Some v).
Definition created (v : value) : response := mkResponse 201 (Some v).

Definition findPlaylist (id : string) (s : state) : option playlist :=
  List.find (fun p => String.eqb (pid p) id) (playlists s).

Definition readOffset (query : list string) : option nat :=
  match query with
  | [] => Some O
  | [q] => r ← stripPrefix "offset=" q; readDecimal r
  | _ => None
  end.

Definition stringsOf (v : option value) : option (list string) :=
  match v with
  | Some (Arr l) =>
    mapM (fun x => match x with Str u => Some u | _ => None end) l
  | _ => None
  end.

Definition member (k : string) (body : option value) : option value :=
  match body with
  | Some (Obj kvs) => store_members ∅ kvs !! k
  | _ => None
  end.

Definition serve (req : request) (s : state) : state * response :=
  match stripPrefix api (URL req) with
  | None => (s, notFound)
  | Some rest =>
    match splitOn "?" rest with
    | path :: query =>
      match Method req, splitOn "/" path, readOffset query with
      | GET, [""; "me"], Some _ => (s, ok (Obj [("id", Str (user s))]))
      | GET, [""; "me"; "playlists"], Some off =>
        (s, ok (page (pageSize s) (api +:+ "/me/playlists") playlistItem
                     (playlists s) off))
      | GET, [""; "me"; "tracks"], Some off =>
        (s, ok (page (pageSize s) (api +:+ "/me/tracks") savedItem
                     (library s) off))
      | GET, [""; "playlists"; id], Some _ =>
        match findPlaylist id s with
        | Some p => (s, ok (fullPlaylist (pageSize s) p))
        | None => (s, notFound)
        end
      | GET, [""; "playlists"; id; "tracks"], Some off =>
        match findPlaylist id s with
        | Some p =>
          (s, ok (page (pageSize s) (api +:+ "/playlists/" +:+ id +:+ "/tracks")
                       trackItem (ptracks p) off))
        | None => (s, notFound)
        end
      | POST, [""; "users"; u; "playlists"], Some _ =>
        match as_string (member "name" (ReqBody req)) with
        | Some name =>
          if String.eqb u (user s) then
            let p := mkPlaylist ("pl" +:+ decimal (length (playlists s))) name [] in
            (mkState (user s) (playlists s ++ [p]) (library s) (pageSize s),
             created (fullPlaylist (pageSize s) p))
          else (s, notFound)
        | None => (s, mkResponse 400 (Some (Obj [("error", Obj [("status", Number 400)])])))
        end
      | POST, [""; "playlists"; id; "tracks"], Some _ =>
        match findPlaylist id s, stringsOf (member "uris" (ReqBody req)) with
        | Some _, Some us =>
          (mkState (user s)
             (map (fun p => if String.eqb (pid p) id
                            then mkPlaylist (pid p) (pname p) (ptracks p ++ us)
                            else p) (playlists s))
             (library s) (pageSize s),
           created (Obj [("snapshot_id", Str "snapshot")]))
        | _, _ => (s, notFound)
        end
      | _, _, _ => (s, notFound)
      end
    | [] => (s, notFound)
    end
  end.

#[global] Instance transport : Transport state :=
  fun req s => let '(s', r) := serve req s in (s', Some r).

End Service.

(** The order in which [map_to_list] lists the entries: one of the orders
    in which the run time may range over a map. *)
Definition anyOrder (m : gmap string (list string)) : list (string * list string) :=
  map_to_list m.

(** ** Deleting playlists by name (lines 326-366 of main.go)

    [regexp] is a library: [Compile] stands for [regexp.Compile] followed by
    [MatchString], and gives the error of a pattern that does not compile. *)

Class Regexp : Type :=
  Compile : string -> error + (string -> bool).

Section Delete.
Context {C : Type} `{!Transport C}.

(** Lines 341-363: the loop over the fetched playlists.  A name or an id
    that is not a string is only logged, and is the empty string from then
    on. *)
Fixpoint delete_matching (matches : string -> bool) (playlists : list value)
  : M (sys C) unit :=
  match playlists with
  | [] => ret tt
  | playlist :: rest =>
    let! plMap := orFatalf "playlist" (as_map (Some playlist)) in
    let playlistName := default "" (as_string (plMap !! "name")) in
    if matches playlistName then
      let playlistId := default "" (as_string (plMap !! "id")) in
      do! DeletePlaylist playlistId in
      delete_matching matches rest
    else delete_matching matches rest
  end.

(** DeletePlaylistsByNameFormat *)
Definition DeletePlaylistsByNameFormat `{!Regexp} (regexPattern : string)
    (fuel : nat) : M (sys C) unit :=
  let! playlists := EnumerateCurrentUsersPlaylists fuel in
  match Compile regexPattern with
  | inl err => stop (Err err)
  | inr matches => delete_matching matches playlists
  end.

End Delete.

(** ** Vocabulary of the statements *)

Module calendar.
Import time.

(** Checking a property of the integers of a range one by one. *)
Definition range (lo : Z) (n : nat) : list Z :=
  map (fun i => lo + Z.of_nat i) (seq 0 n).

(** The day of the year of day [D] of month [M]. *)
Definition yday (leap : bool) (M D : Z) : Z :=
  daysBefore (M - 1) + (if leap && (3 <=? M) then 1 else 0) + (D - 1).

Definition monthLength (leap : bool) (M : Z) : Z :=
  if (M =? 2) && leap then 29 else daysBefore M - daysBefore (M - 1).

Definition month_ok (leap : bool) (M D : Z) : bool :=
  implb (D <=? monthLength leap M)
    (match monthDay leap (yday leap M D) with
     | (M', D') => (M' =? M) && (D' =? D)
     end
     && (0 <=? yday leap M D)
     && (yday leap M D <? (if leap then 366 else 365))).

End calendar.

(** The URI of a playlist item, read the way lines 567-580 read it. *)
Definition item_uri (item : value) : option string :=
  itemMap ← as_map (Some item);
  trackMap ← as_map (itemMap !! "track");
  as_string (trackMap !! "uri").

(** The comparison of line 520 for one fetched playlist. *)
Definition has_name (label : string) (playlist : value) : bool :=
  match as_map (Some playlist) with
  | Some plMap => String.eqb (default "" (as_string (plMap !! "name"))) label
  | None => false
  end.

Definition playlist_id (playlist : value) : option string :=
  plMap ← as_map (Some playlist); as_string (plMap !! "id").

(** A request that asks for a playlist named [label] to be created. *)
Definition creates (label : string) (r : request) : bool :=
  match Method r, ReqBody r with
  | POST, Some (Obj kvs) =>
    match as_string (store_members ∅ kvs !! "name") with
    | Some n => String.eqb n label
    | None => false
    end
  | _, _ => false
  end.

(** A request that appends tracks to some playlist. *)
Definition appends (r : request) : bool :=
  match Method r, ReqBody r with
  | POST, Some (Obj kvs) =>
    match store_members ∅ kvs !! "uris" with
    | Some _ => true
    | None => false
    end
  | _, _ => false
  end.

(** A transport that answers from a fixed table of URLs and never changes;
    a URL that is not in the table is a transport error. *)
Record canned : Type := mkCanned { answers : list (string * response) }.

#[export] Instance cannedTransport : Transport canned :=
  fun req c =>
    (c, snd <$> List.find (fun e => String.eqb (fst e) (URL req)) (answers c)).

(** The label and the URI of a saved track, read the way lines 478-499
    read them. *)
Definition saved_label_uri (track : value) : option (string * string) :=
  trackMap ← as_map (Some track);
  addedAt ← as_string (trackMap !! "added_at");
  inner ← as_map (trackMap !! "track");
  name ← targetPlaylistName addedAt;
  uri ← as_string (inner !! "uri");
  Some (name, uri).

(** The label as a timestamp spells it: the month of its sixth and
    seventh characters by name, and its third and fourth characters, the
    last two digits of the year.  The time of day and the offset play no
    part. *)
Definition written_label (addedAt : string) : string :=
  time.longMonthName
    (default 0 (fst <$> time.number 2 0 (substring 5 2 addedAt)))
  +:+ " '" +:+ substring 2 2 addedAt.

(** Lines 500-503: one more URI at the end of a month's sequence. *)
Definition add_to_month (tracksByMonth : gmap string (list string))
    (lu : string * string) : gmap string (list string) :=
  <[lu.1 := default [] (tracksByMonth !! lu.1) ++ [lu.2]]> tracksByMonth.

(** An outcome other than a normal return. *)
Definition aborted {A} (o : outcome A) : Prop :=
  match o with Ret _ => False | _ => True end.

(** How the label [label] stands after some turns of the loop over the
    saved tracks: [playlistMap] is the cache of resolved ids and [issued]
    the requests sent so far. *)
Definition resolved (id : string) (playlists : list value) (label : string)
    (playlistMap : gmap string string) (issued : list request) : Prop :=
  match playlistMap !! label with
  | None => List.filter (creates label) issued = []
  | Some pid =>
    match List.find (has_name label) playlists with
    | Some p => playlist_id p = Some pid /\ List.filter (creates label) issued = []
    | None => List.filter (creates label) issued = [createRequest id label true false ""]
    end
  end.

(** The same for a run that may have stopped early. *)
Definition at_most_created (id : string) (playlists : list value) (label : string)
    (issued : list request) : Prop :=
  match List.find (has_name label) playlists with
  | Some p => List.filter (creates label) issued = []
  | None => List.filter (creates label) issued = []
            \/ List.filter (creates label) issued = [createRequest id label true false ""]
  end.

(** The state of the copy loop of lines 468-471 after [k] turns: the [k]
    outermost positions at either end hold the mirrored elements of
    [tracks], the positions in between still hold nil. *)
Definition mirrored (tracks : list value) (k : nat) (r : list value) : Prop :=
  length r = length tracks /\
  forall p, (p < length tracks)%nat ->
    r !! p = if ((p <? k) || (length tracks - 1 - k <? p))%nat
             then tracks !! (length tracks - 1 - p)%nat else Some Null.

(** A list endpoint that serves the pages [pages] from [url] on: every
    response carries its items and a [next] link, which is [null] on the
    last page.  [reqs] are the requests that fetch the pages. *)
Inductive serves {C : Type} `{!Transport C}
  : C -> string -> list (list value) -> list request -> C -> Prop :=
| serves_last c url resp kvs items c' :
    Do (getRequest url) c = (c', Some resp) ->
    Body resp = Some (Obj kvs) ->
    store_members ∅ kvs !! "items" = Some (Arr items) ->
    store_members ∅ kvs !! "next" = Some Null ->
    serves c url [items] [getRequest url] c'
| serves_more c url resp kvs items url' c' rest reqs c'' :
    Do (getRequest url) c = (c', Some resp) ->
    Body resp = Some (Obj kvs) ->
    store_members ∅ kvs !! "items" = Some (Arr items) ->
    store_members ∅ kvs !! "next" = Some (Str url') ->
    serves c' url' rest reqs c'' ->
    serves c url (items :: rest) (getRequest url :: reqs) c''.

(** The URIs that the tracks labelled [label] contribute, in the order of
    the tracks. *)
Definition month_uris (label : string) (lus : list (string * string))
  : list string :=
  (filter (fun lu => lu.1 = label) lus).*2.

(** The requests that a run of [sync] for the user [id] can send. *)
Inductive run_request (id : string) : request -> Prop :=
| run_get url : run_request id (getRequest url)
| run_create label : run_request id (createRequest id label true false "")
| run_append playlistId uris :
    uris <> [] -> run_request id (appendRequest playlistId uris).

(** The ids that [delete_matching] is to delete, in the order of the
    fetched playlists, up to the first element that is not an object. *)
Fixpoint doomed (matches : string -> bool) (playlists : list value)
  : list string :=
  match playlists with
  | [] => []
  | playlist :: rest =>
    match as_map (Some playlist) with
    | None => []
    | Some plMap =>
      if matches (default "" (as_string (plMap !! "name")))
      then default "" (as_string (plMap !! "id")) :: doomed matches rest
      else doomed matches rest
    end
  end.

(** ** Sample inputs *)

Module samples.
Import Service.

Definition january_track : value :=
  Obj [("added_at", Str "2024-01-15T10:00:00Z"); ("track", Obj [("uri", Str "A")])].

Definition february_track : value :=
  Obj [("added_at", Str "2024-02-01T00:00:00Z"); ("track", Obj [("uri", Str "B")])].

(** Three tracks saved in April 2024, oldest first. *)
Definition april_tracks : list value :=
  map savedItem [mkSaved "2024-04-02T08:00:00Z" "spotify:track:1";
                 mkSaved "2024-04-09T21:15:00+02:00" "spotify:track:2";
                 mkSaved "2024-04-30T23:59:59Z" "spotify:track:3"].

(** A user without playlists. *)
Definition fresh_user : state := mkState "u1" [] [] 2.

(** The playlists of January and February 2024 as they are fetched. *)
Definition winter_playlists : list value :=
  map playlistItem [mkPlaylist "p1" "January '24" [];
                    mkPlaylist "p2" "February '24" []].

(** A track saved on an April evening in a zone two hours east. *)
Definition april_evening_track : value :=
  Obj [("added_at", Str "2024-04-09T21:15:00+02:00");
       ("track", Obj [("uri", Str "Y")])].

(** A user whose playlist of January 2024 holds three tracks, served two
    to a page. *)
Definition overlong_january : state :=
  mkState "u1" [mkPlaylist "p1" "January '24" ["A"; "B"; "C"]] [] 2.

(** A playlist whose items do not fit on the page that comes with it:
    [A] and [B] are on the first page, the [next] link leads to the rest. *)
Definition long_playlist : response :=
  mkResponse 200
    (Some (Obj [("id", Str "p1"); ("name", Str "January '24");
                ("tracks",
                 Obj [("items", Arr [trackItem "A"; trackItem "B"]);
                      ("next", Str (api +:+ "/playlists/p1/tracks?offset=2"))])])).

Definition long_playlist_client : canned :=
  mkCanned [(api +:+ "/playlists/p1", long_playlist);
            (api +:+ "/playlists/p1/tracks",
             mkResponse 201 (Some (Obj [("snapshot_id", Str "x")])))].

(** A list in two pages whose second page has no [next] member. *)
Definition broken_list_client : canned :=
  mkCanned
    [("https://list/1",
      mkResponse 200 (Some (Obj [("items", Arr [Str "a"]);
                                 ("next", Str "https://list/2")])));
     ("https://list/2",
      mkResponse 200 (Some (Obj [("items", Arr [Str "b"])])))].

(** A list in two pages behind a rate limit: the first request for the
    second page is answered with status 429 and an error body, the next one
    with the page. *)
Record throttled : Type := mkThrottled { refused : bool }.

#[global] Instance throttledTransport : Transport throttled :=
  fun req c =>
    if String.eqb (URL req) "https://list/1" then
      (c, Some (mkResponse 200 (Some (Obj [("items", Arr [Str "a"]);
                                           ("next", Str "https://list/2")]))))
    else if String.eqb (URL req) "https://list/2" then
      if refused c then
        (c, Some (mkResponse 200 (Some (Obj [("items", Arr [Str "b"]);
                                             ("next", Null)]))))
      else
        (mkThrottled true,
         Some (mkResponse 429 (Some (Obj [("error",
                 Obj [("status", Number 429);
                      ("message", Str "API rate limit exceeded")])]))))
    else (c, None).

(** A list whose only page has no [next] member. *)
Definition headless_list_client : canned :=
  mkCanned
    [("https://list/1", mkResponse 200 (Some (Obj [("items", Arr [Str "a"])])))].

(** Three playlists, served two to a page. *)
Definition three_playlists : state :=
  mkState "u1"
    [mkPlaylist "pl0" "January '24" []; mkPlaylist "pl1" "February '24" [];
     mkPlaylist "pl2" "March '24" []]
    [] 2.

(** A library of one saved track. *)
Definition one_track_user : state :=
  mkState "u1" [] [mkSaved "2024-01-15T10:00:00Z" "A"] 50.

(** A service that answers every mutating request with status 500. *)
Definition failing_client : canned :=
  let failure :=
    mkResponse 500 (Some (Obj [("error", Obj [("status", Number 500);
                                            ("message", Str "Server error")])])) in
  mkCanned [(URL (appendRequest "p1" ["A"]), failure);
            (URL (createRequest "u1" "March '24" true false ""), failure);
            (URL (deleteRequest "p1"), failure)].

(** Four tracks saved in January 2024 and a January playlist that holds
    the two oldest already; pages are two items long. *)
Definition january_user : state :=
  mkState "u1"
    [mkPlaylist "pl0" "January '24" ["A"; "B"]]
    [mkSaved "2024-01-18T09:00:00Z" "D"; mkSaved "2024-01-17T09:00:00Z" "C";
     mkSaved "2024-01-16T09:00:00Z" "B"; mkSaved "2024-01-15T09:00:00Z" "A"]
    2.

Definition first_run : sys state * outcome unit :=
  sync anyOrder 10 (mkSys january_user []).

(** The second run starts from the service as the first run left it. *)
Definition second_run : sys state * outcome unit :=
  sync anyOrder 10 (mkSys (client first_run.1) []).

(** A world with a clock: every request takes a minute, the token
    endpoint mints a token that is good for an hour. *)
Record world : Type := mkWorld {
  clock : Z;
  service : state;
  minted : nat
}.

#[global] Instance worldHost : Host world := {|
  now := clock;
  roundTrip := fun req w =>
    let '(s', r) := serve req (service w) in
    (mkWorld (clock w + 60) s' (minted w), Some r);
  retrieveToken := fun refreshToken w =>
    (mkWorld (clock w) (service w) (S (minted w)),
     Some (mkToken ("access-" +:+ decimal (S (minted w))) refreshToken
                   (Some (clock w + 3600))));
  Exchange := fun code w =>
    (mkWorld (clock w) (service w) (S (minted w)),
     Some (mkToken ("access-" +:+ decimal (S (minted w))) "refresh"
                   (Some (clock w + 3600))));
  Scan := fun w => (w, Some "code");
  writeFault := fun _ => None
|}.

(** The token on file is good for another hundred seconds. *)
Definition expiring : process world :=
  mkProcess (Some (mkToken "access-0" "refresh" (Some 100)))
            (mkWorld 0 (mkState "u1" [] [mkSaved "2024-02-01T00:00:00Z" "B";
                                         mkSaved "2024-01-15T10:00:00Z" "A"] 50)
                     0).

(** The loop over the three April tracks for that user. *)
Definition april_run
  : sys state * outcome (gmap string string * gmap string (list string)) :=
  bucket_loop "u1" [] april_tracks (∅, ∅) (mkSys fresh_user []).

(** A saved track whose [track] member is null. *)
Definition trackless : value :=
  Obj [("added_at", Str "2024-03-05T12:00:00Z"); ("track", Null)].

(** A track saved in March 2024. *)
Definition march_track : value :=
  Obj [("added_at", Str "2024-03-05T12:00:00Z");
       ("track", Obj [("uri", Str "M")])].

(** A playlist one of whose items has no track any more. *)
Definition gappy_playlist_client : canned :=
  mkCanned
    [(api +:+ "/playlists/p1",
      mkResponse 200
        (Some (Obj [("tracks",
                     Obj [("items", Arr [trackItem "A";
                                         Obj [("track", Null)];
                                         trackItem "B"]);
                          ("next", Null)])])))].

(** Playlists that can be deleted, and one that cannot. *)
Definition deletable_client : canned :=
  mkCanned [(URL (deleteRequest "pl0"), mkResponse 200 None);
            (URL (deleteRequest "pl1"), mkResponse 403 None);
            (URL (deleteRequest "pl2"), mkResponse 200 None)].

Definition fetched_playlists : list value :=
  map playlistItem (playlists three_playlists).

(** A pattern language of one pattern: ["^J"] matches the names that start
    with J, nothing else compiles. *)
Definition startsWithJ : Regexp :=
  fun pattern =>
    if String.eqb pattern "^J" then inr (String.prefix "J") else inl ParseError.

(** The three playlists on one page, with the answers to their
    deletion. *)
Definition cleanup_client : canned :=
  mkCanned ((api +:+ "/me/playlists",
             mkResponse 200 (Some (Obj [("items", Arr fetched_playlists);
                                        ("next", Null)])))
            :: answers deletable_client).

(** The same world with a token file that cannot be created. *)
Record readonly : Type := mkReadonly { writable : world }.

#[global] Instance readonlyHost : Host readonly := {|
  now := fun w => clock (writable w);
  roundTrip := fun req w =>
    let '(w', r) := roundTrip req (writable w) in (mkReadonly w', r);
  retrieveToken := fun refreshToken w =>
    let '(w', t) := retrieveToken refreshToken (writable w) in (mkReadonly w', t);
  Exchange := fun code w =>
    let '(w', t) := Exchange code (writable w) in (mkReadonly w', t);
  Scan := fun w => (w, Some "code");
  writeFault := fun _ => Some CreateFails
|}.

(** A first start: no token file yet. *)
Definition unauthorized : process world :=
  mkProcess None (mkWorld 0 fresh_user 0).

End samples.

(** * Properties *)

(** ** The calendar arithmetic of [time] *)

Module time_facts.
Import time calendar.

Lemma isLeap_spec Y :
  isLeap Y = true <-> (Y mod 4 = 0 /\ (Y mod 100 <> 0 \/ Y mod 400 = 0)).
Proof.
  unfold isLeap. rewrite andb_true_iff, orb_true_iff, negb_true_iff.
  rewrite !Z.eqb_eq, Z.eqb_neq.
  rewrite !Z.rem_divide, !Z.mod_divide by lia. tauto.
Qed.

Lemma div_cut k q r : 0 <= r < k -> (k * q + r) / k = q.
Proof. intros H. symmetry. apply (Z.div_unique _ _ _ r); lia. Qed.

(** A year, split along the cycles of the calendar. *)
Lemma year_split Y :
  exists a b c e,
    Y - absoluteZeroYear = 400 * a + 100 * b + 4 * c + e /\
    0 <= b < 4 /\ 0 <= c < 25 /\ 0 <= e < 4 /\
    daysSinceEpoch Y = 146097 * a + 36524 * b + 1461 * c + 365 * e.
Proof.
  unfold daysSinceEpoch. cbv zeta.
  set (y0 := Y - absoluteZeroYear).
  set (a := y0 / 400).
  assert (Ha : 0 <= y0 - 400 * a < 400)
    by (subst a; Z.to_euclidean_division_equations; lia).
  set (r := y0 - 400 * a) in *.
  set (b := r / 100).
  assert (Hb : 0 <= b < 4 /\ 0 <= r - 100 * b < 100)
    by (subst b; Z.to_euclidean_division_equations; lia).
  set (r2 := r - 100 * b) in *.
  set (c := r2 / 4).
  assert (Hc : 0 <= c < 25 /\ 0 <= r2 - 4 * c < 4)
    by (subst c; Z.to_euclidean_division_equations; lia).
  exists a, b, c, (r2 - 4 * c).
  unfold daysPer400Years, daysPer100Years, daysPer4Years.
  repeat split; try lia.
Qed.

Lemma isLeap_split Y a b c e :
  Y - absoluteZeroYear = 400 * a + 100 * b + 4 * c + e ->
  0 <= b < 4 -> 0 <= c < 25 -> 0 <= e < 4 ->
  isLeap Y = true <-> (e = 3 /\ (c <> 24 \/ b = 3)).
Proof.
  unfold absoluteZeroYear. intros HY Hb Hc He. rewrite isLeap_spec.
  assert (H4 : Y mod 4 = (e + 1) mod 4).
  { replace Y with (e + 1 + (100 * a + 25 * b + c - 73069255600) * 4) by lia.
    apply Z.mod_add. lia. }
  assert (H100 : Y mod 100 = (4 * c + e + 1) mod 100).
  { replace Y with (4 * c + e + 1 + (4 * a + b - 2922770224) * 100) by lia.
    apply Z.mod_add. lia. }
  assert (H400 : Y mod 400 = (100 * b + 4 * c + e + 1) mod 400).
  { replace Y with (100 * b + 4 * c + e + 1 + (a - 730692556) * 400) by lia.
    apply Z.mod_add. lia. }
  rewrite H4, H100, H400. clear H4 H100 H400 HY.
  Z.to_euclidean_division_equations. lia.
Qed.

(** [absYear] undoes [daysSinceEpoch]. *)
Lemma absYear_days Y yd sod :
  0 <= yd < (if isLeap Y then 366 else 365) ->
  0 <= sod < secondsPerDay ->
  absYear ((daysSinceEpoch Y + yd) * secondsPerDay + sod) = (Y, yd).
Proof.
  intros H Hsod.
  destruct (year_split Y) as (a & b & c & e & HY & Hb & Hc & He & HD).
  pose proof (isLeap_split Y a b c e HY Hb Hc He) as HL.
  assert (Hyd : 0 <= yd < 366 /\ (yd = 365 -> e = 3 /\ (c <> 24 \/ b = 3))).
  { destruct (isLeap Y); [split; [lia | intros _; apply HL; reflexivity] | lia]. }
  clear H HL. rewrite HD. clear HD.
  unfold absYear. cbv zeta.
  replace ((146097 * a + 36524 * b + 1461 * c + 365 * e + yd) * secondsPerDay + sod)
    with (secondsPerDay * (146097 * a + 36524 * b + 1461 * c + 365 * e + yd) + sod)
    by lia.
  rewrite div_cut by lia.
  unfold daysPer400Years, daysPer100Years, daysPer4Years.
  change (365 * 400 + 97) with 146097. change (365 * 100 + 24) with 36524.
  change (365 * 4 + 1) with 1461.
  rewrite !Z.shiftr_div_pow2 by lia. change (2 ^ 2) with 4.
  replace (146097 * a + 36524 * b + 1461 * c + 365 * e + yd)
    with (146097 * a + (36524 * b + 1461 * c + 365 * e + yd)) by lia.
  rewrite div_cut by lia.
  replace (146097 * a + (36524 * b + 1461 * c + 365 * e + yd) - 146097 * a)
    with (36524 * b + 1461 * c + 365 * e + yd) by lia.
  set (d1 := 36524 * b + 1461 * c + 365 * e + yd).
  assert (Hn2 : d1 / 36524 - d1 / 36524 / 4 = b).
  { subst d1. Z.to_euclidean_division_equations. lia. }
  rewrite Hn2.
  replace (d1 - 36524 * b) with (1461 * c + (365 * e + yd)) by (subst d1; lia).
  rewrite div_cut by lia.
  replace (1461 * c + (365 * e + yd) - 1461 * c) with (365 * e + yd) by lia.
  assert (Hn4 : (365 * e + yd) / 365 - (365 * e + yd) / 365 / 4 = e).
  { Z.to_euclidean_division_equations. lia. }
  rewrite Hn4. f_equal; lia.
Qed.

Lemma forallb_range (P : Z -> bool) lo n :
  forallb P (range lo n) = true ->
  forall z, lo <= z < lo + Z.of_nat n -> P z = true.
Proof.
  intros H z Hz. rewrite forallb_forall in H. apply H.
  unfold range. apply in_map_iff. exists (Z.to_nat (z - lo)). split; [lia|].
  apply in_seq. lia.
Qed.

Lemma months_checked leap :
  forallb (fun M => forallb (month_ok leap M) (range 1 31)) (range 1 12) = true.
Proof. destruct leap; vm_compute; reflexivity. Qed.

Lemma monthDay_yday leap M D :
  1 <= M <= 12 -> 1 <= D <= monthLength leap M ->
  monthDay leap (yday leap M D) = (M, D) /\
  0 <= yday leap M D < (if leap then 366 else 365).
Proof.
  intros HM HD.
  assert (HD31 : D <= 31).
  { assert (Hml : forall l m, 1 <= m <= 12 -> monthLength l m <= 31).
    { intros l m Hm.
      assert (Hb : forallb (fun m => monthLength l m <=? 31) (range 1 12) = true)
        by (destruct l; vm_compute; reflexivity).
      apply Z.leb_le. apply (forallb_range _ _ _ Hb). lia. }
    specialize (Hml leap M HM). lia. }
  pose proof (forallb_range _ _ _ (months_checked leap) M ltac:(lia)) as Hm.
  cbv beta in Hm.
  pose proof (forallb_range _ _ _ Hm D ltac:(lia)) as Hd.
  unfold month_ok in Hd.
  assert (Hle : (D <=? monthLength leap M) = true) by (apply Z.leb_le; lia).
  rewrite Hle in Hd. simpl in Hd.
  destruct (monthDay leap (yday leap M D)) as [M' D'].
  rewrite !andb_true_iff in Hd. destruct Hd as [[[H1 H2] H3] H4].
  apply Z.eqb_eq in H1, H2. apply Z.leb_le in H3. apply Z.ltb_lt in H4.
  subst. split; [reflexivity | lia].
Qed.

Lemma epochs_cancel :
  absoluteToInternal + internalToUnix + (unixToInternal + internalToAbsolute) = 0.
Proof. reflexivity. Qed.

(** The civil date of a parsed instant, read in its own location, is the
    date that was written. *)
Lemma absDate_Date Y Mo D h mi s off :
  1 <= Mo <= 12 -> 1 <= D <= daysIn Mo Y ->
  0 <= h < 24 -> 0 <= mi < 60 -> 0 <= s < 60 ->
  absDate (abs (mkTime (Date Y Mo D h mi s - off) off)) = (Y, Mo, D).
Proof.
  intros HM HD Hh Hmi Hs.
  assert (HD' : 1 <= D <= monthLength (isLeap Y) Mo) by exact HD.
  destruct (monthDay_yday (isLeap Y) Mo D HM HD') as [Hmd Hyd].
  unfold abs, Date. cbv zeta. simpl unixSec. simpl zoneOffset.
  pose proof epochs_cancel as Hz.
  set (sod := h * secondsPerHour + mi * secondsPerMinute + s).
  assert (Hsod : 0 <= sod < secondsPerDay).
  { subst sod. unfold secondsPerDay, secondsPerHour, secondsPerMinute. lia. }
  match goal with
  | |- absDate ?x = _ =>
    replace x with ((daysSinceEpoch Y + yday (isLeap Y) Mo D) * secondsPerDay + sod)
  end.
  - unfold absDate. rewrite absYear_days by assumption.
    rewrite Hmd. reflexivity.
  - unfold yday. destruct (isLeap Y && (3 <=? Mo)); lia.
Qed.

End time_facts.

(** ** Month labels *)

Section MonthLabel.
Import time calendar time_facts.

Lemma digit_bound c d : digit c = Some d -> 0 <= d <= 9.
Proof.
  unfold digit. intros H.
  destruct ((48 <=? Z.of_N (N_of_ascii c)) && (Z.of_N (N_of_ascii c) <=? 57)) eqn:E;
    [|discriminate].
  apply andb_true_iff in E. destruct E as [E1 E2].
  apply Z.leb_le in E1, E2. inversion H. lia.
Qed.

Lemma number_bound k : forall acc s v r,
  number k acc s = Some (v, r) -> 0 <= acc ->
  acc * 10 ^ Z.of_nat k <= v < (acc + 1) * 10 ^ Z.of_nat k.
Proof.
  induction k as [|k IH]; intros acc s v r H Hacc.
  - simpl in H. inversion H. subst. simpl. lia.
  - simpl in H. destruct s as [|c s']; [discriminate|].
    destruct (digit c) as [d|] eqn:Ed; [|discriminate]. simpl in H.
    apply digit_bound in Ed. apply IH in H; [|lia].
    rewrite Nat2Z.inj_succ, Z.pow_succ_r by lia. nia.
Qed.

Ltac read_step H :=
  match type of H with
  | (if ?b then None else _) = Some _ =>
    destruct b eqn:?; [discriminate|]
  | (if ?b then Some _ else None) = Some _ =>
    destruct b eqn:?; [|discriminate]
  | mbind _ ?m = Some _ =>
    destruct m as [[? ?]|] eqn:?; cbn [mbind option_bind] in H; [|discriminate]
  | mbind _ ?m = Some _ =>
    destruct m eqn:?; cbn [mbind option_bind] in H; [|discriminate]
  | match ?s with EmptyString => _ | String _ _ => None end = Some _ =>
    destruct s; [|discriminate]
  end.

Lemma getnum_bound s fixed v r : getnum s fixed = Some (v, r) -> 0 <= v < 100.
Proof.
  unfold getnum. destruct s as [|c0 s]; [discriminate|].
  destruct (digit c0) as [d0|] eqn:E0; [|discriminate]. cbn [mbind option_bind].
  apply digit_bound in E0.
  destruct s as [|c1 s].
  - destruct fixed; [discriminate|]. intros H. inversion H. lia.
  - destruct (digit c1) as [d1|] eqn:E1.
    + apply digit_bound in E1. intros H. inversion H. lia.
    + destruct fixed; [discriminate|]. intros H. inversion H. lia.
Qed.

Lemma getnum_fixed s v r :
  getnum s true = Some (v, r) ->
  exists c0 c1 d0 d1,
    s = String c0 (String c1 r) /\ digit c0 = Some d0 /\ digit c1 = Some d1
    /\ v = 10 * d0 + d1.
Proof.
  unfold getnum. destruct s as [|c0 s]; [discriminate|].
  destruct (digit c0) as [d0|] eqn:E0; [|discriminate]. cbn [mbind option_bind].
  destruct s as [|c1 s]; [discriminate|].
  destruct (digit c1) as [d1|] eqn:E1; [|discriminate].
  intros H. inversion H; subst. eauto 10.
Qed.

Lemma number_2 s v r :
  number 2 0 s = Some (v, r) ->
  exists c0 c1 d0 d1,
    s = String c0 (String c1 r) /\ digit c0 = Some d0 /\ digit c1 = Some d1
    /\ v = 10 * d0 + d1.
Proof.
  cbn [number]. destruct s as [|c0 s]; [discriminate|].
  destruct (digit c0) as [d0|] eqn:E0; [|discriminate]. cbn [mbind option_bind].
  destruct s as [|c1 s]; [discriminate|].
  destruct (digit c1) as [d1|] eqn:E1; [|discriminate]. cbn [mbind option_bind].
  intros H. inversion H; subst. exists c0, c1, d0, d1.
  repeat split; try assumption; try lia.
Qed.

Lemma number_4 s v r :
  number 4 0 s = Some (v, r) ->
  exists c0 c1 c2 c3 d0 d1 d2 d3,
    s = String c0 (String c1 (String c2 (String c3 r)))
    /\ digit c0 = Some d0 /\ digit c1 = Some d1
    /\ digit c2 = Some d2 /\ digit c3 = Some d3
    /\ v = 1000 * d0 + 100 * d1 + 10 * d2 + d3.
Proof.
  cbn [number]. destruct s as [|c0 s]; [discriminate|].
  destruct (digit c0) as [d0|] eqn:E0; [|discriminate]. cbn [mbind option_bind].
  destruct s as [|c1 s]; [discriminate|].
  destruct (digit c1) as [d1|] eqn:E1; [|discriminate]. cbn [mbind option_bind].
  destruct s as [|c2 s]; [discriminate|].
  destruct (digit c2) as [d2|] eqn:E2; [|discriminate]. cbn [mbind option_bind].
  destruct s as [|c3 s]; [discriminate|].
  destruct (digit c3) as [d3|] eqn:E3; [|discriminate]. cbn [mbind option_bind].
  intros H. inversion H; subst. exists c0, c1, c2, c3, d0, d1, d2, d3.
  repeat split; try assumption; try lia.
Qed.

Lemma lit_inv c s r : lit c s = Some r -> s = String c r.
Proof.
  destruct s as [|a s]; [discriminate|]. cbn [lit].
  destruct (Ascii.eqb_spec a c) as [->|]; [|discriminate].
  intros H. inversion H. reflexivity.
Qed.

Lemma digitChar_digit c d : digit c = Some d -> digitChar d = c.
Proof.
  destruct c as [[] [] [] [] [] [] [] []]; vm_compute;
    intros H; try discriminate H; injection H as <-; reflexivity.
Qed.

Lemma parseRFC3339_range s f :
  parseRFC3339 s = Some f ->
  0 <= year f < 10000 /\ 1 <= month f <= 12 /\
  1 <= day f <= daysIn (month f) (year f) /\
  0 <= hour f < 24 /\ 0 <= minute f < 60 /\ 0 <= second f < 60.
Proof.
  unfold parseRFC3339. intros H. repeat read_step H.
  inversion H; subst; clear H. simpl.
  repeat match goal with
  | E : _ && _ = true |- _ => apply andb_true_iff in E; destruct E
  | E : (_ <=? _) = true |- _ => apply Z.leb_le in E
  | E : (_ <? _) = true |- _ => apply Z.ltb_lt in E
  | E : number _ 0 _ = Some _ |- _ => apply number_bound in E; [|lia]
  end.
  simpl in *. lia.
Qed.

Lemma parse_range s f :
  parse s = Some f ->
  0 <= year f < 10000 /\ 1 <= month f <= 12 /\
  1 <= day f <= daysIn (month f) (year f) /\
  0 <= hour f < 24 /\ 0 <= minute f < 60 /\ 0 <= second f < 60.
Proof.
  unfold parse. intros H. repeat read_step H.
  inversion H; subst; clear H. simpl.
  repeat match goal with
  | E : _ || _ = false |- _ => apply orb_false_iff in E; destruct E
  | E : (_ <=? _) = false |- _ => apply Z.leb_gt in E
  | E : (_ <? _) = false |- _ => apply Z.ltb_ge in E
  | E : number _ 0 _ = Some _ |- _ => apply number_bound in E; [|lia]
  | E : getnum _ _ = Some _ |- _ => apply getnum_bound in E
  end.
  simpl in *. lia.
Qed.

Lemma civil_range s f :
  civil s = Some f ->
  0 <= year f < 10000 /\ 1 <= month f <= 12 /\
  1 <= day f <= daysIn (month f) (year f) /\
  0 <= hour f < 24 /\ 0 <= minute f < 60 /\ 0 <= second f < 60.
Proof.
  unfold civil. destruct (parseRFC3339 s) as [g|] eqn:E.
  - intros H. inversion H; subst. exact (parseRFC3339_range s f E).
  - apply parse_range.
Qed.

(** Either reader takes the year from the first four characters and the
    month from the two after the hyphen. *)
Lemma reader_head s f y r1 r2 mo r3 :
  number 4 0 s = Some (y, r1) -> lit "-" r1 = Some r2 ->
  (number 2 0 r2 = Some (mo, r3) \/ getnum r2 true = Some (mo, r3)) ->
  year f = y -> month f = mo ->
  exists c0 c1 c2 c3 m0 m1 rest d0 d1 d2 d3 e0 e1,
    s = String c0 (String c1 (String c2 (String c3
          (String "-" (String m0 (String m1 rest))))))
    /\ digit c0 = Some d0 /\ digit c1 = Some d1
    /\ digit c2 = Some d2 /\ digit c3 = Some d3
    /\ digit m0 = Some e0 /\ digit m1 = Some e1
    /\ year f = 1000 * d0 + 100 * d1 + 10 * d2 + d3
    /\ month f = 10 * e0 + e1.
Proof.
  intros Hy Hl Hm Ey Em.
  apply number_4 in Hy.
  destruct Hy as (c0 & c1 & c2 & c3 & d0 & d1 & d2 & d3 & -> & D0 & D1 & D2 & D3 & Hv).
  apply lit_inv in Hl. subst r1.
  assert (Hm' : exists m0 m1 e0 e1,
            r2 = String m0 (String m1 r3) /\ digit m0 = Some e0
            /\ digit m1 = Some e1 /\ mo = 10 * e0 + e1).
  { destruct Hm as [Hm|Hm]; [apply number_2 | apply getnum_fixed]; exact Hm. }
  destruct Hm' as (m0 & m1 & e0 & e1 & -> & E0 & E1 & Hmo).
  exists c0, c1, c2, c3, m0, m1, r3, d0, d1, d2, d3, e0, e1.
  repeat split; try assumption; congruence.
Qed.

Lemma civil_head s f :
  civil s = Some f ->
  exists c0 c1 c2 c3 m0 m1 rest d0 d1 d2 d3 e0 e1,
    s = String c0 (String c1 (String c2 (String c3
          (String "-" (String m0 (String m1 rest))))))
    /\ digit c0 = Some d0 /\ digit c1 = Some d1
    /\ digit c2 = Some d2 /\ digit c3 = Some d3
    /\ digit m0 = Some e0 /\ digit m1 = Some e1
    /\ year f = 1000 * d0 + 100 * d1 + 10 * d2 + d3
    /\ month f = 10 * e0 + e1.
Proof.
  unfold civil. destruct (parseRFC3339 s) as [g|] eqn:E.
  - intros H. inversion H; subst g; clear H. revert E.
    unfold parseRFC3339. intros H. do 3 read_step H.
    match goal with
    | E4 : number 4 0 s = Some _, El : lit "-" _ = Some _,
      E2 : number 2 0 _ = Some _ |- _ =>
      apply (reader_head _ _ _ _ _ _ _ E4 El (or_introl E2))
    end; repeat read_step H; injection H as <-; reflexivity.
  - unfold parse. intros H. do 3 read_step H.
    match goal with
    | E4 : number 4 0 s = Some _, El : lit "-" _ = Some _,
      E2 : getnum _ true = Some _ |- _ =>
      apply (reader_head _ _ _ _ _ _ _ E4 El (or_intror E2))
    end; repeat read_step H; injection H as <-; reflexivity.
Qed.

Lemma targetPlaylistName_fields s f :
  civil s = Some f ->
  targetPlaylistName s
  = Some (longMonthName (month f) +:+ " '" +:+ twoDigits (year f mod 100)).
Proof.
  intros H. pose proof (civil_range s f H) as (Hy & Hm & Hd & Hh & Hmi & Hs).
  unfold targetPlaylistName, Parse. rewrite H. simpl.
  unfold Format_January_06.
  rewrite absDate_Date by assumption.
  rewrite Z.abs_eq by lia. reflexivity.
Qed.

Lemma targetPlaylistName_civil s :
  targetPlaylistName s
  = (fun f => longMonthName (month f) +:+ " '" +:+ twoDigits (year f mod 100))
      <$> civil s.
Proof.
  destruct (civil s) as [f|] eqn:E.
  - rewrite (targetPlaylistName_fields s f E). reflexivity.
  - unfold targetPlaylistName, Parse. rewrite E. reflexivity.
Qed.

Lemma substring_nothing s : substring 0 0 s = EmptyString.
Proof. destruct s; reflexivity. Qed.

Lemma civil_written s f :
  civil s = Some f ->
  longMonthName (month f) +:+ " '" +:+ twoDigits (year f mod 100)
  = written_label s.
Proof.
  intros H. pose proof (civil_head s f H)
    as (c0 & c1 & c2 & c3 & m0 & m1 & rest & d0 & d1 & d2 & d3 & e0 & e1
        & -> & D0 & D1 & D2 & D3 & E0 & E1 & -> & ->).
  unfold written_label.
  cbn [substring]. rewrite !substring_nothing.
  cbn [number]. rewrite E0. cbn [mbind option_bind]. rewrite E1.
  cbn [mbind option_bind fmap option_fmap option_map default fst].
  replace (10 * (10 * 0 + e0) + e1) with (10 * e0 + e1) by lia.
  f_equal. f_equal.
  apply digit_bound in D0 as B0, D1 as B1, D2 as B2, D3 as B3.
  unfold twoDigits.
  replace ((1000 * d0 + 100 * d1 + 10 * d2 + d3) mod 100) with (10 * d2 + d3).
  2:{ apply (Z.mod_unique_pos _ _ (10 * d0 + d1)); lia. }
  replace ((10 * d2 + d3) / 10) with d2
    by (apply (Z.div_unique_pos _ _ _ d3); lia).
  replace ((10 * d2 + d3) mod 10) with d3
    by (apply (Z.mod_unique_pos _ _ d2); lia).
  rewrite (digitChar_digit _ _ D2), (digitChar_digit _ _ D3). reflexivity.
Qed.

End MonthLabel.

(** ** Running the monad *)

Lemma bind_run {S A B} (m : M S A) (k : A -> M S B) s :
  bind m k s =
  match m s with
  | (s', Ret a) => k a s'
  | (s', Err e) => (s', Err e)
  | (s', Fatal e) => (s', Fatal e)
  | (s', Panic) => (s', Panic)
  | (s', Hang) => (s', Hang)
  end.
Proof. reflexivity. Qed.

Lemma bind_ret {S A B} (a : A) (k : A -> M S B) s : bind (ret a) k s = k a s.
Proof. reflexivity. Qed.

Lemma send_run {C} `{!Transport C} (req : request) (s : sys C) :
  send req s =
  (mkSys (Do req (client s)).1 (trace s ++ [req]),
   match (Do req (client s)).2 with
   | Some resp => Ret resp
   | None => Err TransportError
   end).
Proof. unfold send. destruct (Do req (client s)) as [c' [resp|]]; reflexivity. Qed.

Lemma bind_orPanic {S A B} (a : A) (k : A -> M S B) s :
  bind (orPanic (Some a)) k s = k a s.
Proof. reflexivity. Qed.

Lemma bind_orErr {S A B} field (a : A) (k : A -> M S B) s :
  bind (orErr field (Some a)) k s = k a s.
Proof. reflexivity. Qed.

Lemma bind_orFatalf {S A B} field (a : A) (k : A -> M S B) s :
  bind (orFatalf field (Some a)) k s = k a s.
Proof. reflexivity. Qed.

Lemma bind_decode {S B} resp m m' (k : gmap string value -> M S B) s :
  Decode (Body resp) m = Some m' ->
  bind (decode resp m) k s = k m' s.
Proof. intros H. unfold bind, decode. rewrite H. reflexivity. Qed.

Lemma bind_Get {C B} `{!Transport C} url (k : response -> M (sys C) B) s c' resp :
  Do (getRequest url) (client s) = (c', Some resp) ->
  bind (Get url) k s = k resp (mkSys c' (trace s ++ [getRequest url])).
Proof. intros H. unfold Get. rewrite bind_run, send_run, H. reflexivity. Qed.

(** One [bind] further into a computation. *)
Ltac mstep :=
  rewrite bind_run; unfold orFatalf, orPanic, orErr, stop, ret; cbv beta iota.

(** ** Month buckets and playlist resolution (lines 477-544) *)

(** Computes [saved_label_uri] from the equations in the context. *)
Ltac slu :=
  unfold saved_label_uri;
  repeat match goal with
         | E : ?x = _ |- context [mbind _ ?x] =>
           rewrite E; cbn [mbind option_bind]
         end;
  reflexivity.

Section Buckets.
Context {C : Type} `{!Transport C}.

Lemma CreatePlaylist_run userId name public collaborative description (s : sys C) :
  exists c' o,
    CreatePlaylist userId name public collaborative description s
    = (mkSys c' (trace s ++ [createRequest userId name public collaborative description]), o).
Proof.
  unfold CreatePlaylist. rewrite bind_run, send_run.
  destruct (Do _ (client s)) as [c' [resp|]]; simpl; [|eauto].
  unfold decode. destruct (Decode (Body resp) ∅); simpl; eauto.
Qed.

Lemma creates_createRequest userId name public collaborative description label :
  creates label (createRequest userId name public collaborative description)
  = String.eqb name label.
Proof.
  unfold creates, createRequest, store_members. simpl.
  rewrite !lookup_insert_ne by done. rewrite lookup_insert_eq. reflexivity.
Qed.

Lemma lookup_by_name_found playlists label pid :
  lookup_by_name playlists label = Ret (Some pid) ->
  exists p, List.find (has_name label) playlists = Some p
            /\ playlist_id p = Some pid.
Proof.
  induction playlists as [|p rest IH]; cbn [lookup_by_name List.find];
    [discriminate|].
  unfold has_name, playlist_id.
  destruct (as_map (Some p)) as [plMap|] eqn:E; [|discriminate].
  destruct (String.eqb (default "" (as_string (plMap !! "name"))) label) eqn:En.
  - destruct (as_string (plMap !! "id")) as [id|] eqn:Ei; [|discriminate].
    intros H. inversion H; subst. exists p. split; [reflexivity|].
    unfold playlist_id. rewrite E. cbn [mbind option_bind]. exact Ei.
  - exact IH.
Qed.

Lemma lookup_by_name_none playlists label :
  lookup_by_name playlists label = Ret None ->
  List.find (has_name label) playlists = None.
Proof.
  induction playlists as [|p rest IH]; cbn [lookup_by_name List.find];
    [reflexivity|].
  unfold has_name.
  destruct (as_map (Some p)) as [plMap|] eqn:E; [|discriminate].
  destruct (String.eqb (default "" (as_string (plMap !! "name"))) label) eqn:En.
  - destruct (as_string (plMap !! "id")); discriminate.
  - exact IH.
Qed.

Lemma resolved_at_most id playlists label pm issued :
  resolved id playlists label pm issued ->
  at_most_created id playlists label issued.
Proof.
  unfold resolved, at_most_created.
  destruct (pm !! label), (List.find (has_name label) playlists); tauto.
Qed.

(** What one turn of the loop does. *)
Lemma bucket_step_cases id playlists pm tb track (s s' : sys C) o :
  bucket_step id playlists (pm, tb) track s = (s', o) ->
  (saved_label_uri track = None /\ s' = s /\ aborted o) \/
  exists lu, saved_label_uri track = Some lu /\
    ((exists pid, pm !! lu.1 = Some pid /\ s' = s
                  /\ o = Ret (pm, add_to_month tb lu)) \/
     (pm !! lu.1 = None /\
      ((exists pid, lookup_by_name playlists lu.1 = Ret (Some pid) /\ s' = s
                    /\ o = Ret (<[lu.1 := pid]> pm, add_to_month tb lu)) \/
       (aborted (lookup_by_name playlists lu.1) /\ s' = s /\ aborted o) \/
       (lookup_by_name playlists lu.1 = Ret None /\
        trace s' = trace s ++ [createRequest id lu.1 true false ""] /\
        (aborted o \/
         exists pid, o = Ret (<[lu.1 := pid]> pm, add_to_month tb lu)))))).
Proof.
  unfold bucket_step.
  destruct (as_map (Some track)) as [trackMap|] eqn:E1; mstep;
    [|intros H; inversion H; subst; left; simpl; split; [slu|auto]].
  destruct (as_string (trackMap !! "added_at")) as [addedAt|] eqn:E2; mstep;
    [|intros H; inversion H; subst; left; simpl; split; [slu|auto]].
  destruct (as_map (trackMap !! "track")) as [inner|] eqn:E3; mstep;
    [|intros H; inversion H; subst; left; simpl; split; [slu|auto]].
  destruct (targetPlaylistName addedAt) as [name|] eqn:E4; mstep;
    [|intros H; inversion H; subst; left; simpl; split; [slu|auto]].
  destruct (as_string (inner !! "uri")) as [uri|] eqn:E5; mstep;
    [|intros H; inversion H; subst; left; simpl; split; [slu|auto]].
  intros H.
  right. exists (name, uri). split; [slu|]. simpl.
  destruct (pm !! name) as [pid|] eqn:E6.
  { left. exists pid. inversion H; subst. auto. }
  right. split; [reflexivity|].
  revert H. mstep.
  destruct (lookup_by_name playlists name) as [[pid|]|e|e| |] eqn:E7; intros H;
    try (right; left; inversion H; subst; simpl; auto; fail).
  { left. exists pid. inversion H; subst. auto. }
  right. right. split; [reflexivity|].
  revert H. rewrite bind_run. unfold orFatal.
  destruct (CreatePlaylist_run id name true false "" s) as (c' & o' & Hc).
  rewrite Hc.
  destruct o' as [playlist|e|e| |]; intros H;
    try (inversion H; subst; simpl; auto; fail).
  revert H. mstep.
  destruct (as_string (playlist !! "id")) as [pid|]; intros H;
    inversion H; subst; simpl; eauto.
Qed.

Lemma filter_creates_snoc label issued id l :
  List.filter (creates label) (issued ++ [createRequest id l true false ""])
  = List.filter (creates label) issued
    ++ (if String.eqb l label then [createRequest id l true false ""] else []).
Proof.
  rewrite List.filter_app.
  f_equal; cbn [List.filter]; rewrite ?creates_createRequest; reflexivity.
Qed.

Lemma resolved_after_create id playlists pm issued l pid label :
  pm !! l = None ->
  lookup_by_name playlists l = Ret None ->
  resolved id playlists label pm issued ->
  resolved id playlists label (<[l := pid]> pm)
           (issued ++ [createRequest id l true false ""]).
Proof.
  intros Hl Hn Hr. unfold resolved in *. rewrite filter_creates_snoc.
  destruct (String.eqb_spec l label) as [->|Hne].
  - rewrite lookup_insert_eq. rewrite Hl in Hr.
    rewrite (lookup_by_name_none _ _ Hn). rewrite Hr. reflexivity.
  - rewrite lookup_insert_ne by exact Hne. rewrite app_nil_r. exact Hr.
Qed.

Lemma at_most_after_create id playlists pm issued l label :
  pm !! l = None ->
  lookup_by_name playlists l = Ret None ->
  resolved id playlists label pm issued ->
  at_most_created id playlists label
                  (issued ++ [createRequest id l true false ""]).
Proof.
  intros Hl Hn Hr.
  apply (resolved_at_most id playlists label (<[l := l]> pm)).
  apply resolved_after_create; assumption.
Qed.

Lemma resolved_after_search id playlists pm issued l pid label :
  pm !! l = None ->
  lookup_by_name playlists l = Ret (Some pid) ->
  resolved id playlists label pm issued ->
  resolved id playlists label (<[l := pid]> pm) issued.
Proof.
  intros Hl Hf Hr. unfold resolved in *.
  destruct (String.eqb_spec l label) as [->|Hne].
  - rewrite lookup_insert_eq. rewrite Hl in Hr.
    destruct (lookup_by_name_found _ _ _ Hf) as (p & Hp & Hid).
    rewrite Hp. split; assumption.
  - rewrite lookup_insert_ne by exact Hne. exact Hr.
Qed.

Lemma add_to_month_dom tb lu label :
  is_Some (add_to_month tb lu !! label) ->
  label = lu.1 \/ is_Some (tb !! label).
Proof.
  unfold add_to_month. destruct (decide (lu.1 = label)) as [<-|Hne].
  - auto.
  - rewrite lookup_insert_ne by exact Hne. auto.
Qed.

(** The invariant of the loop over the saved tracks. *)
Lemma bucket_loop_invariant id playlists :
  forall tracks pm tb (s s' : sys C) o t0 issued0,
    trace s = t0 ++ issued0 ->
    (forall label, resolved id playlists label pm issued0) ->
    (forall label, is_Some (tb !! label) -> is_Some (pm !! label)) ->
    bucket_loop id playlists tracks (pm, tb) s = (s', o) ->
    exists issued,
      trace s' = t0 ++ issued /\
      (forall label, at_most_created id playlists label issued) /\
      (forall pm' tb', o = Ret (pm', tb') ->
         (forall label, resolved id playlists label pm' issued) /\
         (forall label, is_Some (tb' !! label) -> is_Some (pm' !! label)) /\
         exists lus,
           Forall2 (fun t lu => saved_label_uri t = Some lu) tracks lus /\
           tb' = foldl add_to_month tb lus).
Proof.
  induction tracks as [|track rest IH]; intros pm tb s s' o t0 issued0 Ht Hres Hdom H.
  - cbn [bucket_loop] in H. unfold ret in H. inversion H; subst.
    exists issued0. split; [assumption|]. split.
    + intros label. eapply resolved_at_most. apply Hres.
    + intros pm' tb' Ho. inversion Ho; subst.
      split; [assumption|]. split; [assumption|].
      exists []. split; [constructor | reflexivity].
  - cbn [bucket_loop] in H. rewrite bind_run in H.
    destruct (bucket_step id playlists (pm, tb) track s) as [s1 o1] eqn:Hstep.
    apply bucket_step_cases in Hstep.
    assert (Habort : forall issued1, trace s1 = t0 ++ issued1 ->
              (forall label, at_most_created id playlists label issued1) ->
              aborted o1 ->
              exists issued,
                trace s' = t0 ++ issued /\
                (forall label, at_most_created id playlists label issued) /\
                (forall pm' tb', o = Ret (pm', tb') ->
                   (forall label, resolved id playlists label pm' issued) /\
                   (forall label, is_Some (tb' !! label) -> is_Some (pm' !! label)) /\
                   exists lus,
                     Forall2 (fun t lu => saved_label_uri t = Some lu)
                             (track :: rest) lus /\
                     tb' = foldl add_to_month tb lus)).
    { intros issued1 Ht1 Hat Ha. exists issued1.
      destruct o1; simpl in Ha; try contradiction;
        inversion H; subst; (split; [assumption|]); (split; [assumption|]);
        intros ? ? Ho; discriminate. }
    assert (Hcont : forall pm1 tb1 issued1 lu,
              saved_label_uri track = Some lu ->
              tb1 = add_to_month tb lu ->
              is_Some (pm1 !! lu.1) ->
              (forall label, label <> lu.1 -> is_Some (pm !! label)
                             -> is_Some (pm1 !! label)) ->
              trace s1 = t0 ++ issued1 ->
              (forall label, resolved id playlists label pm1 issued1) ->
              o1 = Ret (pm1, tb1) ->
              exists issued,
                trace s' = t0 ++ issued /\
                (forall label, at_most_created id playlists label issued) /\
                (forall pm' tb', o = Ret (pm', tb') ->
                   (forall label, resolved id playlists label pm' issued) /\
                   (forall label, is_Some (tb' !! label) -> is_Some (pm' !! label)) /\
                   exists lus,
                     Forall2 (fun t lu => saved_label_uri t = Some lu)
                             (track :: rest) lus /\
                     tb' = foldl add_to_month tb lus)).
    { intros pm1 tb1 issued1 lu Hlu Htb Hin Hmono Ht1 Hres1 Ho1. subst o1.
      assert (Hdom1 : forall label, is_Some (tb1 !! label) -> is_Some (pm1 !! label)).
      { intros label Hl. subst tb1. apply add_to_month_dom in Hl.
        destruct Hl as [->|Hl]; [assumption|].
        destruct (decide (label = lu.1)) as [->|Hne]; [assumption|].
        apply Hmono; [assumption|]. apply Hdom. assumption. }
      destruct (IH pm1 tb1 s1 s' o t0 issued1 Ht1 Hres1 Hdom1 H)
        as (issued & Hi & Hat & Hret).
      exists issued. split; [assumption|]. split; [assumption|].
      intros pm' tb' Ho. destruct (Hret pm' tb' Ho) as (R1 & R2 & lus & F & Etb).
      split; [assumption|]. split; [assumption|].
      exists (lu :: lus). split; [constructor; assumption|].
      subst tb1. exact Etb. }
    destruct Hstep as [(Hnone & -> & Ha) | (lu & Hlu & Hcases)].
    { apply (Habort issued0); auto.
      intros label. eapply resolved_at_most. apply Hres. }
    destruct Hcases as [(pid & Hpm & -> & ->) | (Hpm & Hcases)].
    { apply (Hcont pm (add_to_month tb lu) issued0 lu); auto. }
    destruct Hcases as [(pid & Hf & -> & ->) | [(Ha1 & -> & Ha) | (Hn & Ht1 & Hc)]].
    + apply (Hcont (<[lu.1 := pid]> pm) (add_to_month tb lu) issued0 lu); auto.
      * rewrite lookup_insert_eq. eauto.
      * intros label Hne Hs. rewrite lookup_insert_ne by congruence. assumption.
      * intros label. apply resolved_after_search; auto.
    + apply (Habort issued0); auto.
      intros label. eapply resolved_at_most. apply Hres.
    + assert (Ht1' : trace s1 = t0 ++ (issued0 ++ [createRequest id lu.1 true false ""])).
      { rewrite Ht1, Ht. rewrite <- app_assoc. reflexivity. }
      destruct Hc as [Ha | (pid & ->)].
      * apply (Habort _ Ht1'); auto.
        intros label. eapply at_most_after_create; eauto.
      * apply (Hcont (<[lu.1 := pid]> pm) (add_to_month tb lu)
                     (issued0 ++ [createRequest id lu.1 true false ""]) lu);
          auto.
        -- rewrite lookup_insert_eq. eauto.
        -- intros label Hne Hs. rewrite lookup_insert_ne by congruence. assumption.
        -- intros label. apply resolved_after_create; auto.
Qed.

Lemma bucket_loop_start id playlists tracks (s s' : sys C) o :
  bucket_loop id playlists tracks (∅, ∅) s = (s', o) ->
  exists issued,
    trace s' = trace s ++ issued /\
    (forall label, at_most_created id playlists label issued) /\
    (forall pm' tb', o = Ret (pm', tb') ->
       (forall label, resolved id playlists label pm' issued) /\
       (forall label, is_Some (tb' !! label) -> is_Some (pm' !! label)) /\
       exists lus,
         Forall2 (fun t lu => saved_label_uri t = Some lu) tracks lus /\
         tb' = foldl add_to_month ∅ lus).
Proof.
  intros H.
  apply (bucket_loop_invariant id playlists tracks ∅ ∅ s s' o (trace s) []);
    [rewrite app_nil_r; reflexivity | | | exact H].
  - intros label. unfold resolved. rewrite lookup_empty. reflexivity.
  - intros label [x Hx]. rewrite lookup_empty in Hx. discriminate.
Qed.

(** The month buckets after the loop: every track's URI, in the order of
    iteration, at the end of the sequence of its label. *)
Lemma bucket_loop_buckets id playlists tracks (s s' : sys C) pm tb :
  bucket_loop id playlists tracks (∅, ∅) s = (s', Ret (pm, tb)) ->
  exists lus,
    Forall2 (fun t lu => saved_label_uri t = Some lu) tracks lus /\
    tb = foldl add_to_month ∅ lus.
Proof.
  intros H.
  destruct (bucket_loop_start id playlists tracks s s' _ H)
    as (issued & _ & _ & Hret).
  destruct (Hret pm tb eq_refl) as (_ & _ & lus & HF & ->). eauto.
Qed.

(** Playlist resolution in the loop over the saved tracks. *)
Lemma bucket_loop_resolution id playlists reverseTracks (s s' : sys C) o :
  bucket_loop id playlists reverseTracks (∅, ∅) s = (s', o) ->
  exists issued,
    trace s' = trace s ++ issued /\
    forall label,
      (length (List.filter (creates label) issued) <= 1)%nat /\
      (forall p, List.find (has_name label) playlists = Some p ->
                 List.filter (creates label) issued = []) /\
      (forall pm tb, o = Ret (pm, tb) -> is_Some (tb !! label) ->
         match List.find (has_name label) playlists with
         | Some p => is_Some (playlist_id p) /\ pm !! label = playlist_id p
                     /\ List.filter (creates label) issued = []
         | None => is_Some (pm !! label)
                   /\ List.filter (creates label) issued
                      = [createRequest id label true false ""]
         end).
Proof.
  intros H.
  destruct (bucket_loop_start id playlists reverseTracks s s' o H)
    as (issued & Ht & Hat & Hret).
  exists issued. split; [assumption|]. intros label.
  specialize (Hat label). unfold at_most_created in Hat.
  split; [|split].
  - destruct (List.find (has_name label) playlists);
      [rewrite Hat; simpl; lia|].
    destruct Hat as [-> | ->]; simpl; lia.
  - intros p Hp. rewrite Hp in Hat. assumption.
  - intros pm tb Ho Hin. destruct (Hret pm tb Ho) as (Hres & Hdom & _).
    specialize (Hres label). specialize (Hdom label Hin).
    unfold resolved in Hres. destruct Hdom as [pid Hpid]. rewrite Hpid in Hres.
    destruct (List.find (has_name label) playlists).
    + destruct Hres as [Hid Hf]. rewrite Hid. eauto.
    + eauto.
Qed.

(** The requests of the loop are create-playlist requests only, and only
    for labels that are not resolved yet. *)
Lemma bucket_loop_requests id playlists tracks :
  forall pm tb (s s' : sys C) o,
    bucket_loop id playlists tracks (pm, tb) s = (s', o) ->
    exists labels,
      trace s' = trace s
                 ++ map (fun l => createRequest id l true false "") labels
      /\ Forall (fun l => pm !! l = None) labels.
Proof.
  induction tracks as [|track rest IH]; intros pm tb s s' o H.
  - inversion H; subst. exists []. simpl. rewrite app_nil_r. auto.
  - cbn [bucket_loop] in H. rewrite bind_run in H.
    destruct (bucket_step id playlists (pm, tb) track s) as [s1 o1] eqn:Hstep.
    apply bucket_step_cases in Hstep.
    assert (H1 : exists l1,
               trace s1 = trace s ++ map (fun l => createRequest id l true false "") l1
               /\ Forall (fun l => pm !! l = None) l1
               /\ forall pm1 tb1, o1 = Ret (pm1, tb1) ->
                    forall l, pm1 !! l = None -> pm !! l = None).
    { destruct Hstep as [(_ & -> & Ha) | (lu & _ & [(pid & _ & -> & ->) |
        (Hnone & [(pid & _ & -> & ->) | [(_ & -> & Ha) | (_ & Ht & Ho)]])])].
      - exists []. simpl. rewrite app_nil_r. repeat split; auto.
        intros ? ? ->. contradiction.
      - exists []. simpl. rewrite app_nil_r. repeat split; auto.
        intros ? ? Heq l Hl. inversion Heq; subst. assumption.
      - exists []. simpl. rewrite app_nil_r. repeat split; auto.
        intros ? ? Heq l Hl. inversion Heq; subst.
        apply lookup_insert_None in Hl. tauto.
      - exists []. simpl. rewrite app_nil_r. repeat split; auto.
        intros ? ? ->. contradiction.
      - exists [lu.1]. split; [exact Ht|]. split; [auto|].
        intros pm1 tb1 -> l Hl. destruct Ho as [[]|(pid & Heq)].
        inversion Heq; subst. apply lookup_insert_None in Hl. tauto. }
    destruct H1 as (l1 & Hl1 & Hf1 & Hmono).
    destruct o1 as [[pm1 tb1]|e|e| |];
      try (inversion H; subst; eauto; fail).
    destruct (IH pm1 tb1 s1 s' o H) as (l2 & Hl2 & Hf2).
    exists (l1 ++ l2). split.
    + rewrite Hl2, Hl1, map_app, app_assoc. reflexivity.
    + apply Forall_app. split; [assumption|].
      eapply Forall_impl; [exact Hf2|]. intros l Hl. cbv beta in Hl.
      apply (Hmono pm1 tb1 eq_refl). assumption.
Qed.

Lemma bucket_loop_app id playlists pre : forall post st (s : sys C),
  bucket_loop id playlists (pre ++ post) st s
  = bind (bucket_loop id playlists pre st) (bucket_loop id playlists post) s.
Proof.
  induction pre as [|t pre IH]; intros post st s.
  - reflexivity.
  - cbn [app bucket_loop]. rewrite !bind_run.
    destruct (bucket_step id playlists st t s) as [s1 [st1|e|e| |]];
      try reflexivity.
    rewrite IH, bind_run. reflexivity.
Qed.

(** Once the loop has gone through a track with the label [label], the
    label is settled for the rest of the run, however the run ends. *)
Lemma bucket_loop_settled id playlists pre post (s s1 s' : sys C) pm tb o label :
  bucket_loop id playlists pre (∅, ∅) s = (s1, Ret (pm, tb)) ->
  bucket_loop id playlists (pre ++ post) (∅, ∅) s = (s', o) ->
  is_Some (tb !! label) ->
  exists issued,
    trace s' = trace s ++ issued /\
    match List.find (has_name label) playlists with
    | Some p => is_Some (playlist_id p) /\ pm !! label = playlist_id p
                /\ List.filter (creates label) issued = []
    | None => is_Some (pm !! label)
              /\ List.filter (creates label) issued
                 = [createRequest id label true false ""]
    end.
Proof.
  intros Hpre Hall Hin.
  destruct (bucket_loop_start id playlists pre s s1 _ Hpre)
    as (issued1 & Ht1 & _ & Hret).
  destruct (Hret pm tb eq_refl) as (Hres & Hdom & _).
  specialize (Hres label). specialize (Hdom label Hin).
  rewrite bucket_loop_app, bind_run, Hpre in Hall.
  destruct (bucket_loop_requests id playlists post pm tb s1 s' o Hall)
    as (labels & Ht2 & Hfresh).
  exists (issued1 ++ map (fun l => createRequest id l true false "") labels).
  split; [rewrite Ht2, Ht1, <- app_assoc; reflexivity|].
  assert (Hnone : List.filter (creates label)
                    (map (fun l => createRequest id l true false "") labels) = []).
  { clear Ht2. induction labels as [|l ls IH]; [reflexivity|].
    inversion Hfresh as [|? ? Hl Hls]; subst. cbn [map List.filter].
    rewrite creates_createRequest.
    destruct (String.eqb_spec l label) as [->|Hne].
    - destruct Hdom as [x Hx]. congruence.
    - apply IH. assumption. }
  rewrite List.filter_app, Hnone, app_nil_r.
  unfold resolved in Hres. destruct Hdom as [pid Hpid]. rewrite Hpid in Hres.
  destruct (List.find (has_name label) playlists).
  - destruct Hres as [Hid Hf]. rewrite Hid. eauto.
  - eauto.
Qed.

End Buckets.

(** C7. Month labels.  The label of a saved track is decided by the civil
    fields that [time.Parse] reads from its timestamp, and by nothing else:
    it is the name of the month written in the timestamp, a space, an
    apostrophe and the last two digits of the year written in it, so the
    third and fourth characters of the timestamp and the month of its sixth
    and seventh; a timestamp that does not parse has no label.  The instant
    is formatted in the offset that the timestamp carries, not in UTC or
    any other fixed zone.  A track saved at 2024-01-15T10:00:00Z is labelled
    January '24 and one saved at 2024-02-01T00:00:00Z is labelled
    February '24.  A turn of the loop that returns has put the URI of its
    track at the end of the sequence of the track's label, and it does
    return when the label is resolved already; the loop over the two
    tracks returns with the two in these two buckets. *)
Theorem month_label :
  (forall s,
     targetPlaylistName s
     = (fun f => time.longMonthName (time.month f) +:+ " '"
                 +:+ time.twoDigits (time.year f mod 100)) <$> time.civil s)
  /\ (forall s name,
        targetPlaylistName s = Some name -> name = written_label s)
  /\ targetPlaylistName "2024-01-15T10:00:00Z" = Some "January '24"
  /\ targetPlaylistName "2024-02-01T00:00:00Z" = Some "February '24"
  /\ targetPlaylistName "2024-01-31T23:30:00-05:00" = Some "January '24"
  /\ time.Format_January_06 ∘ time.UTC <$> time.Parse "2024-01-31T23:30:00-05:00"
     = Some "February '24"
  /\ targetPlaylistName "2024-01-15T1:00:00Z" = Some "January '24"
  /\ targetPlaylistName "2024-01-15T10:00:00,5Z" = Some "January '24"
  /\ targetPlaylistName "2024-01-31T23:30:00+24:00" = Some "January '24"
  /\ (forall C (T : Transport C) id playlists pm tb (s : sys C)
             track trackMap addedAt inner uri name,
        as_map (Some track) = Some trackMap ->
        as_string (trackMap !! "added_at") = Some addedAt ->
        as_map (trackMap !! "track") = Some inner ->
        as_string (inner !! "uri") = Some uri ->
        targetPlaylistName addedAt = Some name ->
        (forall s' pm' tb',
           bucket_step id playlists (pm, tb) track s = (s', Ret (pm', tb')) ->
           tb' = <[name := default [] (tb !! name) ++ [uri]]> tb)
        /\ (forall pid,
              pm !! name = Some pid ->
              bucket_step id playlists (pm, tb) track s
              = (s, Ret (pm, <[name := default [] (tb !! name) ++ [uri]]> tb))))
  /\ (forall C (T : Transport C) id (s : sys C),
        bucket_loop id samples.winter_playlists
                    [samples.january_track; samples.february_track] (∅, ∅) s
        = (s, Ret (<["February '24" := "p2"]> {["January '24" := "p1"]},
                   <["February '24" := ["B"]]> {["January '24" := ["A"]]})))
  /\ (forall C (T : Transport C) id playlists (s s' : sys C) pm tb,
        bucket_loop id playlists [samples.january_track; samples.february_track]
                    (∅, ∅) s = (s', Ret (pm, tb)) ->
        tb = <["February '24" := ["B"]]> {["January '24" := ["A"]]}).
Proof.
  split; [exact targetPlaylistName_civil|].
  split.
  { intros s name H. rewrite targetPlaylistName_civil in H.
    destruct (time.civil s) as [f|] eqn:E; [|discriminate].
    injection H as <-. exact (civil_written s f E). }
  split; [vm_compute; reflexivity|].
  split; [vm_compute; reflexivity|].
  split; [vm_compute; reflexivity|].
  split; [vm_compute; reflexivity|].
  split; [vm_compute; reflexivity|].
  split; [vm_compute; reflexivity|].
  split; [vm_compute; reflexivity|].
  split.
  { intros C T id playlists pm tb s track trackMap addedAt inner uri name
           Hmap Hat Hin Huri Hname.
    assert (Hlu : saved_label_uri track = Some (name, uri)).
    { unfold saved_label_uri. rewrite Hmap. cbn [mbind option_bind].
      rewrite Hat. cbn [mbind option_bind]. rewrite Hin. cbn [mbind option_bind].
      rewrite Hname. cbn [mbind option_bind]. rewrite Huri. reflexivity. }
    split.
    - intros s' pm' tb' H.
      destruct (bucket_step_cases _ _ _ _ _ _ _ _ H)
        as [(Hnone & _)|(lu & Hsome & Hcases)]; [congruence|].
      assert (lu = (name, uri)) by congruence. subst lu.
      destruct Hcases as [(pid & _ & _ & Ho)
                         |(_ & [(pid & _ & _ & Ho)
                               |[(_ & _ & Ho)|(_ & _ & [Ho|(pid & Ho)])]])];
        try (exfalso; exact Ho);
        injection Ho as _ ->; reflexivity.
    - intros pid Hpid.
      destruct (bucket_step id playlists (pm, tb) track s) as [s' o] eqn:H.
      destruct (bucket_step_cases _ _ _ _ _ _ _ _ H)
        as [(Hnone & _)|(lu & Hsome & Hcases)]; [congruence|].
      assert (lu = (name, uri)) by congruence. subst lu.
      destruct Hcases as [(pid' & _ & -> & ->)|(Hno & _)].
      + reflexivity.
      + cbn [fst] in Hno. congruence. }
  split.
  { intros C T id s. vm_compute. reflexivity. }
  intros C T id playlists s s' pm tb H.
  destruct (bucket_loop_buckets id playlists _ s s' pm tb H) as (lus & HF & ->).
  inversion HF as [|t1 lu1 r1 lus1 H1 HF1]; subst.
  inversion HF1 as [|t2 lu2 r2 lus2 H2 HF2]; subst.
  inversion HF2; subst.
  vm_compute in H1. vm_compute in H2.
  inversion H1; subst. inversion H2; subst.
  vm_compute. reflexivity.
Qed.

Lemma month_label_example :
  "April '24" = written_label "2024-04-09T21:15:00+02:00"
  /\ bucket_step "u1" [] ({["April '24" := "p4"]}, {["April '24" := ["X"]]})
                 samples.april_evening_track (mkSys samples.fresh_user [])
     = (mkSys samples.fresh_user [],
        Ret ({["April '24" := "p4"]}, {["April '24" := ["X"; "Y"]]})).
Proof.
  destruct month_label as (_ & Hwritten & _ & _ & _ & _ & _ & _ & _ & Hturn & _).
  split.
  - apply (Hwritten "2024-04-09T21:15:00+02:00" "April '24").
    vm_compute. reflexivity.
  - refine (proj2 (Hturn _ _ "u1" [] {["April '24" := "p4"]}
                        {["April '24" := ["X"]]} (mkSys samples.fresh_user [])
                        samples.april_evening_track
                        (store_members ∅ [("added_at", Str "2024-04-09T21:15:00+02:00");
                                          ("track", Obj [("uri", Str "Y")])])
                        "2024-04-09T21:15:00+02:00"
                        (store_members ∅ [("uri", Str "Y")]) "Y" "April '24"
                        _ _ _ _ _) "p4" _);
      vm_compute; reflexivity.
Defined.

(** ** The merge (lines 546-598) *)

Lemma newUris_from (existing : gset string) (uris : list string) : forall acc,
  foldl (fun acc uri =>
           if bool_decide (uri ∈ existing) then acc else acc ++ [uri]) acc uris
  = acc ++ filter (fun u => u ∉ existing) uris.
Proof.
  induction uris as [|u rest IH]; intros acc; simpl.
  - rewrite app_nil_r. reflexivity.
  - rewrite IH. rewrite filter_cons.
    destruct (decide (u ∈ existing)) as [Hin|Hout].
    + rewrite bool_decide_true by assumption.
      rewrite decide_False by (intros X; apply X; assumption). reflexivity.
    + rewrite bool_decide_false by assumption.
      rewrite decide_True by assumption. rewrite <- app_assoc. reflexivity.
Qed.

Lemma newUris_filter (existing : gset string) (uris : list string) :
  newUris existing uris = filter (fun u => u ∉ existing) uris.
Proof. unfold newUris. rewrite newUris_from. reflexivity. Qed.

Lemma collect_existing_uris items : forall present (acc : gset string),
  Forall2 (fun item u => item_uri item = Some u) items present ->
  collect_existing items acc = Ret (list_to_set present ∪ acc).
Proof.
  induction items as [|item rest IH]; intros present acc HF.
  - inversion HF; subst. cbn [collect_existing]. f_equal.
    rewrite list_to_set_nil, (left_id_L ∅ (∪)). reflexivity.
  - inversion HF as [|? u ? us Hu HF']; subst. cbn [collect_existing].
    unfold item_uri in Hu.
    destruct (as_map (Some item)) as [itemMap|]; [|discriminate].
    cbn [mbind option_bind] in Hu.
    destruct (as_map (itemMap !! "track")) as [trackMap|]; [|discriminate].
    cbn [mbind option_bind] in Hu. rewrite Hu.
    rewrite (IH us) by assumption. f_equal.
    rewrite list_to_set_cons, (assoc_L (∪)), (comm_L (∪) (list_to_set us)).
    reflexivity.
Qed.

Lemma collect_existing_inv items : forall (acc existing : gset string),
  collect_existing items acc = Ret existing ->
  exists present,
    Forall2 (fun item u => item_uri item = Some u) items present /\
    existing = list_to_set present ∪ acc.
Proof.
  induction items as [|item rest IH]; intros acc existing H.
  - cbn [collect_existing] in H. inversion H; subst. exists [].
    split; [constructor|].
    rewrite list_to_set_nil, (left_id_L ∅ (∪)). reflexivity.
  - cbn [collect_existing] in H.
    destruct (as_map (Some item)) as [itemMap|] eqn:E1; [|discriminate].
    destruct (as_map (itemMap !! "track")) as [trackMap|] eqn:E2; [|discriminate].
    destruct (as_string (trackMap !! "uri")) as [u|] eqn:E3; [|discriminate].
    destruct (IH _ _ H) as (us & HF & ->).
    exists (u :: us). split.
    + constructor; [|assumption]. unfold item_uri. rewrite E1.
      cbn [mbind option_bind]. rewrite E2. cbn [mbind option_bind]. exact E3.
    + rewrite list_to_set_cons, (assoc_L (∪)), (comm_L (∪) (list_to_set us)).
      reflexivity.
Qed.

Section Merge.
Context {C : Type} `{!Transport C}.

Lemma AddItemsToPlaylist_run playlistId uris (s : sys C) :
  AddItemsToPlaylist playlistId uris s
  = (mkSys (Do (appendRequest playlistId uris) (client s)).1
           (trace s ++ [appendRequest playlistId uris]),
     match (Do (appendRequest playlistId uris) (client s)).2 with
     | Some _ => Ret tt
     | None => Err TransportError
     end).
Proof.
  unfold AddItemsToPlaylist. rewrite bind_run, send_run.
  destruct ((Do (appendRequest playlistId uris) (client s)).2); reflexivity.
Qed.

(** One month of the merge, once the playlist has been fetched and its
    items read: nothing but the append of the delta remains, and only if
    the delta is not empty. *)
Lemma merge_month_run pm month uris (s : sys C) c' resp playlist tracks items existing :
  uris <> [] ->
  Do (getRequest (api +:+ "/playlists/" +:+ default "" (pm !! month))) (client s)
  = (c', Some resp) ->
  Decode (Body resp) ∅ = Some playlist ->
  as_map (playlist !! "tracks") = Some tracks ->
  as_slice (tracks !! "items") = Some items ->
  collect_existing items ∅ = Ret existing ->
  merge_month pm month uris s
  = (if (0 <? Z.of_nat (length (newUris existing uris)))
     then orFatal (AddItemsToPlaylist (default "" (pm !! month))
                                      (newUris existing uris))
     else ret tt)
      (mkSys c' (trace s ++ [getRequest (api +:+ "/playlists/"
                                         +:+ default "" (pm !! month))])).
Proof.
  intros Hne HDo HDec Ht Hi Hc. unfold merge_month.
  destruct uris as [|u us]; [congruence|].
  cbn [length]. rewrite (proj2 (Z.ltb_lt 0 _)) by lia.
  rewrite bind_run. unfold orFatal, GetPlaylist, Get.
  rewrite bind_run, send_run, HDo. cbn [fst snd].
  unfold decode. rewrite HDec. unfold ret at 1. cbv beta iota.
  rewrite Ht. mstep. rewrite Hi. mstep. rewrite Hc. reflexivity.
Qed.

End Merge.

(** The delta is computed against the set of URIs that was built: the
    URIs to append are the pending ones that are not in that set, in the
    order in which they are pending, and the set holds exactly the URIs of
    the items read.  With [A] and [B] in the set and [A; C; B; D] pending,
    the delta is [C; D]. *)
Theorem dedup_delta :
  (forall (existing : gset string) (pending : list string),
     newUris existing pending = filter (fun u => u ∉ existing) pending)
  /\ (forall (items : list value) (present : list string),
        Forall2 (fun item u => item_uri item = Some u) items present ->
        collect_existing items ∅ = Ret (list_to_set present))
  /\ newUris {["A"; "B"]} ["A"; "C"; "B"; "D"] = ["C"; "D"].
Proof.
  split; [exact newUris_filter|]. split.
  - intros items present HF. rewrite (collect_existing_uris items present ∅ HF).
    f_equal. apply (right_id_L ∅ (∪)).
  - rewrite newUris_filter. reflexivity.
Qed.

Lemma dedup_delta_example :
  collect_existing [Service.trackItem "A"; Service.trackItem "B"] ∅
  = Ret (list_to_set ["A"; "B"]).
Proof.
  apply (proj1 (proj2 dedup_delta)).
  repeat constructor.
Defined.

(** C2. The delta against the playlist.  The set that the pending URIs
    are filtered by is built from the items that come with the playlist,
    its first page, so the delta is not the pending sequence without the
    URIs of the playlist: with [A], [B] and [C] in the playlist, two to a
    page, and [A; C; B; D] pending, the pending URIs that the playlist
    does not hold are [D], but the merge appends [C; D] and the playlist
    holds [C] twice afterwards. *)
Theorem dedup_misses_later_pages :
  let playlist := Service.mkPlaylist "p1" "January '24" ["A"; "B"; "C"] in
  let pending := ["A"; "C"; "B"; "D"] in
  let run := merge_month {["January '24" := "p1"]} "January '24" pending
               (mkSys samples.overlong_january []) in
  Service.playlists samples.overlong_january = [playlist]
  /\ filter (fun u => u ∉ Service.ptracks playlist) pending = ["D"]
  /\ trace run.1 = [getRequest (api +:+ "/playlists/p1");
                    appendRequest "p1" ["C"; "D"]]
  /\ run.2 = Ret tt
  /\ Service.playlists (client run.1)
     = [Service.mkPlaylist "p1" "January '24" ["A"; "B"; "C"; "C"; "D"]].
Proof.
  cbv zeta. split; [reflexivity|].
  split; [vm_compute; reflexivity|].
  split; [vm_compute; reflexivity|].
  split; vm_compute; reflexivity.
Qed.

Section MergeClaims.
Context {C : Type} `{!Transport C}.

Lemma delta_of_present (present pending : list string) :
  newUris (list_to_set present ∪ ∅) pending
  = filter (fun u => u ∉ present) pending.
Proof.
  rewrite newUris_filter. apply list_filter_iff. intros u.
  rewrite (right_id_L ∅ (∪)). rewrite elem_of_list_to_set. reflexivity.
Qed.

(** C10. The set of URIs that a playlist is taken to hold is read from
    the items that come with the playlist itself, its first page.  The
    link to further items is not looked at and nothing else is fetched:
    after the one request for the playlist, the only request left is the
    append of the delta.  A pending URI that is not among the items of the
    first page is in the delta, wherever else in the playlist it is. *)
Theorem dedup_reads_first_page_only pm month pending (s : sys C)
    c' resp kvs tkvs items present :
  pending <> [] ->
  Do (getRequest (api +:+ "/playlists/" +:+ default "" (pm !! month))) (client s)
  = (c', Some resp) ->
  Body resp = Some (Obj kvs) ->
  store_members ∅ kvs !! "tracks" = Some (Obj tkvs) ->
  store_members ∅ tkvs !! "items" = Some (Arr items) ->
  Forall2 (fun item u => item_uri item = Some u) items present ->
  let pid := default "" (pm !! month) in
  let delta := filter (fun u => u ∉ present) pending in
  let fetched := mkSys c' (trace s ++ [getRequest (api +:+ "/playlists/" +:+ pid)]) in
  merge_month pm month pending s
  = (if decide (delta = []) then (fetched, Ret tt)
     else orFatal (AddItemsToPlaylist pid delta) fetched)
  /\ (forall u, u ∈ pending -> u ∉ present -> u ∈ delta)
  /\ (trace (merge_month pm month pending s).1
      = trace fetched ++ (if decide (delta = []) then []
                          else [appendRequest pid delta])).
Proof.
  intros Hne HDo HB Ht Hi HF pid delta fetched.
  assert (Hrun : merge_month pm month pending s
                 = (if decide (delta = []) then (fetched, Ret tt)
                    else orFatal (AddItemsToPlaylist pid delta) fetched)).
  { rewrite (merge_month_run pm month pending s c' resp (store_members ∅ kvs)
               (store_members ∅ tkvs) items (list_to_set present ∪ ∅));
      try assumption.
    - rewrite delta_of_present. fold delta. fold pid. fold fetched.
      destruct (decide (delta = [])) as [->|Hd]; [reflexivity|].
      destruct delta; [congruence|]. reflexivity.
    - unfold Decode. rewrite HB. reflexivity.
    - rewrite Ht. reflexivity.
    - rewrite Hi. reflexivity.
    - apply collect_existing_uris. assumption. }
  split; [exact Hrun|]. split.
  - intros u Hin Hout. subst delta. apply list_elem_of_filter. auto.
  - rewrite Hrun. destruct (decide (delta = [])); [rewrite app_nil_r; reflexivity|].
    unfold orFatal. rewrite AddItemsToPlaylist_run.
    destruct ((Do (appendRequest pid delta) (client fetched)).2); reflexivity.
Qed.

End MergeClaims.

Lemma dedup_reads_first_page_only_example :
  let s := mkSys samples.long_playlist_client [] in
  let pm : gmap string string := {["January '24" := "p1"]} in
  trace (merge_month pm "January '24" ["A"; "C"; "B"; "D"] s).1
  = trace s ++ [getRequest (api +:+ "/playlists/p1")]
    ++ [appendRequest "p1" ["C"; "D"]].
Proof.
  intros s pm.
  destruct (dedup_reads_first_page_only pm "January '24" ["A"; "C"; "B"; "D"] s
              samples.long_playlist_client samples.long_playlist
              [("id", Str "p1"); ("name", Str "January '24");
               ("tracks",
                Obj [("items", Arr [Service.trackItem "A"; Service.trackItem "B"]);
                     ("next", Str (api +:+ "/playlists/p1/tracks?offset=2"))])]
              [("items", Arr [Service.trackItem "A"; Service.trackItem "B"]);
               ("next", Str (api +:+ "/playlists/p1/tracks?offset=2"))]
              [Service.trackItem "A"; Service.trackItem "B"] ["A"; "B"])
    as (_ & _ & Htrace).
  - discriminate.
  - reflexivity.
  - reflexivity.
  - vm_compute. reflexivity.
  - vm_compute. reflexivity.
  - repeat constructor.
  - rewrite Htrace. reflexivity.
Defined.

Section AppendGuard.
Context {C : Type} `{!Transport C}.

Lemma appends_appendRequest playlistId uris :
  appends (appendRequest playlistId uris) = true.
Proof.
  unfold appends, appendRequest, store_members. simpl.
  rewrite lookup_insert_eq. reflexivity.
Qed.

(** The ways in which one month of the merge can go. *)
Lemma merge_month_cases pm month uris (s s' : sys C) o :
  merge_month pm month uris s = (s', o) ->
  let pid := default "" (pm !! month) in
  (uris = [] /\ s' = s /\ o = Ret tt) \/
  exists c1,
    let fetched := mkSys c1 (trace s ++ [getRequest (api +:+ "/playlists/" +:+ pid)]) in
    (s' = fetched /\ aborted o) \/
    exists resp playlist tracks items existing,
      Do (getRequest (api +:+ "/playlists/" +:+ pid)) (client s) = (c1, Some resp) /\
      Decode (Body resp) ∅ = Some playlist /\
      as_map (playlist !! "tracks") = Some tracks /\
      as_slice (tracks !! "items") = Some items /\
      collect_existing items ∅ = Ret existing /\
      ((newUris existing uris = [] /\ s' = fetched /\ o = Ret tt) \/
       (newUris existing uris <> [] /\
        (s', o) = orFatal (AddItemsToPlaylist pid (newUris existing uris)) fetched)).
Proof.
  intros H pid. unfold merge_month in H. fold pid in H.
  destruct uris as [|u us]; [left; inversion H; auto|].
  right. revert H. cbn [length]. rewrite (proj2 (Z.ltb_lt 0 _)) by lia.
  rewrite bind_run. unfold orFatal, GetPlaylist, Get.
  rewrite bind_run, send_run.
  destruct (Do (getRequest (api +:+ "/playlists/" +:+ pid)) (client s))
    as [c1 [resp|]] eqn:HDo; cbn [fst snd]; intros H; exists c1;
    [|left; inversion H; subst; simpl; auto].
  revert H. unfold decode.
  destruct (Decode (Body resp) ∅) as [playlist|] eqn:HDec;
    [|intros H; left; inversion H; subst; simpl; auto].
  unfold ret at 1. cbv beta iota. mstep.
  destruct (as_map (playlist !! "tracks")) as [tracks|] eqn:Ht;
    [|intros H; left; inversion H; subst; simpl; auto].
  mstep.
  destruct (as_slice (tracks !! "items")) as [items|] eqn:Hi;
    [|intros H; left; inversion H; subst; simpl; auto].
  mstep.
  destruct (collect_existing items ∅) as [existing|e|e| |] eqn:Hc;
    try (intros H; left; inversion H; subst; simpl; auto; fail).
  intros H. right. exists resp, playlist, tracks, items, existing.
  repeat (split; [assumption || reflexivity|]).
  destruct (newUris existing (u :: us)) as [|d ds] eqn:Hd.
  - left. inversion H; subst. auto.
  - right. split; [discriminate|]. symmetry. exact H.
Qed.

(** C8, as the program has it.  The guard against an empty list is in the
    caller: an append request that the merge of a month sends carries the
    delta of that month, and the delta is not empty; when the delta is
    empty, the request for the playlist is the last one. *)
Theorem empty_delta_no_append pm month uris (s s' : sys C) o :
  merge_month pm month uris s = (s', o) ->
  exists issued,
    trace s' = trace s ++ issued /\
    (forall r, In r issued -> appends r = true ->
       exists existing,
         newUris existing uris <> [] /\
         r = appendRequest (default "" (pm !! month)) (newUris existing uris)) /\
    (forall c1 resp playlist tracks items existing,
       Do (getRequest (api +:+ "/playlists/" +:+ default "" (pm !! month)))
          (client s) = (c1, Some resp) ->
       Decode (Body resp) ∅ = Some playlist ->
       as_map (playlist !! "tracks") = Some tracks ->
       as_slice (tracks !! "items") = Some items ->
       collect_existing items ∅ = Ret existing ->
       newUris existing uris = [] ->
       List.filter appends issued = [] /\ o = Ret tt).
Proof.
  intros H. pose proof (merge_month_cases _ _ _ _ _ _ H) as Hc. cbv zeta in Hc.
  destruct Hc as [(-> & -> & ->) | (c1 & [(-> & Ha) | Hc])].
  - exists []. rewrite app_nil_r. split; [reflexivity|]. split.
    + intros r [].
    + intros. split; reflexivity.
  - exists [getRequest (api +:+ "/playlists/" +:+ default "" (pm !! month))].
    split; [reflexivity|]. split.
    + intros r [<-|[]] Hr. discriminate.
    + intros c2 resp playlist tracks items existing HDo HDec Ht Hi Hce Hn.
      split; [reflexivity|].
      destruct uris as [|u us]; [inversion H; subst; reflexivity|].
      rewrite (merge_month_run pm month (u :: us) s c2 resp playlist tracks items
                 existing) in H by (assumption || discriminate).
      rewrite Hn in H. inversion H. reflexivity.
  - destruct Hc as (resp & playlist & tracks & items & existing
                    & HDo & HDec & Ht & Hi & Hce & Hcase).
    destruct Hcase as [(Hn & -> & ->) | (Hn & Hrun)].
    + exists [getRequest (api +:+ "/playlists/" +:+ default "" (pm !! month))].
      split; [reflexivity|]. split.
      * intros r [<-|[]] Hr. discriminate.
      * intros. split; reflexivity.
    + unfold orFatal in Hrun. rewrite AddItemsToPlaylist_run in Hrun.
      exists [getRequest (api +:+ "/playlists/" +:+ default "" (pm !! month));
              appendRequest (default "" (pm !! month)) (newUris existing uris)].
      split; [|split].
      * destruct ((Do _ _).2) in Hrun; inversion Hrun; subst; cbn [trace];
          rewrite <- app_assoc; reflexivity.
      * intros r [<-|[<-|[]]] Hr; [discriminate|]. exists existing. auto.
      * intros c2 resp2 playlist2 tracks2 items2 existing2 HDo2 HDec2 Ht2 Hi2 Hce2 Hn2.
        rewrite HDo in HDo2. inversion HDo2; subst.
        rewrite HDec in HDec2. inversion HDec2; subst.
        rewrite Ht in Ht2. inversion Ht2; subst.
        rewrite Hi in Hi2. inversion Hi2; subst.
        rewrite Hce in Hce2. inversion Hce2; subst. contradiction.
Qed.

End AppendGuard.

(** [AddItemsToPlaylist] itself sends its request whatever the list is: with
    an empty list the trace is not what it was. *)
Lemma AddItemsToPlaylist_empty_sends :
  trace (AddItemsToPlaylist "p1" [] (mkSys samples.long_playlist_client [])).1
  <> trace (mkSys samples.long_playlist_client []).
Proof. vm_compute. discriminate. Qed.

Lemma empty_delta_no_append_example :
  let s := mkSys samples.long_playlist_client [] in
  let pm : gmap string string := {["January '24" := "p1"]} in
  exists issued,
    trace (merge_month pm "January '24" ["B"; "A"] s).1 = trace s ++ issued /\
    List.filter appends issued = [].
Proof.
  intros s pm.
  destruct (empty_delta_no_append pm "January '24" ["B"; "A"] s
              (merge_month pm "January '24" ["B"; "A"] s).1
              (merge_month pm "January '24" ["B"; "A"] s).2
              (surjective_pairing _))
    as (issued & Ht & _ & Hempty).
  exists issued. split; [exact Ht|].
  refine (proj1 (Hempty samples.long_playlist_client samples.long_playlist
                        _ _ _ _ eq_refl eq_refl eq_refl eq_refl eq_refl _)).
  vm_compute. reflexivity.
Defined.

(** ** The reversal (lines 468-471) *)

Section Reversal.
Variable tracks : list value.
Local Abbreviation n := (length tracks).

Lemma reverse_loop_mirrored : forall fuel k r,
  (n / 2 <= k + fuel)%nat -> (k <= n / 2)%nat -> mirrored tracks k r ->
  exists r', reverse_loop fuel (Z.of_nat k) (Z.of_nat n - 1 - Z.of_nat k) tracks r
             = Ret r'
             /\ mirrored tracks (n / 2) r'.
Proof.
  induction fuel as [|fuel IH]; intros k r Hfuel Hk Hinv.
  - assert (k = (n / 2)%nat) by lia. subst k.
    assert (Hge : (Z.of_nat (n / 2) <? Z.of_nat n - 1 - Z.of_nat (n / 2)) = false).
    { apply Z.ltb_ge. pose proof (Nat.div_mod_eq n 2).
      pose proof (Nat.mod_upper_bound n 2). lia. }
    cbn [reverse_loop]. rewrite Hge. eauto.
  - cbn [reverse_loop].
    destruct (Z.of_nat k <? Z.of_nat n - 1 - Z.of_nat k) eqn:Hlt.
    + apply Z.ltb_lt in Hlt.
      assert (Hj : Z.to_nat (Z.of_nat n - 1 - Z.of_nat k) = (n - 1 - k)%nat) by lia.
      rewrite Hj, Nat2Z.id.
      destruct (lookup_lt_is_Some_2 tracks (n - 1 - k)) as [tj Htj]; [lia|].
      destruct (lookup_lt_is_Some_2 tracks k) as [ti Hti]; [lia|].
      rewrite Htj, Hti.
      replace (Z.of_nat k + 1) with (Z.of_nat (S k)) by lia.
      replace (Z.of_nat n - 1 - Z.of_nat k - 1)
        with (Z.of_nat n - 1 - Z.of_nat (S k)) by lia.
      apply IH.
      * lia.
      * pose proof (Nat.div_mod_eq n 2). pose proof (Nat.mod_upper_bound n 2). lia.
      * destruct Hinv as [Hlen Hpos]. split.
        { rewrite !length_insert. assumption. }
        intros p Hp.
        destruct (decide (p = n - 1 - k)%nat) as [->|Hpj].
        { rewrite list_lookup_insert_eq by (rewrite length_insert; lia).
          replace (n - 1 - (n - 1 - k))%nat with k by lia.
          rewrite Hti.
          destruct ((n - 1 - k <? S k)%nat || (n - 1 - S k <? n - 1 - k)%nat) eqn:E;
            [reflexivity|].
          apply orb_false_iff in E. destruct E as [_ E].
          apply Nat.ltb_ge in E. lia. }
        rewrite list_lookup_insert_ne by congruence.
        destruct (decide (p = k)) as [->|Hpi].
        { rewrite list_lookup_insert_eq by lia. rewrite Htj.
          rewrite (proj2 (Nat.ltb_lt k (S k))) by lia. reflexivity. }
        rewrite list_lookup_insert_ne by congruence.
        rewrite (Hpos p Hp).
        assert (E1 : (p <? S k)%nat = (p <? k)%nat).
        { destruct (Nat.ltb_spec p (S k)), (Nat.ltb_spec p k); lia || reflexivity. }
        assert (E2 : (n - 1 - S k <? p)%nat = (n - 1 - k <? p)%nat).
        { destruct (Nat.ltb_spec (n - 1 - S k) p), (Nat.ltb_spec (n - 1 - k) p);
            lia || reflexivity. }
        rewrite E1, E2. reflexivity.
    + apply Z.ltb_ge in Hlt.
      assert (k = (n / 2)%nat).
      { pose proof (Nat.div_mod_eq n 2). pose proof (Nat.mod_upper_bound n 2). lia. }
      subst k. eauto.
Qed.

Lemma mirrored_start : mirrored tracks 0 (replicate n Null).
Proof.
  split; [apply length_replicate|]. intros p Hp.
  rewrite lookup_replicate_2 by assumption.
  destruct ((p <? 0)%nat || (n - 1 - 0 <? p)%nat) eqn:E; [|reflexivity].
  apply orb_true_iff in E. destruct E as [E|E]; apply Nat.ltb_lt in E; lia.
Qed.

Lemma mirrored_end r :
  mirrored tracks (n / 2) r ->
  r = if Nat.even n then reverse tracks
      else <[(n / 2)%nat := Null]> (reverse tracks).
Proof.
  intros [Hlen Hpos].
  pose proof (Nat.div_mod_eq n 2) as Hdm.
  pose proof (Nat.mod_upper_bound n 2 ltac:(lia)) as Hmod.
  assert (Hev : Nat.even n = (n mod 2 =? 0)%nat).
  { rewrite <- Nat.bit0_mod. rewrite Nat.bit0_odd. rewrite <- Nat.negb_even.
    destruct (Nat.even n); reflexivity. }
  apply (list_eq_same_length _ _ n); [|assumption|].
  { destruct (Nat.even n); rewrite ?length_insert, length_reverse; reflexivity. }
  intros p x y Hp Hx Hy. rewrite (Hpos p Hp) in Hx.
  assert (Hrev : reverse tracks !! p = tracks !! (n - 1 - p)%nat).
  { rewrite reverse_lookup by lia. f_equal. lia. }
  rewrite Hev in Hy.
  destruct (Nat.eqb_spec (n mod 2) 0) as [He|Ho].
  - rewrite Hrev in Hy.
    destruct ((p <? n / 2)%nat || (n - 1 - n / 2 <? p)%nat) eqn:E.
    + congruence.
    + apply orb_false_iff in E. destruct E as [E1 E2].
      apply Nat.ltb_ge in E1, E2. lia.
  - destruct (decide (p = n / 2)%nat) as [->|Hne].
    + rewrite list_lookup_insert_eq in Hy by (rewrite length_reverse; lia).
      destruct ((n / 2 <? n / 2)%nat || (n - 1 - n / 2 <? n / 2)%nat) eqn:E.
      * apply orb_true_iff in E. destruct E as [E|E]; apply Nat.ltb_lt in E; lia.
      * congruence.
    + rewrite list_lookup_insert_ne in Hy by congruence. rewrite Hrev in Hy.
      destruct ((p <? n / 2)%nat || (n - 1 - n / 2 <? p)%nat) eqn:E.
      * congruence.
      * apply orb_false_iff in E. destruct E as [E1 E2].
        apply Nat.ltb_ge in E1, E2. lia.
Qed.

Lemma make_reverseTracks_spec :
  make_reverseTracks tracks
  = Ret (if Nat.even n then reverse tracks
         else <[(n / 2)%nat := Null]> (reverse tracks)).
Proof.
  unfold make_reverseTracks.
  destruct (reverse_loop_mirrored n 0 (replicate n Null)) as (r & Hr & Hm).
  - pose proof (Nat.div_mod_eq n 2). lia.
  - lia.
  - apply mirrored_start.
  - change (Z.of_nat 0) with 0 in Hr. rewrite Z.sub_0_r in Hr.
    rewrite Hr. f_equal. apply mirrored_end. assumption.
Qed.

End Reversal.

Section OddLibraries.
Context {C : Type} `{!Transport C}.

Lemma bucket_step_nil id playlists st (s : sys C) :
  bucket_step id playlists st Null s = (s, Fatal (UnexpectedType "track")).
Proof. destruct st. reflexivity. Qed.

Lemma bucket_loop_nil id playlists : forall tracks st (s : sys C),
  Null ∈ tracks -> aborted (bucket_loop id playlists tracks st s).2.
Proof.
  induction tracks as [|t rest IH]; intros st s Hin.
  - inversion Hin.
  - cbn [bucket_loop]. rewrite bind_run.
    apply elem_of_cons in Hin. destruct Hin as [<-|Hin].
    + rewrite bucket_step_nil. exact I.
    + destruct (bucket_step id playlists st t s) as [s1 [st1|e|e| |]];
        try exact I.
      apply IH. assumption.
Qed.

(** A run that completes has fetched an even number of saved tracks. *)
Lemma sync_completes_even rangeOrder fuel (s s' : sys C) :
  sync rangeOrder fuel s = (s', Ret tt) ->
  exists s1 s2 tracks,
    EnumerateUsersSavedTracks fuel s1 = (s2, Ret tracks) /\
    Nat.even (length tracks) = true.
Proof.
  unfold sync. rewrite bind_run.
  destruct (orFatal GetCurrentUsersProfile s) as [s0 [profile|e|e| |]];
    try discriminate.
  mstep. destruct (as_string (profile !! "id")) as [id|]; [|discriminate].
  rewrite bind_run.
  destruct (orFatal (EnumerateCurrentUsersPlaylists fuel) s0)
    as [s1 [playlists|e|e| |]]; try discriminate.
  rewrite bind_run. unfold orFatal at 1.
  destruct (EnumerateUsersSavedTracks fuel s1) as [s2 [tracks|e|e| |]] eqn:Et;
    try discriminate.
  intros H. exists s1, s2, tracks. split; [exact Et|].
  revert H. mstep. rewrite make_reverseTracks_spec.
  destruct (Nat.even (length tracks)) eqn:Hev; [reflexivity|].
  rewrite bind_run.
  pose proof (bucket_loop_nil id playlists
                (<[(length tracks / 2)%nat := Null]> (reverse tracks)) (∅, ∅) s2) as Ha.
  destruct (bucket_loop id playlists _ (∅, ∅) s2) as [s3 [[pm tb]|e|e| |]];
    try discriminate.
  exfalso. apply Ha. apply list_elem_of_lookup. exists (length tracks / 2)%nat.
  apply list_lookup_insert_eq. rewrite length_reverse.
  destruct tracks; [simpl in Hev; discriminate|]. cbn [length].
  apply Nat.div_lt; lia.
Qed.

End OddLibraries.

(** C6, as the program has it.  The copy loop stops when its two indices
    meet, so for a list of odd length the middle position of
    [reverseTracks] is never written and keeps the nil it was made with.
    For an even length the result is the reversal; for an odd length it is
    the reversal with nil in the middle, and the loop over it ends in
    [log.Fatalf].  A library of one saved track shows it: the run is fatal
    after the three reads and appends nothing. *)
Theorem reversal_skips_middle :
  (forall tracks,
     make_reverseTracks tracks
     = Ret (if Nat.even (length tracks) then reverse tracks
            else <[(length tracks / 2)%nat := Null]> (reverse tracks)))
  /\ (forall t, make_reverseTracks [t] = Ret [Null])
  /\ (forall C (T : Transport C) id playlists st (s : sys C),
        bucket_step id playlists st Null s = (s, Fatal (UnexpectedType "track")))
  /\ (let run := sync anyOrder 10 (mkSys samples.one_track_user []) in
      run.2 = Fatal (UnexpectedType "track")
      /\ trace run.1 = [getRequest (api +:+ "/me");
                        getRequest (api +:+ "/me/playlists");
                        getRequest (api +:+ "/me/tracks")]).
Proof.
  split; [exact make_reverseTracks_spec|].
  split; [intros t; reflexivity|].
  split; [intros; apply bucket_step_nil|].
  vm_compute. split; reflexivity.
Qed.

(** ** The pager (lines 74-191) *)

Lemma store_members_lookup kvs : forall (m : gmap string value) k,
  store_members m kvs !! k
  = match store_members ∅ kvs !! k with
    | Some v => Some v
    | None => m !! k
    end.
Proof.
  unfold store_members.
  induction kvs as [|[k1 v1] kvs IH]; intros m k; cbn [foldl fst snd].
  - rewrite lookup_empty. reflexivity.
  - rewrite (IH (<[k1 := v1]> m)), (IH (<[k1 := v1]> ∅)).
    destruct (foldl _ ∅ kvs !! k) as [v|]; [reflexivity|].
    destruct (decide (k1 = k)) as [->|Hne].
    + rewrite !lookup_insert_eq. reflexivity.
    + rewrite !lookup_insert_ne by assumption. rewrite lookup_empty. reflexivity.
Qed.

Section Pager.
Context {C : Type} `{!Transport C}.

(** One turn of the loop on a response that carries both members. *)
Lemma follow_next_turn fuel page items url (s : sys C) c' resp kvs nextItems next :
  Do (getRequest url) (client s) = (c', Some resp) ->
  Body resp = Some (Obj kvs) ->
  store_members page kvs !! "items" = Some (Arr nextItems) ->
  store_members page kvs !! "next" = Some next ->
  follow_next (S fuel) page items (Str url) s
  = follow_next fuel (store_members page kvs) (items ++ nextItems) next
                (mkSys c' (trace s ++ [getRequest url])).
Proof.
  intros HDo HB Hi Hn. cbn [follow_next as_string].
  rewrite bind_orPanic, (bind_Get _ _ _ _ _ HDo).
  rewrite (bind_decode resp page (store_members page kvs))
    by (unfold Decode; rewrite HB; reflexivity).
  rewrite Hi. cbn [as_slice]. rewrite bind_orErr, Hn, bind_orErr. reflexivity.
Qed.

Lemma follow_next_pages : forall pages c url reqs c',
  serves c url pages reqs c' ->
  forall fuel page items t,
    (length pages <= fuel)%nat ->
    follow_next fuel page items (Str url) (mkSys c t)
    = (mkSys c' (t ++ reqs), Ret (items ++ concat pages)).
Proof.
  intros pages c url reqs c' Hs.
  induction Hs as [c url resp kvs its c' HDo HB Hi Hn
                  |c url resp kvs its url' c' rest reqs c'' HDo HB Hi Hn Hs IH];
    intros fuel page items t Hfuel.
  - destruct fuel as [|fuel]; [simpl in Hfuel; lia|].
    rewrite (follow_next_turn fuel page items url (mkSys c t) c' resp kvs its Null);
      try assumption.
    + destruct fuel; cbn [follow_next concat]; rewrite app_nil_r; reflexivity.
    + rewrite store_members_lookup, Hi. reflexivity.
    + rewrite store_members_lookup, Hn. reflexivity.
  - destruct fuel as [|fuel]; [simpl in Hfuel; lia|].
    rewrite (follow_next_turn fuel page items url (mkSys c t) c' resp kvs its (Str url'));
      try assumption.
    + cbn [trace]. rewrite IH by (simpl in Hfuel; lia).
      cbn [concat]. rewrite <- !app_assoc. reflexivity.
    + rewrite store_members_lookup, Hi. reflexivity.
    + rewrite store_members_lookup, Hn. reflexivity.
Qed.

(** Pagination completeness: when every page carries its items and its
    [next] link, the pager returns the items of all pages, in page order,
    and stops at the page whose link is [null]. *)
Lemma enumerate_all_pages pages c url reqs c' fuel t :
  serves c url pages reqs c' ->
  (length pages <= S fuel)%nat ->
  enumerate url fuel (mkSys c t) = (mkSys c' (t ++ reqs), Ret (concat pages)).
Proof.
  intros Hs Hfuel. unfold enumerate.
  inversion Hs as [c0 url0 resp kvs its c0' HDo HB Hi Hn
                  |c0 url0 resp kvs its url' c1 rest reqs' c0' HDo HB Hi Hn Hs'];
    subst.
  - rewrite (bind_Get url _ (mkSys c t) _ _ HDo).
    rewrite (bind_decode resp ∅ (store_members ∅ kvs))
      by (unfold Decode; rewrite HB; reflexivity).
    rewrite Hi. cbn [as_slice]. rewrite bind_orErr, Hn, bind_orErr.
    destruct fuel; cbn [follow_next concat trace]; rewrite app_nil_r; reflexivity.
  - rewrite (bind_Get url _ (mkSys c t) _ _ HDo).
    rewrite (bind_decode resp ∅ (store_members ∅ kvs))
      by (unfold Decode; rewrite HB; reflexivity).
    rewrite Hi. cbn [as_slice]. rewrite bind_orErr, Hn, bind_orErr.
    rewrite (follow_next_pages rest c1 url' reqs' c' Hs')
      by (cbn [length] in Hfuel; lia).
    cbn [trace concat]. rewrite <- app_assoc. reflexivity.
Qed.

(** The first transport or decoding error ends the fetch with the error
    alone: the outcome of the pager is a list only when it is [Ret]. *)
Lemma enumerate_first_error url fuel (s : sys C) :
  ((Do (getRequest url) (client s)).2 = None ->
   (enumerate url fuel s).2 = Err TransportError) /\
  (forall resp, (Do (getRequest url) (client s)).2 = Some resp ->
                Decode (Body resp) ∅ = None ->
                (enumerate url fuel s).2 = Err DecodeError) /\
  (forall resp page, (Do (getRequest url) (client s)).2 = Some resp ->
                Decode (Body resp) ∅ = Some page ->
                as_slice (page !! "items") <> None ->
                page !! "next" = None ->
                (enumerate url fuel s).2 = Err (UnexpectedType "next")).
Proof.
  unfold enumerate, Get. rewrite bind_run, send_run.
  destruct ((Do (getRequest url) (client s)).2) as [resp|]; cbn [fst snd].
  - split; [discriminate|]. split.
    + intros r Hr HD. inversion Hr; subst. unfold bind, decode. rewrite HD.
      reflexivity.
    + intros r page Hr HD Hi Hn. inversion Hr; subst.
      rewrite (bind_decode r ∅ page) by assumption.
      destruct (as_slice (page !! "items")); [|congruence].
      rewrite bind_orErr, Hn. reflexivity.
  - split; [reflexivity|]. split; intros; discriminate.
Qed.

End Pager.

Example enumerate_two_pages :
  EnumerateCurrentUsersPlaylists 1 (mkSys samples.three_playlists [])
  = (mkSys samples.three_playlists
           [getRequest (api +:+ "/me/playlists");
            getRequest (api +:+ "/me/playlists?offset=2")],
     Ret (map Service.playlistItem (Service.playlists samples.three_playlists))).
Proof. vm_compute. reflexivity. Qed.

Section StaleLink.
Context {C : Type} `{!Transport C}.

(** A page after the first that has no [next] member is not an error:
    the map still holds the link of the page before, which is the URL
    just asked, and the loop goes round again with it. *)
Lemma follow_next_keeps_link fuel page items url (s : sys C) c' resp kvs nextItems :
  page !! "next" = Some (Str url) ->
  Do (getRequest url) (client s) = (c', Some resp) ->
  Body resp = Some (Obj kvs) ->
  store_members ∅ kvs !! "items" = Some (Arr nextItems) ->
  store_members ∅ kvs !! "next" = None ->
  follow_next (S fuel) page items (Str url) s
  = follow_next fuel (store_members page kvs) (items ++ nextItems) (Str url)
                (mkSys c' (trace s ++ [getRequest url])).
Proof.
  intros Hp HDo HB Hi Hn.
  apply (follow_next_turn fuel page items url s c' resp kvs nextItems (Str url));
    try assumption.
  - rewrite store_members_lookup, Hi. reflexivity.
  - rewrite store_members_lookup, Hn. assumption.
Qed.

End StaleLink.

Lemma broken_list_hangs : forall fuel page items t,
  page !! "next" = Some (Str "https://list/2") ->
  follow_next fuel page items (Str "https://list/2")
              (mkSys samples.broken_list_client t)
  = (mkSys samples.broken_list_client
           (t ++ replicate fuel (getRequest "https://list/2")), Hang).
Proof.
  induction fuel as [|fuel IH]; intros page items t Hp.
  - cbn [follow_next replicate]. rewrite app_nil_r. reflexivity.
  - rewrite (follow_next_keeps_link fuel page items "https://list/2"
               (mkSys samples.broken_list_client t) samples.broken_list_client
               (mkResponse 200 (Some (Obj [("items", Arr [Str "b"])])))
               [("items", Arr [Str "b"])] [Str "b"] Hp);
      try reflexivity.
    rewrite IH.
    + cbn [trace replicate]. rewrite <- app_assoc. reflexivity.
    + rewrite store_members_lookup. assumption.
Qed.

(** C4, as the program has it.  A first page without a [next] member is an
    error.  A later page without it is not: every response is decoded into
    the map that holds the page before, so the old link is still there and
    the same page is asked for again.  If the service goes on answering so,
    the pager neither returns nor fails, however long it is left to run; if
    the service answers one request for the second page with an error body
    and the next with the page, the pager returns the items of the first
    page twice. *)
Theorem absent_next_on_later_page :
  (forall fuel,
     enumerate "https://list/1" fuel (mkSys samples.headless_list_client [])
     = (mkSys samples.headless_list_client [getRequest "https://list/1"],
        Err (UnexpectedType "next")))
  /\ (forall fuel,
        enumerate "https://list/1" fuel (mkSys samples.broken_list_client [])
        = (mkSys samples.broken_list_client
                 (getRequest "https://list/1"
                  :: replicate fuel (getRequest "https://list/2")),
           Hang))
  /\ (forall fuel,
        enumerate "https://list/1" (S (S fuel))
                  (mkSys (samples.mkThrottled false) [])
        = (mkSys (samples.mkThrottled true)
                 [getRequest "https://list/1"; getRequest "https://list/2";
                  getRequest "https://list/2"],
           Ret [Str "a"; Str "a"; Str "b"])).
Proof.
  split; [|split]; intros fuel.
  - reflexivity.
  - unfold enumerate.
    rewrite (bind_Get "https://list/1" _ (mkSys samples.broken_list_client [])
               samples.broken_list_client
               (mkResponse 200 (Some (Obj [("items", Arr [Str "a"]);
                                           ("next", Str "https://list/2")]))))
      by reflexivity.
    rewrite (bind_decode _ ∅ (store_members ∅ [("items", Arr [Str "a"]);
                                               ("next", Str "https://list/2")]))
      by reflexivity.
    assert (Hi : store_members ∅ [("items", Arr [Str "a"]);
                                  ("next", Str "https://list/2")] !! "items"
                 = Some (Arr [Str "a"])) by (vm_compute; reflexivity).
    assert (Hn : store_members ∅ [("items", Arr [Str "a"]);
                                  ("next", Str "https://list/2")] !! "next"
                 = Some (Str "https://list/2")) by (vm_compute; reflexivity).
    rewrite Hi. cbn [as_slice]. rewrite bind_orErr, Hn, bind_orErr.
    rewrite broken_list_hangs by exact Hn. reflexivity.
  - destruct fuel; vm_compute; reflexivity.
Qed.

(** ** Mutating calls and the status code (lines 194-324) *)

(** C5, as the program has it.  [AddItemsToPlaylist] returns nil whatever
    the response is, and [CreatePlaylist] returns the decoded body of any
    response whose body is a JSON object: neither looks at the status code.
    [DeletePlaylist] does, and fails unless the status is 200. *)
Theorem status_is_checked_by_delete_only {C : Type} `{!Transport C}
    (s : sys C) c' resp :
  (forall playlistId uris,
     Do (appendRequest playlistId uris) (client s) = (c', Some resp) ->
     AddItemsToPlaylist playlistId uris s
     = (mkSys c' (trace s ++ [appendRequest playlistId uris]), Ret tt))
  /\ (forall userId name public collaborative description kvs,
        Do (createRequest userId name public collaborative description) (client s)
        = (c', Some resp) ->
        Body resp = Some (Obj kvs) ->
        CreatePlaylist userId name public collaborative description s
        = (mkSys c' (trace s ++ [createRequest userId name public collaborative
                                               description]),
           Ret (store_members ∅ kvs)))
  /\ (forall playlistId,
        Do (deleteRequest playlistId) (client s) = (c', Some resp) ->
        DeletePlaylist playlistId s
        = (mkSys c' (trace s ++ [deleteRequest playlistId]),
           if StatusCode resp =? StatusOK then Ret tt
           else Err (StatusError (StatusCode resp)))).
Proof.
  split; [|split].
  - intros playlistId uris HDo. rewrite AddItemsToPlaylist_run, HDo. reflexivity.
  - intros userId name public collaborative description kvs HDo HB.
    unfold CreatePlaylist. rewrite bind_run, send_run, HDo. cbn [fst snd].
    unfold decode, Decode. rewrite HB. reflexivity.
  - intros playlistId HDo. unfold DeletePlaylist.
    rewrite bind_run, send_run, HDo. cbn [fst snd].
    destruct (StatusCode resp =? StatusOK); reflexivity.
Qed.

Lemma status_is_checked_by_delete_only_example :
  AddItemsToPlaylist "p1" ["A"] (mkSys samples.failing_client [])
  = (mkSys samples.failing_client [appendRequest "p1" ["A"]], Ret tt)
  /\ (DeletePlaylist "p1" (mkSys samples.failing_client [])).2
     = Err (StatusError 500).
Proof.
  pose proof (status_is_checked_by_delete_only
                (mkSys samples.failing_client []) samples.failing_client
                (mkResponse 500 (Some (Obj [("error",
                   Obj [("status", Number 500); ("message", Str "Server error")])]))))
    as (Happend & _ & Hdelete).
  split.
  - apply (Happend "p1" ["A"]). reflexivity.
  - rewrite (Hdelete "p1") by reflexivity. reflexivity.
Defined.

(** ** Two runs in a row (lines 546-598) *)

(** C1, as the program has it.  The January playlist holds four tracks
    after the first run, its first page holds two, and nothing is saved
    between the runs; the second run appends the two tracks of the second
    page again. *)
Theorem second_run_appends_again :
  samples.first_run.2 = Ret tt
  /\ List.filter appends (trace samples.first_run.1) = [appendRequest "pl0" ["C"; "D"]]
  /\ Service.library (client samples.first_run.1) = Service.library samples.january_user
  /\ samples.second_run.2 = Ret tt
  /\ List.filter appends (trace samples.second_run.1) = [appendRequest "pl0" ["C"; "D"]]
  /\ Service.playlists (client samples.second_run.1)
     = [Service.mkPlaylist "pl0" "January '24" ["A"; "B"; "C"; "D"; "C"; "D"]].
Proof. vm_compute. repeat split; reflexivity. Qed.

(** ** Credentials (lines 408-442) *)

Section Startup.
Context {W : Type} `{!Host W}.

Lemma onHost_file {A} (m : M W A) (p : process W) :
  tokenFile (onHost m p).1 = tokenFile p.
Proof. unfold onHost. destruct (m (host p)). reflexivity. Qed.

Lemma WriteTokenToPath_ok token (p p' : process W) :
  orFatal (WriteTokenToPath token) p = (p', Ret tt) ->
  tokenFile p' = Some token.
Proof.
  unfold orFatal, WriteTokenToPath.
  destruct (writeFault (host p)) as [[]|]; intros H; inversion H; reflexivity.
Qed.

(** Lines 429-440, for a token whose access token is the one on file. *)
Lemma refresh_then_persist token (p p' : process W) newToken :
  AccessToken <$> tokenFile p = Some (AccessToken token) ->
  (let! newToken := orFatal (onHost (sourceToken token)) in
   do! (if negb (String.eqb (AccessToken newToken) (AccessToken token))
        then orFatal (WriteTokenToPath newToken)
        else ret tt) in
   ret newToken) p = (p', Ret newToken) ->
  AccessToken <$> tokenFile p' = Some (AccessToken newToken).
Proof.
  intros Hfile. rewrite bind_run. unfold orFatal at 1.
  pose proof (onHost_file (sourceToken token) p) as Hsame.
  destruct (onHost (sourceToken token) p) as [p1 [t1|e|e| |]]; try discriminate.
  cbn [fst] in Hsame. rewrite bind_run.
  destruct (String.eqb_spec (AccessToken t1) (AccessToken token)) as [Heq|Hne];
    cbn [negb].
  - unfold ret. intros H. inversion H; subst.
    rewrite Hsame, Hfile. congruence.
  - destruct (orFatal (WriteTokenToPath t1) p1) as [p2 [[]|e|e| |]] eqn:Hw;
      try discriminate.
    unfold ret. intros H. inversion H; subst.
    rewrite (WriteTokenToPath_ok _ _ _ Hw). reflexivity.
Qed.

Lemma startup_persists (p p' : process W) newToken :
  startup p = (p', Ret newToken) ->
  AccessToken <$> tokenFile p' = Some (AccessToken newToken).
Proof.
  unfold startup. rewrite bind_run. unfold ReadTokenFromPath.
  destruct (tokenFile p) as [t|] eqn:Hfile.
  - apply refresh_then_persist. rewrite Hfile. reflexivity.
  - rewrite bind_run.
    destruct (orFatal (onHost (fun w => orAuthError (Scan w))) p)
      as [p1 [code|e|e| |]]; try discriminate.
    rewrite bind_run.
    destruct (orFatal (onHost (fun w => orAuthError (Exchange code w))) p1)
      as [p2 [token|e|e| |]]; try discriminate.
    rewrite bind_run.
    destruct (orFatal (WriteTokenToPath token) p2) as [p3 [[]|e|e| |]] eqn:Hw;
      try discriminate.
    unfold ret at 1. cbv beta iota.
    apply refresh_then_persist. rewrite (WriteTokenToPath_ok _ _ _ Hw). reflexivity.
Qed.

(** C9, as the program has it.  The token that the token source hands out
    at start-up is on file when the client is built: it is written when
    its access token differs from the one loaded, and a failed write ends
    the process.  Nothing writes the file after that, so at the end of the
    run the file holds the access token of start-up. *)
Theorem token_persisted_at_startup rangeOrder fuel (p p' : process W) newToken :
  startup p = (p', Ret newToken) ->
  AccessToken <$> tokenFile p' = Some (AccessToken newToken)
  /\ disk (main rangeOrder fuel p) = tokenFile p'.
Proof.
  intros H. split; [exact (startup_persists p p' newToken H)|].
  unfold main. rewrite H.
  destruct (sync rangeOrder fuel _). reflexivity.
Qed.

End Startup.

(** The token on file expires during the run: the client's token source
    fetches a new one before the third request, and at the end of a run that
    succeeds the file still holds the old access token. *)
Lemma refresh_during_run_not_persisted :
  let r := main anyOrder 10 samples.expiring in
  result r = Ret tt
  /\ AccessToken <$> disk r = Some "access-0"
  /\ AccessToken <$> memory r = Some "access-1"
  /\ AccessToken <$> disk r <> AccessToken <$> memory r.
Proof. vm_compute. repeat split; discriminate. Qed.

Lemma token_persisted_at_startup_example :
  startup samples.expiring
  = (samples.expiring, Ret (mkToken "access-0" "refresh" (Some 100)))
  /\ AccessToken <$> disk (main anyOrder 10 samples.expiring) = Some "access-0".
Proof.
  assert (Hs : startup samples.expiring
               = (samples.expiring, Ret (mkToken "access-0" "refresh" (Some 100))))
    by (vm_compute; reflexivity).
  split; [exact Hs|].
  destruct (token_persisted_at_startup anyOrder 10 samples.expiring samples.expiring
              (mkToken "access-0" "refresh" (Some 100)) Hs) as [Hfile Hdisk].
  rewrite Hdisk. exact Hfile.
Defined.


(** ** Playlist creation over a whole run *)

Section WholeRun.
Context {C : Type} `{!Transport C}.

Lemma creates_getRequest label url : creates label (getRequest url) = false.
Proof. reflexivity. Qed.

Lemma creates_appendRequest label playlistId uris :
  creates label (appendRequest playlistId uris) = false.
Proof.
  unfold creates, appendRequest, store_members. simpl.
  rewrite lookup_insert_ne by done. rewrite lookup_empty. reflexivity.
Qed.

Lemma filter_creates_gets label urls :
  List.filter (creates label) (map getRequest urls) = [].
Proof. induction urls as [|u us IH]; [reflexivity | exact IH]. Qed.

Lemma follow_next_requests : forall fuel page items next (s s' : sys C) o,
  follow_next fuel page items next s = (s', o) ->
  exists urls, trace s' = trace s ++ map getRequest urls.
Proof.
  induction fuel as [|fuel IH]; intros page items next s s' o H.
  - exists []. destruct next; inversion H; subst; cbn [map];
      rewrite app_nil_r; reflexivity.
  - assert (Hstay : s' = s -> exists urls, trace s' = trace s ++ map getRequest urls).
    { intros ->. exists []. cbn [map]. rewrite app_nil_r. reflexivity. }
    destruct next as [|b|z|url|l|kvs];
      try (apply Hstay; inversion H; reflexivity).
    revert H. cbn [follow_next as_string]. rewrite bind_orPanic.
    unfold Get. rewrite bind_run, send_run.
    assert (Hone : forall o', (mkSys (Do (getRequest url) (client s)).1
                                     (trace s ++ [getRequest url]), o') = (s', o) ->
                   exists urls, trace s' = trace s ++ map getRequest urls).
    { intros o' H. inversion H; subst. exists [url]. reflexivity. }
    destruct ((Do (getRequest url) (client s)).2) as [resp|]; [|apply Hone].
    unfold decode. destruct (Decode (Body resp) page) as [page'|]; [|apply Hone].
    unfold ret at 1. cbv beta iota. rewrite bind_run.
    destruct (as_slice (page' !! "items")) as [nextItems|]; [|apply Hone].
    cbn [orErr]. unfold ret at 1. cbv beta iota. rewrite bind_run.
    destruct (page' !! "next") as [next'|]; [|apply Hone].
    cbn [orErr]. unfold ret at 1. cbv beta iota. intros H.
    destruct (IH _ _ _ _ _ _ H) as [urls Hu]. cbn [trace] in Hu.
    exists (url :: urls). rewrite Hu, <- app_assoc. reflexivity.
Qed.

Lemma enumerate_requests url fuel (s s' : sys C) o :
  enumerate url fuel s = (s', o) ->
  exists urls, trace s' = trace s ++ map getRequest urls.
Proof.
  unfold enumerate, Get. rewrite bind_run, send_run.
  assert (Hone : forall o', (mkSys (Do (getRequest url) (client s)).1
                                   (trace s ++ [getRequest url]), o') = (s', o) ->
                 exists urls, trace s' = trace s ++ map getRequest urls).
  { intros o' H. inversion H; subst. exists [url]. reflexivity. }
  destruct ((Do (getRequest url) (client s)).2) as [resp|]; [|apply Hone].
  unfold decode. destruct (Decode (Body resp) ∅) as [page|]; [|apply Hone].
  unfold ret at 1. cbv beta iota. rewrite bind_run.
  destruct (as_slice (page !! "items")) as [items|]; [|apply Hone].
  cbn [orErr]. unfold ret at 1. cbv beta iota. rewrite bind_run.
  destruct (page !! "next") as [next|]; [|apply Hone].
  cbn [orErr]. unfold ret at 1. cbv beta iota. intros H.
  destruct (follow_next_requests _ _ _ _ _ _ _ H) as [urls Hu]. cbn [trace] in Hu.
  exists (url :: urls). rewrite Hu, <- app_assoc. reflexivity.
Qed.

Lemma merge_loop_requests pm : forall months (s s' : sys C) o,
  merge_loop pm months s = (s', o) ->
  exists issued,
    trace s' = trace s ++ issued /\
    forall label, List.filter (creates label) issued = [].
Proof.
  induction months as [|[month uris] rest IH]; intros s s' o H.
  - inversion H; subst. exists []. rewrite app_nil_r. auto.
  - cbn [merge_loop] in H. rewrite bind_run in H.
    destruct (merge_month pm month uris s) as [s1 o1] eqn:Hm.
    assert (H1 : exists issued1, trace s1 = trace s ++ issued1 /\
                   forall label, List.filter (creates label) issued1 = []).
    { pose proof (merge_month_cases _ _ _ _ _ _ Hm) as Hc. cbv zeta in Hc.
      destruct Hc as [(_ & -> & _) | (c1 & [(-> & _) | Hc])].
      - exists []. rewrite app_nil_r. auto.
      - eexists. split; [reflexivity|]. intros label. reflexivity.
      - destruct Hc as (resp & playlist & tracks & items & existing
                        & _ & _ & _ & _ & _ & [(_ & -> & _) | (_ & Hrun)]).
        + eexists. split; [reflexivity|]. intros label. reflexivity.
        + unfold orFatal in Hrun. rewrite AddItemsToPlaylist_run in Hrun.
          exists [getRequest (api +:+ "/playlists/" +:+ default "" (pm !! month));
                  appendRequest (default "" (pm !! month)) (newUris existing uris)].
          split.
          * destruct ((Do _ _).2) in Hrun; inversion Hrun; subst; cbn [trace];
              rewrite <- app_assoc; reflexivity.
          * intros label. cbn [List.filter].
            rewrite creates_getRequest, creates_appendRequest. reflexivity. }
    destruct H1 as (issued1 & Ht1 & Hf1).
    destruct o1 as [[]|e|e| |]; try (inversion H; subst; eauto; fail).
    destruct (IH _ _ _ H) as (issued2 & Ht2 & Hf2).
    exists (issued1 ++ issued2). split.
    + rewrite Ht2, Ht1, app_assoc. reflexivity.
    + intros label. rewrite List.filter_app, Hf1, Hf2. reflexivity.
Qed.

(** Over a whole run, at most one request asks for a playlist of a given
    name to be created. *)
Lemma sync_creates_at_most_once rangeOrder fuel (s s' : sys C) o label :
  sync rangeOrder fuel s = (s', o) ->
  exists issued,
    trace s' = trace s ++ issued /\
    (length (List.filter (creates label) issued) <= 1)%nat.
Proof.
  unfold sync. rewrite bind_run.
  assert (Hgets : forall (s1 : sys C) urls o1,
            trace s1 = trace s ++ map getRequest urls ->
            (s1, o1) = (s', o) ->
            exists issued, trace s' = trace s ++ issued /\
              (length (List.filter (creates label) issued) <= 1)%nat).
  { intros s1 urls o1 Ht H. inversion H; subst. exists (map getRequest urls).
    split; [assumption|]. rewrite filter_creates_gets. simpl. lia. }
  unfold orFatal at 1, GetCurrentUsersProfile, Get.
  rewrite bind_run, send_run.
  set (s0 := mkSys (Do (getRequest (api +:+ "/me")) (client s)).1
                   (trace s ++ [getRequest (api +:+ "/me")])).
  assert (Ht0 : trace s0 = trace s ++ map getRequest [api +:+ "/me"]) by reflexivity.
  destruct ((Do (getRequest (api +:+ "/me")) (client s)).2) as [resp|];
    [|apply (Hgets s0 _ _ Ht0)].
  unfold decode. destruct (Decode (Body resp) ∅) as [profile|];
    [|apply (Hgets s0 _ _ Ht0)].
  unfold ret at 1. cbv beta iota. rewrite bind_run.
  destruct (as_string (profile !! "id")) as [id|]; [|apply (Hgets s0 _ _ Ht0)].
  cbn [orFatalf]. unfold ret at 1. cbv beta iota. rewrite bind_run.
  unfold orFatal at 1, EnumerateCurrentUsersPlaylists.
  destruct (enumerate (api +:+ "/me/playlists") fuel s0) as [s1 o1] eqn:E1.
  destruct (enumerate_requests _ _ _ _ _ E1) as [urls1 Hu1].
  assert (Ht1 : trace s1 = trace s ++ map getRequest ((api +:+ "/me") :: urls1)).
  { rewrite Hu1, Ht0. cbn [map]. rewrite <- app_assoc. reflexivity. }
  destruct o1 as [playlists|e|e| |]; try apply (Hgets s1 _ _ Ht1).
  rewrite bind_run. unfold orFatal at 1, EnumerateUsersSavedTracks.
  destruct (enumerate (api +:+ "/me/tracks") fuel s1) as [s2 o2] eqn:E2.
  destruct (enumerate_requests _ _ _ _ _ E2) as [urls2 Hu2].
  assert (Ht2 : trace s2 = trace s ++ map getRequest (((api +:+ "/me") :: urls1) ++ urls2)).
  { rewrite Hu2, Ht1, map_app, <- app_assoc. reflexivity. }
  destruct o2 as [tracks|e|e| |]; try apply (Hgets s2 _ _ Ht2).
  rewrite bind_run. unfold stop.
  destruct (make_reverseTracks tracks) as [reverseTracks|e|e| |];
    try apply (Hgets s2 _ _ Ht2).
  rewrite bind_run.
  destruct (bucket_loop id playlists reverseTracks (∅, ∅) s2) as [s3 o3] eqn:E3.
  destruct (bucket_loop_resolution _ _ _ _ _ _ E3) as (issued3 & Ht3 & Hres).
  destruct (Hres label) as (Hle & _).
  assert (Hloop : forall o', (s3, o') = (s', o) ->
            exists issued, trace s' = trace s ++ issued /\
              (length (List.filter (creates label) issued) <= 1)%nat).
  { intros o' H. inversion H; subst.
    exists (map getRequest (((api +:+ "/me") :: urls1) ++ urls2) ++ issued3).
    split; [rewrite Ht3, Ht2, <- app_assoc; reflexivity|].
    rewrite List.filter_app, filter_creates_gets. exact Hle. }
  destruct o3 as [[pm tb]|e|e| |]; try apply Hloop.
  intros H. destruct (merge_loop_requests _ _ _ _ _ H) as (issued4 & Ht4 & Hf4).
  exists (map getRequest (((api +:+ "/me") :: urls1) ++ urls2) ++ issued3 ++ issued4).
  split.
  - rewrite Ht4, Ht3, Ht2, <- !app_assoc. reflexivity.
  - rewrite !List.filter_app, filter_creates_gets, Hf4, app_nil_r. exact Hle.
Qed.

End WholeRun.

(** C3. Playlist resolution.  Whatever the loop over the saved tracks
    does, it asks at most once for a playlist named [label] to be created,
    and not at all when a fetched playlist has that name.  Once the loop has
    gone through a track with that label, the label is resolved for the rest
    of the run, however the run ends: to the id of the first fetched
    playlist of that name if there is one, and otherwise through exactly one
    create-playlist request, which is public, not collaborative and has an
    empty description.  No other part of a run creates playlists: over a
    whole run there is at most one such request for a label. *)
Theorem playlist_resolution {C : Type} `{!Transport C} :
  (forall id playlists reverseTracks (s s' : sys C) o,
     bucket_loop id playlists reverseTracks (∅, ∅) s = (s', o) ->
     exists issued,
       trace s' = trace s ++ issued /\
       forall label,
         (length (List.filter (creates label) issued) <= 1)%nat /\
         (forall p, List.find (has_name label) playlists = Some p ->
                    List.filter (creates label) issued = []) /\
         (forall pre post s1 pm tb,
            reverseTracks = pre ++ post ->
            bucket_loop id playlists pre (∅, ∅) s = (s1, Ret (pm, tb)) ->
            is_Some (tb !! label) ->
            match List.find (has_name label) playlists with
            | Some p => is_Some (playlist_id p) /\ pm !! label = playlist_id p
                        /\ List.filter (creates label) issued = []
            | None => is_Some (pm !! label)
                      /\ List.filter (creates label) issued
                         = [createRequest id label true false ""]
            end))
  /\ (forall rangeOrder fuel (s s' : sys C) o label,
        sync rangeOrder fuel s = (s', o) ->
        exists issued,
          trace s' = trace s ++ issued /\
          (length (List.filter (creates label) issued) <= 1)%nat).
Proof.
  split.
  - intros id playlists reverseTracks s s' o H.
    destruct (bucket_loop_resolution id playlists reverseTracks s s' o H)
      as (issued & Ht & Hl).
    exists issued. split; [exact Ht|]. intros label.
    destruct (Hl label) as (Hle & Hfound & _).
    split; [exact Hle|]. split; [exact Hfound|].
    intros pre post s1 pm tb -> Hpre Hin.
    destruct (bucket_loop_settled id playlists pre post s s1 s' pm tb o label
                Hpre H Hin) as (issued' & Ht' & Hm).
    rewrite Ht in Ht'. apply app_inv_head in Ht'. subst issued'. exact Hm.
  - intros rangeOrder fuel s s' o label.
    apply sync_creates_at_most_once.
Qed.

Lemma playlist_resolution_example :
  samples.april_run = (samples.april_run.1, samples.april_run.2) /\
  exists issued,
    trace samples.april_run.1 = [] ++ issued /\
    List.filter (creates "April '24") issued
    = [createRequest "u1" "April '24" true false ""].
Proof.
  split; [apply surjective_pairing|].
  destruct (proj1 playlist_resolution "u1" [] samples.april_tracks
              (mkSys samples.fresh_user []) samples.april_run.1 samples.april_run.2
              (surjective_pairing _))
    as (issued & Ht & Hl).
  exists issued. split; [exact Ht|].
  destruct (Hl "April '24") as (_ & _ & Hdone).
  assert (Hrun : exists pm tb,
             bucket_loop "u1" [] samples.april_tracks (∅, ∅)
                         (mkSys samples.fresh_user [])
             = (samples.april_run.1, Ret (pm, tb))
             /\ is_Some (tb !! "April '24")).
  { eexists _, _. split; [vm_compute; reflexivity|]. vm_compute. eauto. }
  destruct Hrun as (pm & tb & Ho & Hin).
  exact (proj2 (Hdone samples.april_tracks [] _ pm tb
                      (eq_sym (app_nil_r _)) Ho Hin)).
Defined.

(** * Further properties of the code *)

(** ** The pager (lines 74-191) *)

(** X1. When every page of a list carries its items and its [next] link,
    null on the last page, the two Enumerate functions return the items of
    all pages in page order, having sent one GET for each page. *)
Theorem all_pages_are_returned {C : Type} `{!Transport C}
    pages (c c' : C) reqs fuel t :
  (length pages <= S fuel)%nat ->
  (serves c (api +:+ "/me/tracks") pages reqs c' ->
   EnumerateUsersSavedTracks fuel (mkSys c t)
   = (mkSys c' (t ++ reqs), Ret (concat pages)))
  /\ (serves c (api +:+ "/me/playlists") pages reqs c' ->
      EnumerateCurrentUsersPlaylists fuel (mkSys c t)
      = (mkSys c' (t ++ reqs), Ret (concat pages))).
Proof.
  intros Hfuel. split; intros Hs.
  - unfold EnumerateUsersSavedTracks. apply enumerate_all_pages; assumption.
  - unfold EnumerateCurrentUsersPlaylists. apply enumerate_all_pages; assumption.
Qed.

Lemma all_pages_are_returned_example :
  serves samples.three_playlists (api +:+ "/me/playlists")
         [[Service.playlistItem (Service.mkPlaylist "pl0" "January '24" []);
           Service.playlistItem (Service.mkPlaylist "pl1" "February '24" [])];
          [Service.playlistItem (Service.mkPlaylist "pl2" "March '24" [])]]
         [getRequest (api +:+ "/me/playlists");
          getRequest (api +:+ "/me/playlists?offset=2")]
         samples.three_playlists
  /\ (EnumerateCurrentUsersPlaylists 1 (mkSys samples.three_playlists [])).2
     = Ret (map Service.playlistItem (Service.playlists samples.three_playlists)).
Proof.
  assert (Hs : serves samples.three_playlists (api +:+ "/me/playlists")
         [[Service.playlistItem (Service.mkPlaylist "pl0" "January '24" []);
           Service.playlistItem (Service.mkPlaylist "pl1" "February '24" [])];
          [Service.playlistItem (Service.mkPlaylist "pl2" "March '24" [])]]
         [getRequest (api +:+ "/me/playlists");
          getRequest (api +:+ "/me/playlists?offset=2")]
         samples.three_playlists).
  { eapply (serves_more samples.three_playlists (api +:+ "/me/playlists")
              _ _ _ (api +:+ "/me/playlists?offset=2")).
    - vm_compute. reflexivity.
    - reflexivity.
    - vm_compute. reflexivity.
    - vm_compute. reflexivity.
    - eapply serves_last.
      + vm_compute. reflexivity.
      + reflexivity.
      + vm_compute. reflexivity.
      + vm_compute. reflexivity. }
  split; [exact Hs|].
  match type of Hs with
  | serves _ _ ?pages _ _ =>
    assert (Hlen : (length pages <= 2)%nat) by (simpl; lia)
  end.
  rewrite (proj2 (all_pages_are_returned _ _ _ _ 1%nat [] Hlen) Hs).
  reflexivity.
Defined.

(** X2. A defect of the first page ends the fetch with an error and
    nothing else, after the one request: a transport error, a body that is
    not a JSON object or null, items that are not an array, or no [next]
    member. *)
Theorem first_page_defects_are_errors {C : Type} `{!Transport C}
    url fuel (s : sys C) c' :
  let sent := mkSys c' (trace s ++ [getRequest url]) in
  (Do (getRequest url) (client s) = (c', None) ->
   enumerate url fuel s = (sent, Err TransportError))
  /\ (forall resp,
        Do (getRequest url) (client s) = (c', Some resp) ->
        Decode (Body resp) ∅ = None ->
        enumerate url fuel s = (sent, Err DecodeError))
  /\ (forall resp page,
        Do (getRequest url) (client s) = (c', Some resp) ->
        Decode (Body resp) ∅ = Some page ->
        as_slice (page !! "items") = None ->
        enumerate url fuel s = (sent, Err (UnexpectedType "items")))
  /\ (forall resp page items,
        Do (getRequest url) (client s) = (c', Some resp) ->
        Decode (Body resp) ∅ = Some page ->
        as_slice (page !! "items") = Some items ->
        page !! "next" = None ->
        enumerate url fuel s = (sent, Err (UnexpectedType "next"))).
Proof.
  intros sent. unfold enumerate. repeat split.
  - intros HDo. unfold Get. rewrite bind_run, send_run, HDo. reflexivity.
  - intros resp HDo HD. rewrite (bind_Get _ _ _ _ _ HDo).
    unfold bind, decode. rewrite HD. reflexivity.
  - intros resp page HDo HD Hi. rewrite (bind_Get _ _ _ _ _ HDo).
    rewrite (bind_decode resp ∅ page) by assumption. rewrite Hi. reflexivity.
  - intros resp page items HDo HD Hi Hn. rewrite (bind_Get _ _ _ _ _ HDo).
    rewrite (bind_decode resp ∅ page) by assumption.
    rewrite Hi, bind_orErr, Hn. reflexivity.
Qed.

Lemma first_page_defects_are_errors_example :
  enumerate "https://list/1" 3 (mkSys samples.headless_list_client [])
  = (mkSys samples.headless_list_client [getRequest "https://list/1"],
     Err (UnexpectedType "next")).
Proof.
  refine (proj2 (proj2 (proj2
            (first_page_defects_are_errors "https://list/1" 3
               (mkSys samples.headless_list_client []) samples.headless_list_client)))
            (mkResponse 200 (Some (Obj [("items", Arr [Str "a"])])))
            (store_members ∅ [("items", Arr [Str "a"])]) [Str "a"] _ _ _ _).
  - reflexivity.
  - reflexivity.
  - vm_compute. reflexivity.
  - vm_compute. reflexivity.
Defined.

(** X3. The pager only reads: whatever the service answers, every request
    that it sends is a GET, and the first one goes to the URL of the
    list. *)
Theorem pager_only_reads {C : Type} `{!Transport C} url fuel (s s' : sys C) o :
  enumerate url fuel s = (s', o) ->
  exists urls, trace s' = trace s ++ map getRequest (url :: urls).
Proof.
  unfold enumerate, Get. rewrite bind_run, send_run.
  assert (Hone : forall o', (mkSys (Do (getRequest url) (client s)).1
                                   (trace s ++ [getRequest url]), o') = (s', o) ->
                 exists urls, trace s' = trace s ++ map getRequest (url :: urls)).
  { intros o' H. inversion H; subst. exists []. reflexivity. }
  destruct ((Do (getRequest url) (client s)).2) as [resp|]; [|apply Hone].
  unfold decode. destruct (Decode (Body resp) ∅) as [page|]; [|apply Hone].
  unfold ret at 1. cbv beta iota. rewrite bind_run.
  destruct (as_slice (page !! "items")) as [items|]; [|apply Hone].
  cbn [orErr]. unfold ret at 1. cbv beta iota. rewrite bind_run.
  destruct (page !! "next") as [next|]; [|apply Hone].
  cbn [orErr]. unfold ret at 1. cbv beta iota. intros H.
  destruct (follow_next_requests _ _ _ _ _ _ _ H) as [urls Hu]. cbn [trace] in Hu.
  exists urls. rewrite Hu, <- app_assoc. reflexivity.
Qed.

Lemma pager_only_reads_example :
  exists urls,
    trace (enumerate (api +:+ "/me/playlists") 1
                     (mkSys samples.three_playlists [])).1
    = [] ++ map getRequest ((api +:+ "/me/playlists") :: urls).
Proof.
  apply (pager_only_reads (api +:+ "/me/playlists") 1
           (mkSys samples.three_playlists []) _
           (enumerate (api +:+ "/me/playlists") 1
                      (mkSys samples.three_playlists [])).2).
  apply surjective_pairing.
Defined.

(** ** The loop over the saved tracks (lines 477-544) *)

Lemma month_uris_cons label lu lus :
  month_uris label (lu :: lus)
  = if decide (lu.1 = label) then lu.2 :: month_uris label lus
    else month_uris label lus.
Proof.
  unfold month_uris. rewrite filter_cons.
  destruct (decide (lu.1 = label)); reflexivity.
Qed.

Lemma lookup_buckets lus : forall (tb : gmap string (list string)) label,
  foldl add_to_month tb lus !! label
  = match month_uris label lus with
    | [] => tb !! label
    | us => Some (default [] (tb !! label) ++ us)
    end.
Proof.
  induction lus as [|lu lus IH]; intros tb label; [reflexivity|].
  cbn [foldl]. rewrite IH, month_uris_cons. unfold add_to_month.
  destruct (decide (lu.1 = label)) as [<-|Hne].
  - rewrite lookup_insert_eq.
    destruct (month_uris lu.1 lus) as [|u us]; [reflexivity|].
    change (default [] (Some (default [] (tb !! lu.1) ++ [lu.2])))
      with (default [] (tb !! lu.1) ++ [lu.2]).
    rewrite <- app_assoc. reflexivity.
  - rewrite lookup_insert_ne by assumption. reflexivity.
Qed.

(** X4. When the loop over the tracks completes, the pending sequence of a
    label holds the URIs of the tracks with that label and no others, in
    the order in which the loop went through them, repeated URIs
    included; a label without tracks has no sequence. *)
Theorem buckets_hold_month_uris {C : Type} `{!Transport C}
    id playlists tracks (s s' : sys C) pm tb :
  bucket_loop id playlists tracks (∅, ∅) s = (s', Ret (pm, tb)) ->
  exists lus,
    Forall2 (fun t lu => saved_label_uri t = Some lu) tracks lus /\
    forall label,
      tb !! label = match month_uris label lus with
                    | [] => None
                    | us => Some us
                    end.
Proof.
  intros H. destruct (bucket_loop_buckets id playlists tracks s s' pm tb H)
    as (lus & HF & ->).
  exists lus. split; [assumption|]. intros label.
  rewrite lookup_buckets, lookup_empty. reflexivity.
Qed.

Lemma buckets_hold_month_uris_example :
  exists pm tb lus,
    samples.april_run.2 = Ret (pm, tb) /\
    Forall2 (fun t lu => saved_label_uri t = Some lu) samples.april_tracks lus /\
    tb !! "April '24" = match month_uris "April '24" lus with
                        | [] => None
                        | us => Some us
                        end.
Proof.
  assert (Hrun : exists pm tb,
             bucket_loop "u1" [] samples.april_tracks (∅, ∅)
                         (mkSys samples.fresh_user [])
             = (samples.april_run.1, Ret (pm, tb))
             /\ samples.april_run.2 = Ret (pm, tb)).
  { eexists _, _. split; vm_compute; reflexivity. }
  destruct Hrun as (pm & tb & Hrun & Ho).
  destruct (buckets_hold_month_uris "u1" [] samples.april_tracks
              (mkSys samples.fresh_user []) samples.april_run.1 pm tb Hrun)
    as (lus & HF & Hl).
  exists pm, tb, lus. split; [exact Ho|]. split; [exact HF|]. apply Hl.
Defined.

Lemma month_uris_reverse label lus :
  month_uris label (reverse lus) = reverse (month_uris label lus).
Proof. unfold month_uris. rewrite filter_reverse, fmap_reverse. reflexivity. Qed.

(** X5. For a library of even length the tracks are processed
    oldest-first: the copy gives the reversal of the fetched list, and when
    the loop over it completes, the pending sequence of a label is the
    URIs of its tracks in the reverse of the fetched order. *)
Theorem even_library_is_bucketed_oldest_first {C : Type} `{!Transport C}
    tracks lus id playlists (s s' : sys C) pm tb :
  Nat.even (length tracks) = true ->
  Forall2 (fun t lu => saved_label_uri t = Some lu) tracks lus ->
  bucket_loop id playlists (reverse tracks) (∅, ∅) s = (s', Ret (pm, tb)) ->
  make_reverseTracks tracks = Ret (reverse tracks)
  /\ forall label,
       tb !! label = match reverse (month_uris label lus) with
                     | [] => None
                     | us => Some us
                     end.
Proof.
  intros Hev HF H. split.
  - rewrite make_reverseTracks_spec, Hev. reflexivity.
  - destruct (bucket_loop_buckets id playlists _ s s' pm tb H) as (lus' & HF' & ->).
    assert (lus' = reverse lus) as ->.
    { apply (Forall2_unique _ _ _ _ HF' (Forall2_reverse _ _ _ HF)).
      intros x y1 y2 H1 H2. congruence. }
    intros label. rewrite lookup_buckets, lookup_empty, month_uris_reverse.
    reflexivity.
Qed.

Lemma even_library_is_bucketed_oldest_first_example :
  let fetched := [samples.february_track; samples.january_track] in
  exists pm tb,
    (bucket_loop "u1" [] (reverse fetched) (∅, ∅) (mkSys samples.fresh_user [])).2
    = Ret (pm, tb)
    /\ tb !! "January '24" = Some ["A"].
Proof.
  intros fetched.
  assert (Hrun : exists s' pm tb,
             bucket_loop "u1" [] (reverse fetched) (∅, ∅)
                         (mkSys samples.fresh_user []) = (s', Ret (pm, tb))).
  { eexists _, _, _. vm_compute. reflexivity. }
  destruct Hrun as (s' & pm & tb & Hrun).
  exists pm, tb. split; [rewrite Hrun; reflexivity|].
  assert (HF : Forall2 (fun t lu => saved_label_uri t = Some lu) fetched
                 [("February '24", "B"); ("January '24", "A")]).
  { repeat constructor; vm_compute; reflexivity. }
  destruct (even_library_is_bucketed_oldest_first fetched _ "u1" []
              (mkSys samples.fresh_user []) s' pm tb eq_refl HF Hrun) as [_ Hl].
  rewrite (Hl "January '24"). vm_compute. reflexivity.
Defined.

(** X6. A saved track that cannot be read stops the run before anything
    is sent for it.  An entry that is not an object, or whose [added_at] is
    not a string, or whose timestamp does not parse, ends in [log.Fatal];
    an entry whose [track] is not an object, or whose [uri] is not a
    string, panics: those two assertions have no comma-ok, and the test of
    [ok] after the first is dead. *)
Theorem unreadable_track_stops_the_run {C : Type} `{!Transport C}
    id playlists st track (s : sys C) :
  (as_map (Some track) = None ->
   bucket_step id playlists st track s = (s, Fatal (UnexpectedType "track")))
  /\ (forall trackMap,
        as_map (Some track) = Some trackMap ->
        as_string (trackMap !! "added_at") = None ->
        bucket_step id playlists st track s = (s, Fatal (UnexpectedType "added_at")))
  /\ (forall trackMap addedAt,
        as_map (Some track) = Some trackMap ->
        as_string (trackMap !! "added_at") = Some addedAt ->
        as_map (trackMap !! "track") = None ->
        bucket_step id playlists st track s = (s, Panic))
  /\ (forall trackMap addedAt inner,
        as_map (Some track) = Some trackMap ->
        as_string (trackMap !! "added_at") = Some addedAt ->
        as_map (trackMap !! "track") = Some inner ->
        targetPlaylistName addedAt = None ->
        bucket_step id playlists st track s = (s, Fatal ParseError))
  /\ (forall trackMap addedAt inner name,
        as_map (Some track) = Some trackMap ->
        as_string (trackMap !! "added_at") = Some addedAt ->
        as_map (trackMap !! "track") = Some inner ->
        targetPlaylistName addedAt = Some name ->
        as_string (inner !! "uri") = None ->
        bucket_step id playlists st track s = (s, Panic)).
Proof.
  destruct st as [pm tb]. unfold bucket_step. repeat split.
  - intros ->. reflexivity.
  - intros trackMap -> E2. rewrite bind_orFatalf, E2. reflexivity.
  - intros trackMap addedAt -> E2 E3.
    rewrite bind_orFatalf, E2, bind_orFatalf, E3. reflexivity.
  - intros trackMap addedAt inner -> E2 E3 E4.
    rewrite bind_orFatalf, E2, bind_orFatalf, E3, bind_orPanic, E4. reflexivity.
  - intros trackMap addedAt inner name -> E2 E3 E4 E5.
    rewrite bind_orFatalf, E2, bind_orFatalf, E3, bind_orPanic, E4, bind_ret, E5.
    reflexivity.
Qed.

Lemma unreadable_track_stops_the_run_example :
  bucket_step "u1" [] (∅, ∅) samples.trackless (mkSys samples.fresh_user [])
  = (mkSys samples.fresh_user [], Panic).
Proof.
  refine (proj1 (proj2 (proj2
            (unreadable_track_stops_the_run "u1" [] (∅, ∅) samples.trackless
               (mkSys samples.fresh_user []))))
            (store_members ∅ [("added_at", Str "2024-03-05T12:00:00Z");
                              ("track", Null)])
            "2024-03-05T12:00:00Z" _ _ _).
  - reflexivity.
  - vm_compute. reflexivity.
  - vm_compute. reflexivity.
Defined.

(** X7. A create-playlist response without a string [id] panics the run
    after the request has been sent: [CreatePlaylist] does not look at the
    status, so the body of a refusal is taken for the playlist, and the
    assertion on its [id] has no comma-ok. *)
Theorem create_without_id_panics {C : Type} `{!Transport C}
    id playlists pm tb track lu (s : sys C) c' resp kvs :
  saved_label_uri track = Some lu ->
  pm !! lu.1 = None ->
  lookup_by_name playlists lu.1 = Ret None ->
  Do (createRequest id lu.1 true false "") (client s) = (c', Some resp) ->
  Body resp = Some (Obj kvs) ->
  as_string (store_members ∅ kvs !! "id") = None ->
  bucket_step id playlists (pm, tb) track s
  = (mkSys c' (trace s ++ [createRequest id lu.1 true false ""]), Panic).
Proof.
  intros Hlu Hpm Hlook HDo HB Hid.
  unfold saved_label_uri in Hlu. unfold bucket_step.
  destruct (as_map (Some track)) as [trackMap|] eqn:E1; [|discriminate].
  cbn [mbind option_bind] in Hlu.
  destruct (as_string (trackMap !! "added_at")) as [addedAt|] eqn:E2; [|discriminate].
  cbn [mbind option_bind] in Hlu.
  destruct (as_map (trackMap !! "track")) as [inner|] eqn:E3; [|discriminate].
  cbn [mbind option_bind] in Hlu.
  destruct (targetPlaylistName addedAt) as [name|] eqn:E4; [|discriminate].
  cbn [mbind option_bind] in Hlu.
  destruct (as_string (inner !! "uri")) as [uri|] eqn:E5; [|discriminate].
  inversion Hlu; subst lu. cbn [fst snd] in *.
  rewrite bind_orFatalf, E2, bind_orFatalf, E3, bind_orPanic, E4, bind_ret, E5,
    bind_orPanic.
  rewrite Hpm. rewrite bind_run. unfold stop. rewrite Hlook.
  rewrite bind_run. unfold orFatal, CreatePlaylist.
  rewrite bind_run, send_run, HDo. cbn [fst snd].
  unfold decode, Decode. rewrite HB. unfold ret at 1. cbv beta iota.
  rewrite bind_run. rewrite Hid. reflexivity.
Qed.

Lemma create_without_id_panics_example :
  bucket_step "u1" [] (∅, ∅) samples.march_track (mkSys samples.failing_client [])
  = (mkSys samples.failing_client [createRequest "u1" "March '24" true false ""],
     Panic).
Proof.
  refine (create_without_id_panics "u1" [] ∅ ∅ samples.march_track
            ("March '24", "M") (mkSys samples.failing_client [])
            samples.failing_client
            (mkResponse 500 (Some (Obj [("error",
               Obj [("status", Number 500); ("message", Str "Server error")])])))
            [("error", Obj [("status", Number 500); ("message", Str "Server error")])]
            _ _ _ _ _ _).
  - vm_compute. reflexivity.
  - reflexivity.
  - reflexivity.
  - reflexivity.
  - reflexivity.
  - vm_compute. reflexivity.
Defined.

(** ** The merge (lines 546-598) *)

(** X8. A playlist that cannot be fetched or read ends the run in
    [log.Fatal] after the one request, with nothing appended.  The status
    of the response plays no part: the body of a refusal, having no
    [tracks] object, is reported as an unexpected type for tracks. *)
Theorem unreadable_playlist_is_fatal {C : Type} `{!Transport C}
    pm month uris (s : sys C) c' :
  uris <> [] ->
  let url := api +:+ "/playlists/" +:+ default "" (pm !! month) in
  let sent := mkSys c' (trace s ++ [getRequest url]) in
  (Do (getRequest url) (client s) = (c', None) ->
   merge_month pm month uris s = (sent, Fatal TransportError))
  /\ (forall resp,
        Do (getRequest url) (client s) = (c', Some resp) ->
        Decode (Body resp) ∅ = None ->
        merge_month pm month uris s = (sent, Fatal DecodeError))
  /\ (forall resp playlist,
        Do (getRequest url) (client s) = (c', Some resp) ->
        Decode (Body resp) ∅ = Some playlist ->
        as_map (playlist !! "tracks") = None ->
        merge_month pm month uris s = (sent, Fatal (UnexpectedType "tracks")))
  /\ (forall resp playlist tracks,
        Do (getRequest url) (client s) = (c', Some resp) ->
        Decode (Body resp) ∅ = Some playlist ->
        as_map (playlist !! "tracks") = Some tracks ->
        as_slice (tracks !! "items") = None ->
        merge_month pm month uris s = (sent, Fatal (UnexpectedType "items"))).
Proof.
  intros Hne url sent. subst url sent. unfold merge_month.
  destruct uris as [|u us]; [congruence|].
  cbn [length]. rewrite (proj2 (Z.ltb_lt 0 _)) by lia.
  rewrite bind_run. unfold orFatal, GetPlaylist.
  repeat split.
  - intros HDo. unfold Get. rewrite bind_run, send_run, HDo. reflexivity.
  - intros resp HDo HD. rewrite (bind_Get _ _ _ _ _ HDo).
    unfold decode. rewrite HD. reflexivity.
  - intros resp playlist HDo HD Ht. rewrite (bind_Get _ _ _ _ _ HDo).
    unfold decode. rewrite HD. unfold ret at 1. cbv beta iota.
    rewrite Ht. reflexivity.
  - intros resp playlist tracks HDo HD Ht Hi. rewrite (bind_Get _ _ _ _ _ HDo).
    unfold decode. rewrite HD. unfold ret at 1. cbv beta iota.
    rewrite Ht, bind_orFatalf, Hi. reflexivity.
Qed.

Lemma unreadable_playlist_is_fatal_example :
  merge_month ∅ "January '24" ["A"] (mkSys samples.fresh_user [])
  = (mkSys samples.fresh_user [getRequest (api +:+ "/playlists/")],
     Fatal (UnexpectedType "tracks")).
Proof.
  refine (proj1 (proj2 (proj2
            (unreadable_playlist_is_fatal ∅ "January '24" ["A"]
               (mkSys samples.fresh_user []) samples.fresh_user _)))
            Service.notFound
            (store_members ∅ [("error", Obj [("status", Number 404)])]) _ _ _).
  - discriminate.
  - vm_compute. reflexivity.
  - reflexivity.
  - vm_compute. reflexivity.
Defined.

Lemma collect_existing_gap pre : forall present item itemMap post (acc : gset string),
  Forall2 (fun i u => item_uri i = Some u) pre present ->
  as_map (Some item) = Some itemMap ->
  as_map (itemMap !! "track") = None ->
  collect_existing (pre ++ item :: post) acc = Fatal (UnexpectedType "track").
Proof.
  induction pre as [|i pre IH]; intros present item itemMap post acc HF Hi Ht.
  - cbn [app collect_existing]. rewrite Hi, Ht. reflexivity.
  - inversion HF as [|? u ? us Hu HF']; subst. cbn [app collect_existing].
    unfold item_uri in Hu.
    destruct (as_map (Some i)) as [im|]; [|discriminate].
    cbn [mbind option_bind] in Hu.
    destruct (as_map (im !! "track")) as [tm|]; [|discriminate].
    cbn [mbind option_bind] in Hu. rewrite Hu.
    apply (IH us item itemMap); assumption.
Qed.

(** X9. A playlist item without a track object (the service lists a
    removed track so) ends the run in [log.Fatalf] for "track": whatever
    is pending for the month, nothing is appended. *)
Theorem item_without_track_stops_the_merge {C : Type} `{!Transport C}
    pm month uris (s : sys C) c' resp playlist tracks
    pre present item itemMap post :
  uris <> [] ->
  Do (getRequest (api +:+ "/playlists/" +:+ default "" (pm !! month))) (client s)
  = (c', Some resp) ->
  Decode (Body resp) ∅ = Some playlist ->
  as_map (playlist !! "tracks") = Some tracks ->
  as_slice (tracks !! "items") = Some (pre ++ item :: post) ->
  Forall2 (fun i u => item_uri i = Some u) pre present ->
  as_map (Some item) = Some itemMap ->
  as_map (itemMap !! "track") = None ->
  merge_month pm month uris s
  = (mkSys c' (trace s ++ [getRequest (api +:+ "/playlists/"
                                       +:+ default "" (pm !! month))]),
     Fatal (UnexpectedType "track")).
Proof.
  intros Hne HDo HD Ht Hi HF Him Htr. unfold merge_month.
  destruct uris as [|u us]; [congruence|].
  cbn [length]. rewrite (proj2 (Z.ltb_lt 0 _)) by lia.
  rewrite bind_run. unfold orFatal, GetPlaylist.
  rewrite (bind_Get _ _ _ _ _ HDo). unfold decode. rewrite HD.
  unfold ret at 1. cbv beta iota.
  rewrite Ht, bind_orFatalf, Hi, bind_orFatalf, bind_run. unfold stop.
  rewrite (collect_existing_gap pre present item itemMap post ∅ HF Him Htr).
  reflexivity.
Qed.

Lemma item_without_track_stops_the_merge_example :
  let pm : gmap string string := {["January '24" := "p1"]} in
  merge_month pm "January '24" ["C"] (mkSys samples.gappy_playlist_client [])
  = (mkSys samples.gappy_playlist_client [getRequest (api +:+ "/playlists/p1")],
     Fatal (UnexpectedType "track")).
Proof.
  intros pm.
  pose (tk := [("items", Arr [Service.trackItem "A"; Obj [("track", Null)];
                              Service.trackItem "B"]);
               ("next", Null)]).
  refine (item_without_track_stops_the_merge pm "January '24" ["C"]
            (mkSys samples.gappy_playlist_client []) samples.gappy_playlist_client
            (mkResponse 200 (Some (Obj [("tracks", Obj tk)])))
            (store_members ∅ [("tracks", Obj tk)]) (store_members ∅ tk)
            [Service.trackItem "A"] ["A"] (Obj [("track", Null)])
            (store_members ∅ [("track", Null)]) [Service.trackItem "B"]
            _ _ _ _ _ _ _ _).
  - discriminate.
  - vm_compute. reflexivity.
  - reflexivity.
  - vm_compute. reflexivity.
  - vm_compute. reflexivity.
  - repeat constructor.
  - reflexivity.
  - vm_compute. reflexivity.
Defined.

(** X10. The delta drops every pending URI that the playlist page shows
    and keeps every other one as often as it is pending: a URI that is
    pending twice and not on the page is appended twice. *)
Theorem delta_keeps_pending_duplicates
    (existing : gset string) (pending : list string) (u : string) :
  filter (fun x => x = u) (newUris existing pending)
  = if decide (u ∈ existing) then [] else filter (fun x => x = u) pending.
Proof.
  rewrite newUris_filter.
  induction pending as [|x rest IH].
  - destruct (decide (u ∈ existing)); reflexivity.
  - rewrite (filter_cons (fun x => x ∉ existing)).
    destruct (decide (x ∉ existing)) as [Hout|Hin].
    + rewrite !(filter_cons (fun x => x = u)), IH.
      destruct (decide (x = u)) as [->|Hne]; [|reflexivity].
      rewrite decide_False by assumption.
      destruct (decide (u ∈ existing)); [contradiction|reflexivity].
    + rewrite IH, (filter_cons (fun x => x = u)).
      destruct (decide (x = u)) as [->|Hne]; [|reflexivity].
      destruct (decide (u ∈ existing)) as [|Hout]; [reflexivity|].
      exfalso. apply Hin. assumption.
Qed.

Lemma merge_loop_app {C : Type} `{!Transport C} pm pre : forall post (s : sys C),
  merge_loop pm (pre ++ post) s
  = bind (merge_loop pm pre) (fun _ => merge_loop pm post) s.
Proof.
  induction pre as [|[month uris] pre IH]; intros post s.
  - reflexivity.
  - cbn [app merge_loop]. rewrite !bind_run.
    destruct (merge_month pm month uris s) as [s1 [[]|e|e| |]]; try reflexivity.
    rewrite IH, bind_run. reflexivity.
Qed.

(** X11. The merge stops at the first month that fails: the months that
    come after it in the order of iteration are not fetched and get
    nothing appended, and the run ends as that month ended. *)
Theorem merge_stops_at_first_failure {C : Type} `{!Transport C}
    pm pre month uris post (s s1 s2 : sys C) o :
  merge_loop pm pre s = (s1, Ret tt) ->
  merge_month pm month uris s1 = (s2, o) ->
  aborted o ->
  merge_loop pm (pre ++ (month, uris) :: post) s = (s2, o).
Proof.
  intros Hpre Hm Ha. rewrite merge_loop_app, bind_run, Hpre.
  cbn [merge_loop]. rewrite bind_run, Hm.
  destruct o as [[]|e|e| |]; [contradiction|reflexivity..].
Qed.

Lemma merge_stops_at_first_failure_example :
  merge_loop ∅ ([] ++ ("January '24", ["A"]) :: [("February '24", ["B"])])
             (mkSys samples.fresh_user [])
  = (mkSys samples.fresh_user [getRequest (api +:+ "/playlists/")],
     Fatal (UnexpectedType "tracks")).
Proof.
  apply (merge_stops_at_first_failure ∅ [] "January '24" ["A"]
           [("February '24", ["B"])] (mkSys samples.fresh_user [])
           (mkSys samples.fresh_user [])).
  - reflexivity.
  - vm_compute. reflexivity.
  - exact I.
Defined.

(** ** A whole run (lines 448-598) *)

Section RunRequests.
Context {C : Type} `{!Transport C}.

Lemma run_request_gets id urls : Forall (run_request id) (map getRequest urls).
Proof. induction urls; constructor; [apply run_get | assumption]. Qed.

Lemma run_request_creates id labels :
  Forall (run_request id) (map (fun l => createRequest id l true false "") labels).
Proof. induction labels; constructor; [apply run_create | assumption]. Qed.

Lemma merge_loop_run_requests id pm : forall months (s s' : sys C) o,
  merge_loop pm months s = (s', o) ->
  exists issued, trace s' = trace s ++ issued /\ Forall (run_request id) issued.
Proof.
  induction months as [|[month uris] rest IH]; intros s s' o H.
  - inversion H; subst. exists []. rewrite app_nil_r. auto.
  - cbn [merge_loop] in H. rewrite bind_run in H.
    destruct (merge_month pm month uris s) as [s1 o1] eqn:Hm.
    assert (H1 : exists issued1, trace s1 = trace s ++ issued1
                                 /\ Forall (run_request id) issued1).
    { pose proof (merge_month_cases _ _ _ _ _ _ Hm) as Hc. cbv zeta in Hc.
      destruct Hc as [(_ & -> & _) | (c1 & [(-> & _) | Hc])].
      - exists []. rewrite app_nil_r. auto.
      - eexists. split; [reflexivity|]. repeat constructor.
      - destruct Hc as (resp & playlist & tracks & items & existing
                        & _ & _ & _ & _ & _ & [(_ & -> & _) | (Hn & Hrun)]).
        + eexists. split; [reflexivity|]. repeat constructor.
        + unfold orFatal in Hrun. rewrite AddItemsToPlaylist_run in Hrun.
          exists [getRequest (api +:+ "/playlists/" +:+ default "" (pm !! month));
                  appendRequest (default "" (pm !! month)) (newUris existing uris)].
          split.
          * destruct ((Do _ _).2) in Hrun; inversion Hrun; subst; cbn [trace];
              rewrite <- app_assoc; reflexivity.
          * constructor; [apply run_get|]. constructor; [|constructor].
            apply run_append. assumption. }
    destruct H1 as (issued1 & Ht1 & Hf1).
    destruct o1 as [[]|e|e| |]; try (inversion H; subst; eauto; fail).
    destruct (IH _ _ _ H) as (issued2 & Ht2 & Hf2).
    exists (issued1 ++ issued2). split.
    + rewrite Ht2, Ht1, app_assoc. reflexivity.
    + apply Forall_app. auto.
Qed.

Lemma sync_run_requests rangeOrder fuel (s s' : sys C) o :
  sync rangeOrder fuel s = (s', o) ->
  exists issued id,
    trace s' = trace s ++ issued /\ Forall (run_request id) issued.
Proof.
  unfold sync. rewrite bind_run.
  assert (Hgets : forall (s1 : sys C) urls o1,
            trace s1 = trace s ++ map getRequest urls ->
            (s1, o1) = (s', o) ->
            exists issued id,
              trace s' = trace s ++ issued /\ Forall (run_request id) issued).
  { intros s1 urls o1 Ht H. inversion H; subst.
    exists (map getRequest urls), "". split; [assumption|]. apply run_request_gets. }
  unfold orFatal at 1, GetCurrentUsersProfile, Get.
  rewrite bind_run, send_run.
  set (s0 := mkSys (Do (getRequest (api +:+ "/me")) (client s)).1
                   (trace s ++ [getRequest (api +:+ "/me")])).
  assert (Ht0 : trace s0 = trace s ++ map getRequest [api +:+ "/me"]) by reflexivity.
  destruct ((Do (getRequest (api +:+ "/me")) (client s)).2) as [resp|];
    [|apply (Hgets s0 _ _ Ht0)].
  unfold decode. destruct (Decode (Body resp) ∅) as [profile|];
    [|apply (Hgets s0 _ _ Ht0)].
  unfold ret at 1. cbv beta iota. rewrite bind_run.
  destruct (as_string (profile !! "id")) as [id|]; [|apply (Hgets s0 _ _ Ht0)].
  cbn [orFatalf]. unfold ret at 1. cbv beta iota. rewrite bind_run.
  unfold orFatal at 1, EnumerateCurrentUsersPlaylists.
  destruct (enumerate (api +:+ "/me/playlists") fuel s0) as [s1 o1] eqn:E1.
  destruct (enumerate_requests _ _ _ _ _ E1) as [urls1 Hu1].
  assert (Ht1 : trace s1 = trace s ++ map getRequest ((api +:+ "/me") :: urls1)).
  { rewrite Hu1, Ht0. cbn [map]. rewrite <- app_assoc. reflexivity. }
  destruct o1 as [playlists|e|e| |]; try apply (Hgets s1 _ _ Ht1).
  rewrite bind_run. unfold orFatal at 1, EnumerateUsersSavedTracks.
  destruct (enumerate (api +:+ "/me/tracks") fuel s1) as [s2 o2] eqn:E2.
  destruct (enumerate_requests _ _ _ _ _ E2) as [urls2 Hu2].
  assert (Ht2 : trace s2 = trace s ++ map getRequest (((api +:+ "/me") :: urls1) ++ urls2)).
  { rewrite Hu2, Ht1, map_app, <- app_assoc. reflexivity. }
  destruct o2 as [tracks|e|e| |]; try apply (Hgets s2 _ _ Ht2).
  rewrite bind_run. unfold stop.
  destruct (make_reverseTracks tracks) as [reverseTracks|e|e| |];
    try apply (Hgets s2 _ _ Ht2).
  rewrite bind_run.
  destruct (bucket_loop id playlists reverseTracks (∅, ∅) s2) as [s3 o3] eqn:E3.
  destruct (bucket_loop_requests _ _ _ _ _ _ _ _ E3) as (labels & Ht3 & _).
  assert (Hloop : forall o', (s3, o') = (s', o) ->
            exists issued id,
              trace s' = trace s ++ issued /\ Forall (run_request id) issued).
  { intros o' H. inversion H; subst.
    exists (map getRequest (((api +:+ "/me") :: urls1) ++ urls2)
            ++ map (fun l => createRequest id l true false "") labels), id.
    split; [rewrite Ht3, Ht2, <- app_assoc; reflexivity|].
    apply Forall_app. split; [apply run_request_gets | apply run_request_creates]. }
  destruct o3 as [[pm tb]|e|e| |]; try apply Hloop.
  intros H. destruct (merge_loop_run_requests id _ _ _ _ _ H) as (issued4 & Ht4 & Hf4).
  exists (map getRequest (((api +:+ "/me") :: urls1) ++ urls2)
          ++ map (fun l => createRequest id l true false "") labels ++ issued4), id.
  split.
  - rewrite Ht4, Ht3, Ht2, <- !app_assoc. reflexivity.
  - apply Forall_app. split; [apply run_request_gets|].
    apply Forall_app. split; [apply run_request_creates | assumption].
Qed.

End RunRequests.

(** X12. A run sends three kinds of requests and no others: GETs,
    create-playlist requests for the user of the profile (public, not
    collaborative, empty description) and appends of a non-empty list.  In
    particular it never sends a DELETE, however it ends. *)
Theorem run_never_deletes {C : Type} `{!Transport C}
    rangeOrder fuel (s s' : sys C) o :
  sync rangeOrder fuel s = (s', o) ->
  exists issued,
    trace s' = trace s ++ issued /\
    (exists id, Forall (run_request id) issued) /\
    Forall (fun r => Method r <> DELETE) issued.
Proof.
  intros H. destruct (sync_run_requests rangeOrder fuel s s' o H)
    as (issued & id & Ht & Hf).
  exists issued. split; [assumption|]. split; [eauto|].
  eapply Forall_impl; [exact Hf|]. intros r Hr. cbv beta in Hr.
  destruct Hr; discriminate.
Qed.

Lemma run_never_deletes_example :
  exists issued,
    trace samples.first_run.1 = [] ++ issued /\
    Forall (fun r => Method r <> DELETE) issued.
Proof.
  destruct (run_never_deletes anyOrder 10 (mkSys samples.january_user [])
              samples.first_run.1 samples.first_run.2 (surjective_pairing _))
    as (issued & Ht & _ & Hd).
  exists issued. split; assumption.
Defined.

(** X13. With an odd number of saved tracks nothing is ever appended: once
    the profile and the two lists are read, the run aborts in the loop over
    the tracks, having sent at most create-playlist requests. *)
Theorem odd_library_appends_nothing {C : Type} `{!Transport C}
    rangeOrder fuel (s s0 s1 s2 : sys C) profile id playlists tracks :
  GetCurrentUsersProfile s = (s0, Ret profile) ->
  as_string (profile !! "id") = Some id ->
  EnumerateCurrentUsersPlaylists fuel s0 = (s1, Ret playlists) ->
  EnumerateUsersSavedTracks fuel s1 = (s2, Ret tracks) ->
  Nat.odd (length tracks) = true ->
  exists s' o labels,
    sync rangeOrder fuel s = (s', o) /\
    aborted o /\
    trace s' = trace s2 ++ map (fun l => createRequest id l true false "") labels.
Proof.
  intros Hp Hid Hpl Htr Hodd. unfold sync.
  rewrite bind_run. unfold orFatal at 1. rewrite Hp.
  rewrite Hid, bind_orFatalf.
  rewrite bind_run. unfold orFatal at 1. rewrite Hpl.
  rewrite bind_run. unfold orFatal at 1. rewrite Htr.
  rewrite bind_run. unfold stop. rewrite make_reverseTracks_spec.
  rewrite <- Nat.negb_odd, Hodd. cbn [negb].
  rewrite bind_run.
  pose proof (bucket_loop_nil id playlists
                (<[(length tracks / 2)%nat := Null]> (reverse tracks)) (∅, ∅) s2) as Ha.
  destruct (bucket_loop id playlists _ (∅, ∅) s2) as [s3 o3] eqn:E3.
  destruct (bucket_loop_requests _ _ _ _ _ _ _ _ E3) as (labels & Ht3 & _).
  assert (Hin : Null ∈ <[(length tracks / 2)%nat := Null]> (reverse tracks)).
  { apply list_elem_of_lookup. exists (length tracks / 2)%nat.
    apply list_lookup_insert_eq. rewrite length_reverse.
    destruct tracks; [simpl in Hodd; discriminate|]. cbn [length].
    apply Nat.div_lt; lia. }
  specialize (Ha Hin). cbn [snd] in Ha.
  destruct o3 as [[pm tb]|e|e| |]; try contradiction;
    eexists _, _, labels; (split; [reflexivity|]); (split; [exact I | exact Ht3]).
Qed.

Lemma odd_library_appends_nothing_example :
  exists s' o labels,
    sync anyOrder 10 (mkSys samples.one_track_user []) = (s', o) /\
    aborted o /\
    trace s' = [getRequest (api +:+ "/me"); getRequest (api +:+ "/me/playlists");
                getRequest (api +:+ "/me/tracks")]
               ++ map (fun l => createRequest "u1" l true false "") labels.
Proof.
  refine (odd_library_appends_nothing anyOrder 10
            (mkSys samples.one_track_user [])
            (mkSys samples.one_track_user [getRequest (api +:+ "/me")])
            (mkSys samples.one_track_user
                   [getRequest (api +:+ "/me"); getRequest (api +:+ "/me/playlists")])
            (mkSys samples.one_track_user
                   [getRequest (api +:+ "/me"); getRequest (api +:+ "/me/playlists");
                    getRequest (api +:+ "/me/tracks")])
            (store_members ∅ [("id", Str "u1")]) "u1" []
            [Service.savedItem (Service.mkSaved "2024-01-15T10:00:00Z" "A")]
            _ _ _ _ _).
  - reflexivity.
  - vm_compute. reflexivity.
  - vm_compute. reflexivity.
  - vm_compute. reflexivity.
  - reflexivity.
Defined.

(** X14. A profile without a string [id] ends the run in [log.Fatalf] for
    "id" after the first request: the status of the response is not looked
    at, so this is how a refused profile request shows, and neither list is
    fetched. *)
Theorem profile_without_id_is_fatal {C : Type} `{!Transport C}
    rangeOrder fuel (s : sys C) c' resp profile :
  Do (getRequest (api +:+ "/me")) (client s) = (c', Some resp) ->
  Decode (Body resp) ∅ = Some profile ->
  as_string (profile !! "id") = None ->
  sync rangeOrder fuel s
  = (mkSys c' (trace s ++ [getRequest (api +:+ "/me")]),
     Fatal (UnexpectedType "id")).
Proof.
  intros HDo HD Hid. unfold sync.
  rewrite bind_run. unfold orFatal at 1, GetCurrentUsersProfile.
  rewrite (bind_Get _ _ _ _ _ HDo). unfold decode. rewrite HD.
  unfold ret at 1. cbv beta iota. rewrite Hid. reflexivity.
Qed.

Lemma profile_without_id_is_fatal_example :
  let refusal :=
    mkResponse 401 (Some (Obj [("error", Obj [("status", Number 401);
                                             ("message", Str "Unauthorized")])])) in
  let c := mkCanned [(api +:+ "/me", refusal)] in
  sync anyOrder 10 (mkSys c [])
  = (mkSys c [getRequest (api +:+ "/me")], Fatal (UnexpectedType "id")).
Proof.
  intros refusal c.
  refine (profile_without_id_is_fatal anyOrder 10 (mkSys c []) c refusal
            (store_members ∅ [("error", Obj [("status", Number 401);
                                             ("message", Str "Unauthorized")])])
            _ _ _).
  - reflexivity.
  - reflexivity.
  - vm_compute. reflexivity.
Defined.

(** ** Start-up (lines 408-442) *)

Section StartupCases.
Context {W : Type} `{!Host W}.

Lemma process_eta (p : process W) : mkProcess (tokenFile p) (host p) = p.
Proof. destruct p. reflexivity. Qed.

(** X15. With a token on file that is still valid, start-up touches
    nothing: no code is asked for, no token endpoint is called, the file is
    not written, and the client is built with the token on file. *)
Theorem valid_token_starts_without_io (p : process W) t :
  tokenFile p = Some t ->
  Valid t (now (host p)) = true ->
  startup p = (p, Ret t).
Proof.
  intros Hfile Hvalid. unfold startup. rewrite bind_run.
  unfold ReadTokenFromPath. rewrite Hfile.
  rewrite bind_run. unfold orFatal at 1, onHost, sourceToken.
  rewrite Hvalid, process_eta.
  rewrite String.eqb_refl. reflexivity.
Qed.

(** X16. Without a token on file, start-up reads a code, exchanges it and
    writes the token to the file before anything else: when the three
    succeed and the token is valid, the file holds the exchanged token and
    the client is built with it. *)
Theorem first_authorization_persists_token (p : process W) w1 code w2 t :
  tokenFile p = None ->
  Scan (host p) = (w1, Some code) ->
  Exchange code w1 = (w2, Some t) ->
  writeFault w2 = None ->
  Valid t (now w2) = true ->
  startup p = (mkProcess (Some t) w2, Ret t).
Proof.
  intros Hfile Hscan Hex Hw Hvalid. unfold startup. rewrite bind_run.
  unfold ReadTokenFromPath. rewrite Hfile.
  rewrite bind_run. unfold orFatal at 1, onHost at 1. rewrite Hscan.
  cbn [orAuthError]. rewrite bind_run. unfold orFatal at 1, onHost at 1.
  cbn [host]. rewrite Hex. cbn [orAuthError].
  rewrite bind_run. unfold orFatal at 1, WriteTokenToPath at 1.
  cbn [host]. rewrite Hw. unfold ret at 1. cbv beta iota.
  rewrite bind_run. unfold orFatal at 1, onHost, sourceToken. cbn [host tokenFile].
  rewrite Hvalid. rewrite String.eqb_refl. reflexivity.
Qed.

(** X17. When the exchanged token cannot be written, the process ends in
    [log.Fatal] before a client exists: no request is sent to the service
    and there is still no token on file, although the code has been
    spent. *)
Theorem failed_write_sends_nothing rangeOrder fuel (p : process W) w1 code w2 t f :
  tokenFile p = None ->
  Scan (host p) = (w1, Some code) ->
  Exchange code w1 = (w2, Some t) ->
  writeFault w2 = Some f ->
  let r := main rangeOrder fuel p in
  result r = Fatal IOError /\ requests r = [] /\ memory r = None
  /\ disk r = None /\ after r = w2.
Proof.
  intros Hfile Hscan Hex Hw r. subst r. unfold main.
  assert (Hs : startup p = (mkProcess None w2, Fatal IOError)).
  { unfold startup. rewrite bind_run.
    unfold ReadTokenFromPath. rewrite Hfile.
    rewrite bind_run. unfold orFatal at 1, onHost at 1. rewrite Hscan.
    cbn [orAuthError]. rewrite bind_run. unfold orFatal at 1, onHost at 1.
    cbn [host]. rewrite Hex. cbn [orAuthError].
    rewrite bind_run. unfold orFatal at 1, WriteTokenToPath at 1.
    cbn [host tokenFile]. rewrite Hw, Hfile. destruct f; reflexivity. }
  rewrite Hs. repeat split.
Qed.

(** X18. A token on file that has expired and carries no refresh token
    ends the process in [log.Fatal]: the authorization dialogue is entered
    only when the file cannot be read, not when its token is useless. *)
Theorem expired_token_without_refresh_is_fatal (p : process W) t :
  tokenFile p = Some t ->
  Valid t (now (host p)) = false ->
  RefreshToken t = "" ->
  startup p = (p, Fatal AuthError).
Proof.
  intros Hfile Hvalid Hrt. unfold startup. rewrite bind_run.
  unfold ReadTokenFromPath. rewrite Hfile.
  rewrite bind_run. unfold orFatal at 1, onHost, sourceToken.
  rewrite Hvalid, Hrt. cbn [String.eqb]. cbv beta iota.
  rewrite process_eta. reflexivity.
Qed.

End StartupCases.

Lemma valid_token_starts_without_io_example :
  startup samples.expiring
  = (samples.expiring, Ret (mkToken "access-0" "refresh" (Some 100))).
Proof.
  apply valid_token_starts_without_io; reflexivity.
Defined.

Lemma first_authorization_persists_token_example :
  startup samples.unauthorized
  = (mkProcess (Some (mkToken "access-1" "refresh" (Some 3600)))
               (samples.mkWorld 0 samples.fresh_user 1),
     Ret (mkToken "access-1" "refresh" (Some 3600))).
Proof.
  apply (first_authorization_persists_token samples.unauthorized
           (samples.mkWorld 0 samples.fresh_user 0) "code");
    reflexivity.
Defined.

Lemma failed_write_sends_nothing_example :
  let r := main anyOrder 10
             (mkProcess None (samples.mkReadonly (samples.mkWorld 0 samples.fresh_user 0))) in
  result r = Fatal IOError /\ requests r = [] /\ memory r = None.
Proof.
  intros r.
  destruct (failed_write_sends_nothing anyOrder 10
              (mkProcess None (samples.mkReadonly (samples.mkWorld 0 samples.fresh_user 0)))
              (samples.mkReadonly (samples.mkWorld 0 samples.fresh_user 0)) "code"
              (samples.mkReadonly (samples.mkWorld 0 samples.fresh_user 1))
              (mkToken "access-1" "refresh" (Some 3600)) CreateFails)
    as (H1 & H2 & H3 & _); try reflexivity.
  repeat split; assumption.
Defined.

Lemma expired_token_without_refresh_is_fatal_example :
  let p := mkProcess (Some (mkToken "access-0" "" (Some 5)))
                     (samples.mkWorld 100 samples.fresh_user 0) in
  startup p = (p, Fatal AuthError).
Proof.
  intros p. apply (expired_token_without_refresh_is_fatal p
                     (mkToken "access-0" "" (Some 5))); reflexivity.
Defined.

(** ** Deleting playlists by name (lines 297-366) *)

Section DeleteByName.
Context {C : Type} `{!Transport C}.

Lemma DeletePlaylist_run playlistId (s : sys C) :
  DeletePlaylist playlistId s =
  (mkSys (Do (deleteRequest playlistId) (client s)).1
         (trace s ++ [deleteRequest playlistId]),
   match (Do (deleteRequest playlistId) (client s)).2 with
   | Some resp =>
     if StatusCode resp =? StatusOK then Ret tt
     else Err (StatusError (StatusCode resp))
   | None => Err TransportError
   end).
Proof.
  unfold DeletePlaylist. rewrite bind_run, send_run.
  destruct ((Do (deleteRequest playlistId) (client s)).2) as [resp|];
    [|reflexivity].
  destruct (StatusCode resp =? StatusOK); reflexivity.
Qed.

Lemma delete_matching_trace matches : forall playlists (s s' : sys C) o,
  delete_matching matches playlists s = (s', o) ->
  exists k,
    trace s' = trace s ++ map deleteRequest (take k (doomed matches playlists))
    /\ (o = Ret tt -> k = length (doomed matches playlists)).
Proof.
  induction playlists as [|playlist rest IH]; intros s s' o H.
  - inversion H; subst. exists 0%nat. cbn. rewrite app_nil_r. auto.
  - revert H. cbn [delete_matching doomed].
    destruct (as_map (Some playlist)) as [plMap|].
    2:{ intros H. inversion H; subst. exists 0%nat. cbn.
        rewrite app_nil_r. split; [reflexivity | discriminate]. }
    rewrite bind_orFatalf.
    destruct (matches (default "" (as_string (plMap !! "name")))); [|apply IH].
    rewrite bind_run, DeletePlaylist_run.
    set (playlistId := default "" (as_string (plMap !! "id"))).
    assert (Hstop : forall o',
      o' <> Ret tt ->
      (mkSys (Do (deleteRequest playlistId) (client s)).1
             (trace s ++ [deleteRequest playlistId]), o') = (s', o) ->
      exists k,
        trace s' = trace s ++ map deleteRequest
                     (take k (playlistId :: doomed matches rest))
        /\ (o = Ret tt -> k = length (playlistId :: doomed matches rest))).
    { intros o' Ho' H. inversion H; subst. exists 1%nat. cbn [take map trace].
      rewrite take_0. split; [reflexivity | intros E; contradiction]. }
    destruct ((Do (deleteRequest playlistId) (client s)).2) as [resp|].
    2:{ intros H. apply (Hstop (Err TransportError)); [discriminate | exact H]. }
    destruct (StatusCode resp =? StatusOK).
    2:{ intros H. apply (Hstop (Err (StatusError (StatusCode resp))));
          [discriminate | exact H]. }
    intros H. destruct (IH _ _ _ H) as (k & Hk & Hall). cbn [trace] in Hk.
    exists (S k). cbn [take map length]. split.
    + rewrite Hk, <- app_assoc. reflexivity.
    + intros E. rewrite (Hall E). reflexivity.
Qed.

Lemma delete_matching_app matches pre : forall post (s : sys C),
  delete_matching matches (pre ++ post) s =
  match delete_matching matches pre s with
  | (s1, Ret _) => delete_matching matches post s1
  | (s1, Err e) => (s1, Err e)
  | (s1, Fatal e) => (s1, Fatal e)
  | (s1, Panic) => (s1, Panic)
  | (s1, Hang) => (s1, Hang)
  end.
Proof.
  induction pre as [|playlist rest IH]; intros post s; [reflexivity|].
  cbn [app delete_matching].
  destruct (as_map (Some playlist)) as [plMap|]; [|reflexivity].
  rewrite !bind_orFatalf.
  destruct (matches (default "" (as_string (plMap !! "name")))); [|apply IH].
  rewrite !bind_run.
  destruct (DeletePlaylist (default "" (as_string (plMap !! "id"))) s)
    as [s1 [[]|e|e| |]]; [apply IH|reflexivity..].
Qed.

(** X19. The loop of [DeletePlaylistsByNameFormat] sends DELETE requests
    only, for the ids of the matching playlists in the order fetched, and
    when it returns without error every matching playlist has been asked
    to be deleted.  It stops at the first deletion that fails, on a
    transport error or a status other than 200: that request is the last
    one sent, its error is what the loop returns, and the playlists after
    it are left alone.  It also stops, in [log.Fatalf], at the first
    element that is not an object. *)
Theorem deletes_matching_playlists_in_order matches (s : sys C) :
  (forall playlists s' o,
     delete_matching matches playlists s = (s', o) ->
     exists k,
       trace s' = trace s ++ map deleteRequest (take k (doomed matches playlists))
       /\ (o = Ret tt -> k = length (doomed matches playlists)))
  /\ (forall pre playlist post plMap s1 c' r,
        delete_matching matches pre s = (s1, Ret tt) ->
        as_map (Some playlist) = Some plMap ->
        matches (default "" (as_string (plMap !! "name"))) = true ->
        Do (deleteRequest (default "" (as_string (plMap !! "id")))) (client s1)
        = (c', r) ->
        (forall resp, r = Some resp -> StatusCode resp <> StatusOK) ->
        delete_matching matches (pre ++ playlist :: post) s
        = (mkSys c' (trace s1 ++ [deleteRequest
                                    (default "" (as_string (plMap !! "id")))]),
           match r with
           | Some resp => Err (StatusError (StatusCode resp))
           | None => Err TransportError
           end))
  /\ (forall pre playlist post s1,
        delete_matching matches pre s = (s1, Ret tt) ->
        as_map (Some playlist) = None ->
        delete_matching matches (pre ++ playlist :: post) s
        = (s1, Fatal (UnexpectedType "playlist"))).
Proof.
  split; [intros playlists s' o; apply delete_matching_trace|]. split.
  - intros pre playlist post plMap s1 c' r Hpre Hmap Hm HDo Hr.
    rewrite delete_matching_app, Hpre. cbn [delete_matching].
    rewrite Hmap, bind_orFatalf, Hm, bind_run, DeletePlaylist_run, HDo.
    cbn [fst snd]. destruct r as [resp|]; [|reflexivity].
    destruct (Z.eqb_spec (StatusCode resp) StatusOK) as [E|E]; [|reflexivity].
    exfalso. exact (Hr resp eq_refl E).
  - intros pre playlist post s1 Hpre Hmap.
    rewrite delete_matching_app, Hpre. cbn [delete_matching].
    rewrite Hmap. reflexivity.
Qed.

(** X20. A playlist whose name is not a string is not skipped: the loop
    logs it and tests the empty name against the pattern, and with an id
    that is not a string either it asks for the playlist with the empty id
    to be deleted. *)
Theorem nameless_playlist_is_matched_as_empty matches playlist plMap rest
    (s s' : sys C) o :
  as_map (Some playlist) = Some plMap ->
  as_string (plMap !! "name") = None ->
  as_string (plMap !! "id") = None ->
  matches "" = true ->
  delete_matching matches (playlist :: rest) s = (s', o) ->
  exists later, trace s' = trace s ++ deleteRequest "" :: later.
Proof.
  intros Hmap Hname Hid Hm. cbn [delete_matching].
  rewrite Hmap, bind_orFatalf, Hname, Hid. cbn [default]. rewrite Hm.
  rewrite bind_run, DeletePlaylist_run.
  assert (Hstop : forall o',
    (mkSys (Do (deleteRequest "") (client s)).1
           (trace s ++ [deleteRequest ""]), o') = (s', o) ->
    exists later, trace s' = trace s ++ deleteRequest "" :: later).
  { intros o' H. inversion H; subst. exists []. reflexivity. }
  destruct ((Do (deleteRequest "") (client s)).2) as [resp|]; [|apply Hstop].
  destruct (StatusCode resp =? StatusOK); [|apply Hstop].
  intros H. destruct (delete_matching_trace _ _ _ _ _ H) as (k & Hk & _).
  cbn [trace] in Hk. eexists. rewrite Hk, <- app_assoc. reflexivity.
Qed.

Lemma enumerate_requests_first url fuel (s s' : sys C) o :
  enumerate url fuel s = (s', o) ->
  exists urls, trace s' = trace s ++ map getRequest (url :: urls).
Proof.
  unfold enumerate, Get. rewrite bind_run, send_run.
  assert (Hone : forall o', (mkSys (Do (getRequest url) (client s)).1
                                   (trace s ++ [getRequest url]), o') = (s', o) ->
                 exists urls, trace s' = trace s ++ map getRequest (url :: urls)).
  { intros o' H. inversion H; subst. exists []. reflexivity. }
  destruct ((Do (getRequest url) (client s)).2) as [resp|]; [|apply Hone].
  unfold decode. destruct (Decode (Body resp) ∅) as [page|]; [|apply Hone].
  unfold ret at 1. cbv beta iota. rewrite bind_run.
  destruct (as_slice (page !! "items")) as [items|]; [|apply Hone].
  cbn [orErr]. unfold ret at 1. cbv beta iota. rewrite bind_run.
  destruct (page !! "next") as [next|]; [|apply Hone].
  cbn [orErr]. unfold ret at 1. cbv beta iota. intros H.
  destruct (follow_next_requests _ _ _ _ _ _ _ H) as [urls Hu]. cbn [trace] in Hu.
  exists urls. rewrite Hu, <- app_assoc. reflexivity.
Qed.

(** X21. [DeletePlaylistsByNameFormat] fetches the playlists first and
    deletes afterwards.  The fetch sends its GETs, the first to the list of
    playlists, whatever the pattern is.  A pattern that does not compile is
    found out only then: the function ends in the state the fetch left,
    with the error of the pattern if the fetch succeeded, and nothing is
    deleted.  A fetch that fails ends the function in that state too.
    With a pattern that compiles and a fetch that succeeds, what follows
    the GETs are the DELETEs of the loop over the fetched playlists. *)
Theorem delete_by_name_reads_then_deletes {R : Regexp} regexPattern fuel
    (s s1 : sys C) o1 :
  EnumerateCurrentUsersPlaylists fuel s = (s1, o1) ->
  (exists urls,
     trace s1 = trace s ++ map getRequest ((api +:+ "/me/playlists") :: urls))
  /\ (forall err,
        Compile regexPattern = inl err ->
        exists o,
          DeletePlaylistsByNameFormat regexPattern fuel s = (s1, o)
          /\ o <> Ret tt
          /\ (forall playlists, o1 = Ret playlists -> o = Err err))
  /\ (aborted o1 ->
      exists o,
        DeletePlaylistsByNameFormat regexPattern fuel s = (s1, o) /\ aborted o)
  /\ (forall matches playlists s' o,
        Compile regexPattern = inr matches ->
        o1 = Ret playlists ->
        DeletePlaylistsByNameFormat regexPattern fuel s = (s', o) ->
        exists k,
          trace s' = trace s1 ++ map deleteRequest
                                   (take k (doomed matches playlists))
          /\ (o = Ret tt -> k = length (doomed matches playlists))).
Proof.
  intros He. split; [exact (enumerate_requests_first _ _ _ _ _ He)|].
  unfold DeletePlaylistsByNameFormat. rewrite bind_run, He.
  split; [|split].
  - intros err Hc. rewrite Hc.
    destruct o1 as [playlists|e|e| |]; eexists;
      (split; [reflexivity|]); (split; [discriminate|]);
      intros playlists' E; try discriminate E; reflexivity.
  - intros Hab. destruct o1 as [playlists|e|e| |]; [destruct Hab|..];
      eexists; (split; [reflexivity | exact I]).
  - intros matches playlists s' o Hc -> H. rewrite Hc in H.
    exact (delete_matching_trace _ _ _ _ _ H).
Qed.

End DeleteByName.

Lemma deletes_matching_playlists_in_order_example :
  delete_matching (fun _ => true) samples.fetched_playlists
                  (mkSys samples.deletable_client [])
  = (mkSys samples.deletable_client [deleteRequest "pl0"; deleteRequest "pl1"],
     Err (StatusError 403)).
Proof.
  refine (proj1 (proj2 (deletes_matching_playlists_in_order (fun _ => true)
                          (mkSys samples.deletable_client [])))
            [Service.playlistItem (Service.mkPlaylist "pl0" "January '24" [])]
            (Service.playlistItem (Service.mkPlaylist "pl1" "February '24" []))
            [Service.playlistItem (Service.mkPlaylist "pl2" "March '24" [])]
            (store_members ∅ [("id", Str "pl1"); ("name", Str "February '24")])
            (mkSys samples.deletable_client [deleteRequest "pl0"])
            samples.deletable_client (Some (mkResponse 403 None))
            _ _ _ _ _).
  - vm_compute. reflexivity.
  - reflexivity.
  - reflexivity.
  - vm_compute. reflexivity.
  - intros resp E. injection E as <-. vm_compute. discriminate.
Defined.

Lemma nameless_playlist_is_matched_as_empty_example :
  exists later,
    trace (delete_matching (fun _ => true) [Obj [("name", Null)]]
             (mkSys samples.deletable_client [])).1
    = [] ++ deleteRequest "" :: later.
Proof.
  apply (nameless_playlist_is_matched_as_empty (fun _ => true)
           (Obj [("name", Null)]) (store_members ∅ [("name", Null)]) []
           (mkSys samples.deletable_client []) _
           (delete_matching (fun _ => true) [Obj [("name", Null)]]
              (mkSys samples.deletable_client [])).2);
    reflexivity.
Defined.

Lemma delete_by_name_reads_then_deletes_example :
  @DeletePlaylistsByNameFormat _ _ samples.startsWithJ "[" 5
     (mkSys samples.cleanup_client [])
  = (mkSys samples.cleanup_client [getRequest (api +:+ "/me/playlists")],
     Err ParseError).
Proof.
  destruct (@delete_by_name_reads_then_deletes _ _ samples.startsWithJ "[" 5
              (mkSys samples.cleanup_client [])
              (mkSys samples.cleanup_client [getRequest (api +:+ "/me/playlists")])
              (Ret samples.fetched_playlists))
    as (_ & Hbad & _).
  - vm_compute. reflexivity.
  - destruct (Hbad ParseError eq_refl) as (o & Ho & _ & Herr).
    rewrite Ho, (Herr _ eq_refl). reflexivity.
Defined.
